(** * nintendo.pia.mesh: station registry, join-response reassembly,
      mesh protocol and mesh manager

    A shallow embedding of [src/nintendo/pia/mesh.py].  Python objects
    with mutable attributes become records threaded through a small
    state-and-exception monad; a raised exception keeps the state as it
    was at the raise, because Python does not roll anything back. *)

From Stdlib Require Import ZArith Lia.
From Stdlib Require Import Strings.Byte.
From stdpp Require Import base tactics option functions list gmap strings.

Local Open Scope nat_scope.

(** ** Exceptions and the state-and-exception monad *)

(** The exceptions the module can raise, by Python class.  The two
    [IndexError]s are told apart by where they come from. *)
Inductive exn : Type :=
| IndexError_occupied   (* line 22: IndexError("Tried to assign station to occupied index") *)
| IndexError_range      (* a subscript [l[i]] with [i] outside the sequence *)
| OverflowError_full    (* line 32: OverflowError("A mesh can only hold up to 32 stations at once") *)
| ValueError_byte       (* [bytes([...])] with an element outside [range(256)] *)
| ValueError_not_in_list (* [l.index(x)] with [x] not in [l] *)
| ZeroDivisionError     (* [a // 0] *)
| KeyError (key : nat)  (* [d[key]] with [key] not in the dict [d] *)
| AttributeError (attr : string)  (* reading an attribute that was never assigned *)
| NameError (name : string)       (* reading a name that is not bound *)
| UnboundLocalError (name : string) (* reading a local before its first assignment *)
| TypeError             (* [bytes([...])] with an element that is not an integer *)
| ExternalError (code : nat).     (* raised inside an external collaborator *)

Inductive outcome (A : Type) : Type :=
| Return (a : A)
| Raise (e : exn).
Arguments Return {A} a.
Arguments Raise {A} e.

Definition M (S A : Type) : Type := S → outcome A * S.

Definition ret {S A} (a : A) : M S A := λ s, (Return a, s).
Definition raise {S A} (e : exn) : M S A := λ s, (Raise e, s).
Definition bind {S A B} (m : M S A) (k : A → M S B) : M S B :=
  λ s, match m s with
       | (Return a, s') => k a s'
       | (Raise e, s') => (Raise e, s')
       end.
Definition get {S} : M S S := λ s, (Return s, s).
Definition gets {S A} (f : S → A) : M S A := λ s, (Return (f s), s).
Definition modify {S} (f : S → S) : M S unit := λ s, (Return tt, f s).

(** [lift_opt e o]: the value of [o], or exception [e] when there is none. *)
Definition lift_opt {S A} (e : exn) (o : option A) : M S A :=
  match o with Some a => ret a | None => raise e end.

Declare Scope py_scope.
Delimit Scope py_scope with py.
Notation "x <- m ;; k" := (bind m (λ x, k))
  (at level 100, m at next level, right associativity) : py_scope.
Notation "m ;;; k" := (bind m (λ _, k))
  (at level 100, right associativity) : py_scope.
Local Open Scope py_scope.

(** [for x in xs: body x] *)
Fixpoint for_each {S A} (xs : list A) (body : A → M S unit) : M S unit :=
  match xs with
  | [] => ret tt
  | x :: xs' => body x ;;; for_each xs' body
  end.

(** ** Bytes *)

(** An external call that returns or raises, run inside the monad. *)
Definition lift_out {S A} (o : outcome A) : M S A := λ s, (o, s).

(** [message[i]] on a [bytes] object: the integer value of the byte, or
    [IndexError] past the end.  Indices in this module are never negative. *)
Definition byte_at {S} (message : list byte) (i : nat) : M S nat :=
  b <- lift_opt IndexError_range (message !! i) ;; ret (Byte.to_nat b).

(** [bytes([x0, x1, ...])]: [ValueError] unless every element is in
    [range(256)]. *)
Definition bytes_of {S} (xs : list Z) : M S (list byte) :=
  lift_opt ValueError_byte
    (mapM (λ x : Z, if decide (0 ≤ x)%Z then Byte.of_nat (Z.to_nat x) else None) xs).

(** [l[i]] on a Python sequence: a negative [i] counts from the end. *)
Definition py_getitem {S A} (l : list A) (i : Z) : M S A :=
  let n := Z.of_nat (length l) in
  if decide (0 ≤ i < n)%Z then lift_opt IndexError_range (l !! Z.to_nat i)
  else if decide (- n ≤ i < 0)%Z then lift_opt IndexError_range (l !! Z.to_nat (i + n))
  else raise IndexError_range.

(** [a // b] on integers: floor division, [ZeroDivisionError] for [b = 0]. *)
Definition floordiv {S} (a b : Z) : M S Z :=
  if decide (b = 0)%Z then raise ZeroDivisionError else ret (a / b)%Z.

(** [range(n)]: empty for [n <= 0]. *)
Definition py_range (n : Z) : list Z := Z.of_nat <$> seq 0 (Z.to_nat n).

(** A loop that threads a local variable: [for x in xs: acc = body acc x]. *)
Fixpoint fold_for {S A B} (xs : list A) (acc : B) (body : B → A → M S B) : M S B :=
  match xs with
  | [] => ret acc
  | x :: xs' => acc' <- body acc x ;; fold_for xs' acc' body
  end.

(** Running a method of a component object held in an attribute. *)
Definition zoom {S T A} (proj : S → T) (upd : T → S → S) (m : M T A) : M S A :=
  λ s, let '(r, t') := m (proj s) in (r, upd t' s).

(** ** The external connection descriptor (nintendo.pia.station) *)

(** [StationConnectionInfo] is imported, not defined here: the module only
    uses its [sizeof], [serialize], [deserialize] and the
    [public_station.rvcid] field. *)
Class ConnectionInfo (C : Type) : Type := {
  ci_sizeof : nat;
  ci_serialize : C → list byte;
  ci_deserialize : list byte → outcome C;
  ci_rvcid : C → nat;
}.

(** The contract the spec assumes of the descriptor type: a serialized
    descriptor has [sizeof] bytes and is read back from the front of any
    buffer that starts with it. *)
Class ConnectionInfoLaws (C : Type) `{ConnectionInfo C} : Prop := {
  ci_serialize_length : ∀ c : C, length (ci_serialize c) = ci_sizeof;
  ci_roundtrip : ∀ (c : C) rest, ci_deserialize (ci_serialize c ++ rest) = Return c;
}.

(** ** The external station address (nintendo.pia.common) *)

(** [StationAddress] is imported as well: of its wire form the module
    uses [serialize] and [deserialize]. *)
Class AddressCodec (A : Type) : Type := {
  addr_serialize : A → list byte;
  addr_deserialize : list byte → outcome A;
}.

(** The contract of the address type: a serialized address is read
    back. *)
Class AddressCodecLaws (A : Type) `{AddressCodec A} : Prop := {
  addr_roundtrip : ∀ a : A, addr_deserialize (addr_serialize a) = Return a;
}.

(** A station handle: a reference to a station object of the session
    layer.  The objects' [index] attributes live in a store that the
    registry writes through. *)
Abbreviation station_ref := nat (only parsing).

(** ** class StationList *)

(** Slot indices are natural numbers: every index the module hands to
    the registry is a byte of a message or the result of
    [list.index]. *)

Module StationList.

Record t : Type := mk {
  stations : list (option station_ref);    (* self.stations *)
  index_attr : station_ref → nat;          (* station.index of every station object *)
}.

(** [__init__]: [self.stations = [None] * 32]. *)
Definition init (index_attr : station_ref → nat) : t :=
  mk (replicate 32 None) index_attr.

(** [is_usable]: [self.stations[index] is None]. *)
Definition is_usable (index : nat) : M t bool :=
  slots <- gets stations ;;
  slot <- lift_opt IndexError_range (slots !! index) ;;
  ret (bool_decide (slot = None)).

(** [self.stations.index(None)]: the first free slot. *)
Fixpoint index_of_None (slots : list (option station_ref)) : option nat :=
  match slots with
  | [] => None
  | None :: _ => Some 0
  | Some _ :: rest => S <$> index_of_None rest
  end.

(** [next_index]. *)
Definition next_index : M t nat :=
  slots <- gets stations ;;
  if bool_decide (None ∈ slots)
  then lift_opt ValueError_not_in_list (index_of_None slots)
  else raise OverflowError_full.

(** [add(station, index=None)]. *)
Definition add (station : station_ref) (index : option nat) : M t unit :=
  index <- match index with
           | None => next_index
           | Some i => ret i
           end ;;
  usable <- is_usable index ;;
  if negb usable then raise IndexError_occupied
  else
    modify (λ s, mk (stations s) (<[station := index]> (index_attr s))) ;;;
    modify (λ s, mk (<[index := Some station]> (stations s)) (index_attr s)).

(** [__len__]: [32 - self.stations.count(None)]. *)
Definition len (s : t) : Z :=
  (32 - Z.of_nat (length (filter (λ slot, slot = None) (stations s))))%Z.

(** [list(filter(None, self.stations))]: the occupants in slot order. *)
Definition filtered (s : t) : list station_ref :=
  omap id (stations s).

(** [__getitem__]: the [index]-th occupant. *)
Definition getitem (index : nat) : M t station_ref :=
  s <- get ;; lift_opt IndexError_range (filtered s !! index).

End StationList.

(** ** class StationInfo *)

Module StationInfo.
Section StationInfo.
Context {C : Type} `{ConnectionInfo C}.

(** [namedtuple("StationInfo", "connection_info index")]. *)
Record t : Type := mk {
  connection_info : C;
  index : nat;
}.

(** [sizeof]: [StationConnectionInfo.sizeof() + 2]. *)
Definition sizeof : nat := ci_sizeof + 2.

(** [deserialize(data)]: the descriptor from the front of [data], then
    the byte [data[conn_info.sizeof()]].  The second byte of the
    two-byte tail is not read. *)
Definition deserialize {S} (data : list byte) : M S t :=
  conn_info <- lift_out (ci_deserialize data) ;;
  index <- byte_at data ci_sizeof ;;
  ret (mk conn_info index).

(** [serialize]: [connection_info.serialize() + bytes([index, 0])]. *)
Definition serialize {S} (self : t) : M S (list byte) :=
  tail <- bytes_of [Z.of_nat (index self); 0%Z] ;;
  ret (ci_serialize (connection_info self) ++ tail).

End StationInfo.
Arguments t C : clear implicits.
End StationInfo.

(** ** class JoinResponseDecoder *)

Module JoinResponseDecoder.
Section JoinResponseDecoder.
Context {C : Type} `{ConnectionInfo C}.

(** One call of the [finished] signal:
    [finished(station, host_index, assigned_index, infos)]. *)
Record finished_call : Type := mk_finished {
  f_station : station_ref;
  f_host_index : nat;
  f_assigned_index : nat;
  f_infos : list (option (StationInfo.t C));
}.

(** The attributes of a decoder.  [station] is [None] after [reset];
    every other attribute is [None] here while Python has not assigned
    it yet (reading it then raises [AttributeError]).  [finished] is
    the log of the calls made to the signal, oldest first. *)
Record t : Type := mk {
  station : option station_ref;
  num_stations : option nat;
  host_index : option nat;
  assigned_index : option nat;
  num_fragments : option nat;
  fragments_received : option (list bool);
  infos : option (list (option (StationInfo.t C)));
  finished : list finished_call;
}.

Definition set_station v (d : t) : t :=
  mk v (num_stations d) (host_index d) (assigned_index d) (num_fragments d)
     (fragments_received d) (infos d) (finished d).
Definition set_num_stations v (d : t) : t :=
  mk (station d) v (host_index d) (assigned_index d) (num_fragments d)
     (fragments_received d) (infos d) (finished d).
Definition set_host_index v (d : t) : t :=
  mk (station d) (num_stations d) v (assigned_index d) (num_fragments d)
     (fragments_received d) (infos d) (finished d).
Definition set_assigned_index v (d : t) : t :=
  mk (station d) (num_stations d) (host_index d) v (num_fragments d)
     (fragments_received d) (infos d) (finished d).
Definition set_num_fragments v (d : t) : t :=
  mk (station d) (num_stations d) (host_index d) (assigned_index d) v
     (fragments_received d) (infos d) (finished d).
Definition set_fragments_received v (d : t) : t :=
  mk (station d) (num_stations d) (host_index d) (assigned_index d) (num_fragments d)
     v (infos d) (finished d).
Definition set_infos v (d : t) : t :=
  mk (station d) (num_stations d) (host_index d) (assigned_index d) (num_fragments d)
     (fragments_received d) v (finished d).
Definition set_finished v (d : t) : t :=
  mk (station d) (num_stations d) (host_index d) (assigned_index d) (num_fragments d)
     (fragments_received d) (infos d) v.

(** Reading [self.<name>]. *)
Definition attr {A} (name : string) (field : t → option A) : M t A :=
  v <- gets field ;; lift_opt (AttributeError name) v.

(** [__init__]: only [reset] runs, so only [station] is assigned. *)
Definition init : t := mk None None None None None None None [].

(** [reset]: [self.station = None]; the other attributes keep their
    values. *)
Definition reset : M t unit := modify (set_station None).

(** [update_info]. *)
Definition update_info (st : station_ref) (message : list byte) : M t unit :=
  modify (set_station (Some st)) ;;;
  n <- byte_at message 1 ;; modify (set_num_stations (Some n)) ;;;
  h <- byte_at message 2 ;; modify (set_host_index (Some h)) ;;;
  a <- byte_at message 3 ;; modify (set_assigned_index (Some a)) ;;;
  k <- byte_at message 4 ;; modify (set_num_fragments (Some k)) ;;;
  k <- attr "num_fragments" num_fragments ;;
  modify (set_fragments_received (Some (replicate k false))) ;;;
  n <- attr "num_stations" num_stations ;;
  modify (set_infos (Some (replicate n None))).

(** [check_info]: a chain of [and], evaluated left to right and
    stopping at the first false operand. *)
Definition check_info (st : station_ref) (message : list byte) : M t bool :=
  cur <- gets station ;;
  if negb (bool_decide (cur = Some st)) then ret false else
  n <- attr "num_stations" num_stations ;; m1 <- byte_at message 1 ;;
  if negb (n =? m1) then ret false else
  h <- attr "host_index" host_index ;; m2 <- byte_at message 2 ;;
  if negb (h =? m2) then ret false else
  a <- attr "assigned_index" assigned_index ;; m3 <- byte_at message 3 ;;
  if negb (a =? m3) then ret false else
  k <- attr "num_fragments" num_fragments ;; m4 <- byte_at message 4 ;;
  ret (k =? m4).

(** The body of the loop at lines 83-91 for one [i].  The local
    [offset] starts at 8 and grows by [StationInfo.sizeof()] per
    iteration, so it is [8 + i * sizeof] in iteration [i].  The
    truth test of line 86 only logs, but it reads [self.infos[index]]
    and so raises when [index] is outside the list. *)
Definition store_record (message : list byte) (fragment_offs i : nat) : M t unit :=
  let index := fragment_offs + i in
  slots <- attr "infos" infos ;;
  _ <- lift_opt IndexError_range (slots !! index) ;;
  info <- StationInfo.deserialize (drop (8 + i * StationInfo.sizeof) message) ;;
  slots <- attr "infos" infos ;;
  _ <- lift_opt IndexError_range (slots !! index) ;;
  modify (set_infos (Some (<[index := Some info]> slots))).

(** [all(self.infos)]: [None] is false, a [StationInfo] (a two-field
    tuple) is true. *)
Definition all_infos (slots : list (option (StationInfo.t C))) : bool :=
  forallb (λ slot, bool_decide (is_Some slot)) slots.

(** Lines 68-73 of [parse]: which context the fragment goes into. *)
Definition select_context (st : station_ref) (message : list byte) : M t unit :=
  cur <- gets station ;;
  match cur with
  | None => update_info st message
  | Some _ =>
      ok <- check_info st message ;;
      if negb ok then reset ;;; update_info st message else ret tt
  end.

(** Lines 75-95 of [parse]: the fragment is stored unless its
    [fragment_index] was seen before, and a full list is handed to
    the [finished] signal.  The call is entered in the log; what is
    subscribed to the signal is run by [store_fragment_with] below. *)
Definition store_fragment (st : station_ref) (message : list byte) : M t unit :=
  fragment_index <- byte_at message 5 ;;
  received <- attr "fragments_received" fragments_received ;;
  seen <- lift_opt IndexError_range (received !! fragment_index) ;;
  if negb seen then
    received <- attr "fragments_received" fragments_received ;;
    _ <- lift_opt IndexError_range (received !! fragment_index) ;;
    modify (set_fragments_received (Some (<[fragment_index := true]> received))) ;;;
    fragment_length <- byte_at message 6 ;;
    fragment_offs <- byte_at message 7 ;;
    for_each (seq 0 fragment_length) (store_record message fragment_offs) ;;;
    slots <- attr "infos" infos ;;
    if all_infos slots then
      h <- attr "host_index" host_index ;;
      a <- attr "assigned_index" assigned_index ;;
      slots <- attr "infos" infos ;;
      modify (λ d, set_finished (finished d ++ [mk_finished st h a slots]) d) ;;;
      reset
    else ret tt
  else ret tt.

(** [parse]. *)
Definition parse (st : station_ref) (message : list byte) : M t unit :=
  select_context st message ;;;
  store_fragment st message.

(** Feeding a sequence of messages from one station, in order. *)
Definition feed (st : station_ref) (messages : list (list byte)) : M t unit :=
  for_each messages (parse st).

End JoinResponseDecoder.
Arguments t C : clear implicits.
Arguments finished_call C : clear implicits.

(** *** The [finished] signal and its subscribers *)

(** [finished] is a [signal.Signal()], a class of [nintendo.common]
    that this module imports: calling it calls what was added to it,
    and an exception of a subscriber leaves the call.  [parse] above is
    the decoder for as long as the subscribers return: there a call is
    an entry of the log and nothing else.  Here the subscribers run as
    well, on a state [X] of their own, where line 94 calls them: after
    the list was found complete and before [reset]. *)
Section Subscribed.
Context {C : Type} `{ConnectionInfo C} {X : Type}.
Variable on_finished : finished_call C → M X unit.

(** A step of the decoder, beside the subscribers' state. *)
Definition own {A} (c : M (t C) A) : M (t C * X) A :=
  zoom fst (λ d s, (d, s.2)) c.

(** [self.finished(...)]: the call is logged and the subscribers run. *)
Definition notify (call : finished_call C) : M (t C * X) unit :=
  own (modify (λ d, set_finished (finished d ++ [call]) d)) ;;;
  zoom snd (λ x s, (s.1, x)) (on_finished call).

(** Lines 75-95 of [parse]. *)
Definition store_fragment_with (st : station_ref) (message : list byte)
    : M (t C * X) unit :=
  fragment_index <- own (byte_at message 5) ;;
  received <- own (attr "fragments_received" fragments_received) ;;
  seen <- own (lift_opt IndexError_range (received !! fragment_index)) ;;
  if negb seen then
    received <- own (attr "fragments_received" fragments_received) ;;
    _ <- own (lift_opt IndexError_range (received !! fragment_index)) ;;
    own (modify (set_fragments_received (Some (<[fragment_index := true]> received)))) ;;;
    fragment_length <- own (byte_at message 6) ;;
    fragment_offs <- own (byte_at message 7) ;;
    own (for_each (seq 0 fragment_length) (store_record message fragment_offs)) ;;;
    slots <- own (attr "infos" infos) ;;
    if all_infos slots then
      h <- own (attr "host_index" host_index) ;;
      a <- own (attr "assigned_index" assigned_index) ;;
      slots <- own (attr "infos" infos) ;;
      notify (mk_finished st h a slots) ;;;
      own reset
    else ret tt
  else ret tt.

(** [parse]. *)
Definition parse_with (st : station_ref) (message : list byte) : M (t C * X) unit :=
  own (select_context st message) ;;;
  store_fragment_with st message.

End Subscribed.
End JoinResponseDecoder.

(** ** class MeshProtocol *)

Module MeshProtocol.
Section MeshProtocol.
Context {C : Type} `{ConnectionInfo C}.

(** One call of [send(station, payload, flags, ack)]: the message goes
    to the resender when [ack] is set and to the transport otherwise,
    always on [PORT_UNRELIABLE] with [PROTOCOL_ID]. *)
Record sent : Type := mk_sent {
  s_station : station_ref;
  s_payload : list byte;
  s_flags : Z;
  s_ack : bool;
}.

(** What the protocol object holds that the modelled methods use:
    the value [self.transport.size_limit()] returns, and the messages
    handed to the transport so far, oldest first, and the table of
    reliable channels (a slot holds the station its channel is bound
    to). *)
Record t : Type := mk {
  size_limit : Z;
  outbox : list sent;
  sliding_windows : list (option station_ref);
}.

Definition MESSAGE_JOIN_RESPONSE : Z := 0x2.

(** [send]. *)
Definition send (station : station_ref) (payload : list byte) (flags : Z)
    (ack : bool) : M t unit :=
  modify (λ p, mk (size_limit p) (outbox p ++ [mk_sent station payload flags ack])
                  (sliding_windows p)).

(** [assign_sliding_window]: [self.sliding_windows[station.index] = ...]. *)
Definition assign_sliding_window (station : station_ref) (index : nat) : M t unit :=
  windows <- gets sliding_windows ;;
  _ <- lift_opt IndexError_range (windows !! index) ;;
  modify (λ p, mk (size_limit p) (outbox p) (<[index := Some station]> windows)).

(** [infosize = (StationConnectionInfo.sizeof() + 4) & ~3]. *)
Definition infosize : Z := Z.land (Z.of_nat ci_sizeof + 4) (Z.lnot 3).

(** Lines 236-238: one record appended to [data]. *)
Definition append_record {S} (stations : list (StationInfo.t C)) (offset : Z)
    (data : list byte) (j : Z) : M S (list byte) :=
  station_info <- py_getitem stations (offset + j) ;;
  tail <- bytes_of [Z.of_nat (StationInfo.index station_info); 0%Z] ;;
  ret (data ++ ci_serialize (StationInfo.connection_info station_info) ++ tail).

(** Lines 229-238: the payload of one fragment, the eight header bytes
    and then the records [stations[offset]], ..., one per [j] in
    [range(num_infos)]. *)
Definition build_fragment {S} (stations : list (StationInfo.t C))
    (host_index assigned_index fragments i num_infos offset : Z) : M S (list byte) :=
  data <- bytes_of [MESSAGE_JOIN_RESPONSE; Z.of_nat (length stations);
                    host_index; assigned_index; fragments; i; num_infos; offset] ;;
  fold_for (py_range num_infos) data (append_record stations offset).

(** Lines 225-239: the body of the loop over the fragments. *)
Definition send_fragment (station : station_ref) (assigned_index host_index : Z)
    (stations : list (StationInfo.t C)) (per_packet fragments i : Z) : M t unit :=
  let offset := (i * per_packet)%Z in
  let remaining := (Z.of_nat (length stations) - offset)%Z in
  let num_infos := Z.min remaining per_packet in
  data <- build_fragment stations host_index assigned_index fragments i num_infos offset ;;
  send station data 0 true.

(** [send_join_response]. *)
Definition send_join_response (station : station_ref) (assigned_index host_index : Z)
    (stations : list (StationInfo.t C)) : M t unit :=
  limit <- gets (λ p, size_limit p - 0xC)%Z ;;
  per_packet <- floordiv limit infosize ;;
  fragments <- floordiv (Z.of_nat (length stations) + per_packet - 1) per_packet ;;
  for_each (py_range fragments)
    (send_fragment station assigned_index host_index stations per_packet fragments).

(** [send_deny_join]. *)
Definition send_deny_join (station : station_ref) (reason : Z) : M t unit :=
  data <- bytes_of [MESSAGE_JOIN_RESPONSE; 0; 0xFF; 0xFF; reason]%Z ;;
  send station data 0 false ;;;
  send station data 8 false.

(** [send_update_mesh]: line 250 is [data += struct.pack(...)] with no
    earlier assignment to the local [data]. *)
Definition send_update_mesh (counter : Z) (host_index : option nat) : M t unit :=
  raise (UnboundLocalError "data").

End MeshProtocol.
Arguments sent : clear implicits.
Arguments t : clear implicits.

(** *** The handlers of incoming messages *)

Section Handlers.
Context {C : Type} `{ConnectionInfo C} {A : Type} `{AddressCodec A}.

Definition PROTOCOL_ID : Z := 0x200.
Definition PORT_UNRELIABLE : Z := 0.
Definition PORT_RELIABLE : Z := 1.
Definition MESSAGE_JOIN_REQUEST : Z := 0x1.
Definition MESSAGE_UPDATE_MESH : Z := 0x20.

(** A [PIAMessage], with the attributes the module writes or reads. *)
Record PIAMessage : Type := mk_message {
  flags : Z;
  protocol_id : Z;
  protocol_port : Z;
  payload : list byte;
}.

(** Lines 262-266: the message [send] builds in one of its calls. *)
Definition message_of (s : sent) : PIAMessage :=
  mk_message (s_flags s) PROTOCOL_ID PORT_UNRELIABLE (s_payload s).

(** The protocol object as its handlers use it: the sending side; the
    decoder, whose [finished] signal is wired to [on_join_response] at
    line 163, so that the decoder's log is the log of that signal too;
    and the logs of the calls made to [station_protocol.send_ack], to
    the signals [on_join_request] and [on_join_denied], to [handle] of
    a sliding window (with the slot of the window) and to [print], each
    oldest first. *)
Record receiver : Type := mk_receiver {
  core : t;
  join_response_decoder : JoinResponseDecoder.t C;
  acks : list (station_ref * list byte);
  on_join_request : list (station_ref * nat * A);
  on_join_denied : list (station_ref * nat);
  window_handled : list (nat * PIAMessage);
  printed : list string;
}.

Definition set_join_response_decoder v (r : receiver) : receiver :=
  mk_receiver (core r) v (acks r) (on_join_request r) (on_join_denied r)
    (window_handled r) (printed r).
Definition set_acks v (r : receiver) : receiver :=
  mk_receiver (core r) (join_response_decoder r) v (on_join_request r) (on_join_denied r)
    (window_handled r) (printed r).
Definition set_on_join_request v (r : receiver) : receiver :=
  mk_receiver (core r) (join_response_decoder r) (acks r) v (on_join_denied r)
    (window_handled r) (printed r).
Definition set_on_join_denied v (r : receiver) : receiver :=
  mk_receiver (core r) (join_response_decoder r) (acks r) (on_join_request r) v
    (window_handled r) (printed r).
Definition set_window_handled v (r : receiver) : receiver :=
  mk_receiver (core r) (join_response_decoder r) (acks r) (on_join_request r)
    (on_join_denied r) v (printed r).
Definition set_printed v (r : receiver) : receiver :=
  mk_receiver (core r) (join_response_decoder r) (acks r) (on_join_request r)
    (on_join_denied r) (window_handled r) v.

(** [__init__], for a transport whose [size_limit()] is [limit]. *)
Definition init (limit : Z) : receiver :=
  mk_receiver (mk limit [] (replicate 32 None)) JoinResponseDecoder.init [] [] [] [] [].

(** [self.station_protocol.send_ack(station, message)]. *)
Definition send_ack (station : station_ref) (message : list byte) : M receiver unit :=
  modify (λ r, set_acks (acks r ++ [(station, message)]) r).

(** [handle_join_request]. *)
Definition handle_join_request (station : station_ref) (message : list byte)
    : M receiver unit :=
  station_address <- lift_out (addr_deserialize (drop 4 message)) ;;
  station_index <- byte_at message 1 ;;
  send_ack station message ;;;
  modify (λ r, set_on_join_request
                 (on_join_request r ++ [(station, station_index, station_address)]) r).

(** [handle_join_response]. *)
Definition handle_join_response (station : station_ref) (message : list byte)
    : M receiver unit :=
  num_stations <- byte_at message 1 ;;
  if num_stations =? 0 then
    reason <- byte_at message 4 ;;
    modify (λ r, set_on_join_denied (on_join_denied r ++ [(station, reason)]) r)
  else
    send_ack station message ;;;
    zoom join_response_decoder set_join_response_decoder
      (JoinResponseDecoder.parse station message).

(** [handle_update_mesh]. *)
Definition handle_update_mesh (station : station_ref) (message : list byte)
    : M receiver unit :=
  modify (λ r, set_printed (printed r ++ ["Mesh update"%string]) r).

(** The dict [self.handlers] of lines 154-158. *)
Definition handlers (message_type : nat)
    : option (station_ref → list byte → M receiver unit) :=
  if decide (Z.of_nat message_type = MESSAGE_JOIN_REQUEST) then Some handle_join_request
  else if decide (Z.of_nat message_type = MESSAGE_JOIN_RESPONSE) then Some handle_join_response
  else if decide (Z.of_nat message_type = MESSAGE_UPDATE_MESH) then Some handle_update_mesh
  else None.

(** [handle_message]. *)
Definition handle_message (station : station_ref) (message : list byte)
    : M receiver unit :=
  message_type <- byte_at message 0 ;;
  handler <- lift_opt (KeyError message_type) (handlers message_type) ;;
  handler station message.

(** [handle]; [index] is [station.index].  A sliding window is an
    external [ReliableTransport]: the call of its [handle] is logged.
    The last branch formats its warning with [packet.protocol_port],
    and no name [packet] is bound in the method or the module. *)
Definition handle (station : station_ref) (index : nat) (message : PIAMessage)
    : M receiver unit :=
  if decide (protocol_port message = PORT_UNRELIABLE) then
    handle_message station (payload message)
  else if decide (protocol_port message = PORT_RELIABLE) then
    if index =? 0xFD then ret tt
    else
      windows <- gets (λ r, sliding_windows (core r)) ;;
      transport <- lift_opt IndexError_range (windows !! index) ;;
      match transport with
      | Some _ =>
          modify (λ r, set_window_handled (window_handled r ++ [(index, message)]) r)
      | None => raise (AttributeError "handle")
      end
  else raise (NameError "packet").

(** [send_join_request]; [index] is [self.session.station.index] and
    [address] what [self.session.station.station_address()] returns. *)
Definition send_join_request (station : station_ref) (index : nat) (address : A)
    : M t unit :=
  data <- bytes_of [MESSAGE_JOIN_REQUEST; Z.of_nat index; 0; 0]%Z ;;
  send station (data ++ addr_serialize address) 0 true.

End Handlers.
Arguments receiver : clear implicits.
End MeshProtocol.

(** ** class MeshMgr *)

Module MeshMgr.
Section MeshMgr.
Context {C : Type} `{ConnectionInfo C}.

(** What the manager reads from the session layer: its own station
    [session.station], [station_mgr.find_by_address], and the
    [connection_info] attribute of a station object. *)
Record session : Type := mk_session {
  station : station_ref;
  find_by_address : nat → option station_ref;
  connection_info_of : station_ref → C;
}.

(** A [StationAddress] as far as this module looks into it: its
    [address] field. *)
Record StationAddress : Type := mk_address { address : nat }.

(** The manager's attributes.  The three last fields log the calls of
    the signals [join_succeeded], [join_denied] and [station_joined],
    oldest first. *)
Record t : Type := mk {
  protocol : MeshProtocol.t;
  stations : StationList.t;
  host_index : option nat;
  update_counter : Z;
  expecting_join_response : bool;
  pending_connect : gmap nat nat;
  join_succeeded : list (list (StationInfo.t C));
  join_denied : list station_ref;
  station_joined : list station_ref;
}.

Definition set_protocol v (m : t) : t :=
  mk v (stations m) (host_index m) (update_counter m) (expecting_join_response m)
     (pending_connect m) (join_succeeded m) (join_denied m) (station_joined m).
Definition set_stations v (m : t) : t :=
  mk (protocol m) v (host_index m) (update_counter m) (expecting_join_response m)
     (pending_connect m) (join_succeeded m) (join_denied m) (station_joined m).
Definition set_host_index v (m : t) : t :=
  mk (protocol m) (stations m) v (update_counter m) (expecting_join_response m)
     (pending_connect m) (join_succeeded m) (join_denied m) (station_joined m).
Definition set_update_counter v (m : t) : t :=
  mk (protocol m) (stations m) (host_index m) v (expecting_join_response m)
     (pending_connect m) (join_succeeded m) (join_denied m) (station_joined m).
Definition set_expecting_join_response v (m : t) : t :=
  mk (protocol m) (stations m) (host_index m) (update_counter m) v
     (pending_connect m) (join_succeeded m) (join_denied m) (station_joined m).
Definition set_pending_connect v (m : t) : t :=
  mk (protocol m) (stations m) (host_index m) (update_counter m) (expecting_join_response m)
     v (join_succeeded m) (join_denied m) (station_joined m).
Definition set_join_succeeded v (m : t) : t :=
  mk (protocol m) (stations m) (host_index m) (update_counter m) (expecting_join_response m)
     (pending_connect m) v (join_denied m) (station_joined m).
Definition set_station_joined v (m : t) : t :=
  mk (protocol m) (stations m) (host_index m) (update_counter m) (expecting_join_response m)
     (pending_connect m) (join_succeeded m) (join_denied m) v.

(** [__init__]. *)
Definition init (p : MeshProtocol.t) (index_attr : station_ref → nat) : t :=
  mk p (StationList.init index_attr) None (-1) false ∅ [] [] [].

(** [is_host]: [self.session.station.index == self.host_index]. *)
Definition is_host (ss : session) : M t bool :=
  gets (λ m, bool_decide
               (host_index m = Some (StationList.index_attr (stations m) (station ss)))).

(** [send_join_response].  The protocol walks the registry through
    [__len__] and [__getitem__], that is over its occupants in slot
    order, and reads [connection_info] and [index] of each. *)
Definition send_join_response (ss : session) (st : station_ref) : M t unit :=
  index <- zoom stations set_stations StationList.next_index ;;
  h <- gets host_index ;;
  h <- lift_opt TypeError h ;;
  occupants <- gets (λ m,
    (λ o, StationInfo.mk (connection_info_of ss o)
                         (StationList.index_attr (stations m) o))
      <$> StationList.filtered (stations m)) ;;
  zoom protocol set_protocol
    (MeshProtocol.send_join_response st (Z.of_nat index) (Z.of_nat h) occupants) ;;;
  zoom stations set_stations (StationList.add st None) ;;;
  i <- gets (λ m, StationList.index_attr (stations m) st) ;;
  zoom protocol set_protocol (MeshProtocol.assign_sliding_window st i).

(** [send_update_mesh]. *)
Definition send_update_mesh : M t unit :=
  modify (λ m, set_update_counter (update_counter m + 1)%Z m) ;;;
  counter <- gets update_counter ;;
  h <- gets host_index ;;
  zoom protocol set_protocol (MeshProtocol.send_update_mesh counter h).

(** [handle_join_request].  Line 303 reads [station_addr.address], and
    no name [station_addr] is bound there: the parameter is called
    [station_address] and the module has no such global.  Evaluating
    the condition therefore raises [NameError]; the rest of the branch
    is written out as the source has it. *)
Definition handle_join_request (ss : session) (st : station_ref)
    (station_index : nat) (station_address : StationAddress) : M t unit :=
  host <- is_host ss ;;
  if host then
    station_addr <- raise (NameError "station_addr") ;;
    if negb (bool_decide (Some st = find_by_address ss (address station_addr))) then
      zoom protocol set_protocol (MeshProtocol.send_deny_join st 2)
    else
      send_join_response ss st ;;;
      send_update_mesh ;;;
      modify (λ m, set_station_joined (station_joined m ++ [st]) m)
  else
    zoom protocol set_protocol (MeshProtocol.send_deny_join st 1).

(** Lines 322-323: one iteration of the loop over [infos]. *)
Definition note_pending (info : StationInfo.t C) : M t unit :=
  let rvcid := ci_rvcid (StationInfo.connection_info info) in
  modify (λ m, set_pending_connect (<[rvcid := StationInfo.index info]> (pending_connect m)) m).

(** [handle_join_response].  [infos] is the list the decoder passes to
    its [finished] signal, where every entry is a record. *)
Definition handle_join_response (ss : session) (st : station_ref)
    (host_idx my_index : nat) (infos : list (StationInfo.t C)) : M t unit :=
  expecting <- gets expecting_join_response ;;
  if negb expecting then ret tt
  else
    modify (set_expecting_join_response false) ;;;
    modify (set_host_index (Some host_idx)) ;;;
    zoom stations set_stations (StationList.add (station ss) (Some my_index)) ;;;
    for_each infos note_pending ;;;
    modify (λ m, set_join_succeeded (join_succeeded m ++ [infos]) m).

(** [create]. *)
Definition create (ss : session) : M t unit :=
  zoom stations set_stations (StationList.add (station ss) None) ;;;
  modify (λ m, set_host_index (Some (StationList.index_attr (stations m) (station ss))) m).

End MeshMgr.
Arguments session : clear implicits.
Arguments t : clear implicits.

(** *** Connecting stations, denials and joining *)

Section Joining.
Context {C : Type} `{ConnectionInfo C} `{AddressCodec StationAddress}.

Definition set_join_denied v (m : t C) : t C :=
  mk (protocol m) (stations m) (host_index m) (update_counter m) (expecting_join_response m)
     (pending_connect m) (join_succeeded m) v (station_joined m).

(** [self.pending_connect.pop(key)]. *)
Definition pop_pending (key : nat) : M (t C) nat :=
  pending <- gets pending_connect ;;
  index <- lift_opt (KeyError key) (pending !! key) ;;
  modify (set_pending_connect (delete key pending)) ;;;
  ret index.

(** [handle_station_connected]; [rvcid_attr] gives the [rvcid]
    attribute of the station objects. *)
Definition handle_station_connected (rvcid_attr : station_ref → nat)
    (st : station_ref) : M (t C) unit :=
  pending <- gets pending_connect ;;
  if bool_decide (is_Some (pending !! rvcid_attr st)) then
    index <- pop_pending (rvcid_attr st) ;;
    usable <- zoom stations set_stations (StationList.is_usable index) ;;
    if usable then
      zoom stations set_stations (StationList.add st (Some index)) ;;;
      i <- gets (λ m, StationList.index_attr (stations m) st) ;;
      zoom protocol set_protocol (MeshProtocol.assign_sliding_window st i) ;;;
      modify (λ m, set_station_joined (station_joined m ++ [st]) m)
    else ret tt
  else ret tt.

(** [handle_join_denied]. *)
Definition handle_join_denied (st : station_ref) (reason : nat) : M (t C) unit :=
  modify (λ m, set_join_denied (join_denied m ++ [st]) m).

(** [join]; [address] is what [self.session.station.station_address()]
    returns. *)
Definition join (ss : session C) (address : StationAddress)
    (host_station : station_ref) : M (t C) unit :=
  modify (set_expecting_join_response true) ;;;
  index <- gets (λ m, StationList.index_attr (stations m) (station ss)) ;;
  zoom protocol set_protocol
    (MeshProtocol.send_join_request host_station index address).

End Joining.

(** *** What the decoder's signal calls *)

Section Wiring.
Context {C : Type} `{ConnectionInfo C}.

(** Line 163 adds the protocol's [on_join_response] signal to the
    decoder's [finished], and line 283 adds [handle_join_response] to
    [on_join_response]: a call of [finished] is a call of
    [handle_join_response] with the same arguments.  The list handed
    over passed [all(self.infos)], so its entries are records. *)
Definition on_join_response (ss : session C)
    (call : JoinResponseDecoder.finished_call C) : M (t C) unit :=
  handle_join_response ss (JoinResponseDecoder.f_station call)
    (JoinResponseDecoder.f_host_index call)
    (JoinResponseDecoder.f_assigned_index call)
    (omap id (JoinResponseDecoder.f_infos call)).

End Wiring.
End MeshMgr.

(** ** Auxiliary definitions used by the statements *)

(** A run of the registry through a sequence of [add] calls.  A call that
    raises leaves the registry as the exception found it and the run goes
    on with the next call. *)
Definition run_adds (ops : list (station_ref * option nat)) (s : StationList.t)
    : StationList.t :=
  foldl (λ s op, (StationList.add op.1 op.2 s).2) s ops.

(** Station objects that no registry has touched yet: line 175 treats
    [index == 0xFD] as "unknown station". *)
Definition unassigned : station_ref → nat := λ _, 0xFD.

(** A one-byte connection descriptor, for the concrete instances below:
    the descriptor is its own wire form and its own rvcid. *)
#[local] Instance byte_descriptor : ConnectionInfo byte := {|
  ci_sizeof := 1;
  ci_serialize := λ c, [c];
  ci_deserialize := λ data,
    match data with
    | c :: _ => Return c
    | [] => Raise IndexError_range
    end;
  ci_rvcid := Byte.to_nat;
|}.

(** *** Fragments of a join response *)

Section Fragments.
Context {C : Type} `{ConnectionInfo C}.

(** The integer at byte [i] of a message, when the message is that long. *)
Definition field (message : list byte) (i : nat) : option nat :=
  Byte.to_nat <$> message !! i.

(** The context [update_info] sets up for station [st] and the header
    values [n], [h], [a], [k], in a decoder whose signal log is [log]. *)
Definition fresh_context (st n h a k : nat)
    (log : list (JoinResponseDecoder.finished_call C)) : JoinResponseDecoder.t C :=
  JoinResponseDecoder.mk (Some st) (Some n) (Some h) (Some a) (Some k)
    (Some (replicate k false)) (Some (replicate n None)) log.

(** A newly created decoder that already has [log] as its signal log. *)
Definition created (log : list (JoinResponseDecoder.finished_call C))
    : JoinResponseDecoder.t C :=
  JoinResponseDecoder.set_finished log JoinResponseDecoder.init.

(** A decoder in the middle of an attempt: every attribute is assigned
    and the two arrays have the announced sizes. *)
Definition collecting (d : JoinResponseDecoder.t C) : Prop :=
  ∃ st n h a k bits slots,
    JoinResponseDecoder.station d = Some st ∧
    JoinResponseDecoder.num_stations d = Some n ∧
    JoinResponseDecoder.host_index d = Some h ∧
    JoinResponseDecoder.assigned_index d = Some a ∧
    JoinResponseDecoder.num_fragments d = Some k ∧
    JoinResponseDecoder.fragments_received d = Some bits ∧ length bits = k ∧
    JoinResponseDecoder.infos d = Some slots ∧ length slots = n.

(** The states [parse] is entered in: idle, or collecting. *)
Definition ready (d : JoinResponseDecoder.t C) : Prop :=
  JoinResponseDecoder.station d = None ∨ collecting d.

(** The records a message carries after its header: record [i] is what
    [StationInfo.deserialize] reads at offset [8 + i * sizeof()]. *)
Definition carries (message : list byte) (recs : list (StationInfo.t C)) : Prop :=
  ∀ i r, recs !! i = Some r →
    StationInfo.deserialize (drop (8 + i * StationInfo.sizeof) message) tt
    = (Return r, tt).

(** The four header attributes of a decoder. *)
Definition header_attrs (d : JoinResponseDecoder.t C) : option nat * option nat * option nat * option nat :=
  (JoinResponseDecoder.num_stations d, JoinResponseDecoder.host_index d, JoinResponseDecoder.assigned_index d, JoinResponseDecoder.num_fragments d).

(** Parts of the state a computation leaves alone. *)
Definition keeps {A X} (f : JoinResponseDecoder.t C → X) (c : M (JoinResponseDecoder.t C) A) : Prop :=
  ∀ d, f (c d).2 = f d.

(** What identifies a fragment within a response: its [fragment_index]
    and the range [offs, offs + length) of records it carries. *)
Record fragment : Type := mk_fragment {
  fragment_index : nat;
  fragment_offs : nat;
  fragment_length : nat;
}.

Definition in_range (f : fragment) (i : nat) : bool :=
  (fragment_offs f <=? i) && (i <? fragment_offs f + fragment_length f).

(** Index [i] lies in the range of one of the fragments. *)
Definition covered (fs : list fragment) (i : nat) : bool :=
  existsb (λ f, in_range f i) fs.

(** The ranges of the fragments together cover [0, n). *)
Definition covers (n : nat) (fs : list fragment) : Prop :=
  ∀ i, i < n → covered fs i = true.

(** [message] is the payload the sender builds (lines 229-238) for
    fragment [f] of the station list [L] with header values [h], [a],
    [k]. *)
Definition is_fragment_of (L : list (StationInfo.t C)) (h a k : nat)
    (f : fragment) (message : list byte) : Prop :=
  MeshProtocol.build_fragment (S:=unit) L (Z.of_nat h) (Z.of_nat a) (Z.of_nat k)
    (Z.of_nat (fragment_index f)) (Z.of_nat (fragment_length f))
    (Z.of_nat (fragment_offs f)) tt
  = (Return message, tt).

(** A fragmentation of [L]: every message is the payload of its
    fragment, all under one header, and the fragment indices are
    distinct and below the announced count [k]. *)
Definition fragmentation (L : list (StationInfo.t C)) (h a k : nat)
    (frs : list (fragment * list byte)) : Prop :=
  Forall (λ fm, is_fragment_of L h a k fm.1 fm.2 ∧ fragment_index fm.1 < k) frs ∧
  NoDup (fragment_index <$> frs.*1).

(** The bit list after the fragments [cur] of one attempt were stored. *)
Definition bits_of (k : nat) (cur : list fragment) : list bool :=
  (λ j, bool_decide (j ∈ fragment_index <$> cur)) <$> seq 0 k.

(** The record list after the fragments [cur] of the station list [L]
    were stored: the covered entries of [L]. *)
Definition slots_of (L : list (StationInfo.t C)) (cur : list fragment)
    : list (option (StationInfo.t C)) :=
  imap (λ i r, if covered cur i then Some r else None) L.

(** The decoder in the middle of an attempt for [L], with the fragments
    [cur] stored. *)
Definition tracking (st : nat) (L : list (StationInfo.t C)) (h a k : nat)
    (cur : list fragment) (log : list (JoinResponseDecoder.finished_call C))
    : JoinResponseDecoder.t C :=
  JoinResponseDecoder.mk (Some st) (Some (length L)) (Some h) (Some a) (Some k)
    (Some (bits_of k cur)) (Some (slots_of L cur)) log.

(** [covers], as a test. *)
Definition complete (n : nat) (fs : list fragment) : bool :=
  forallb (covered fs) (seq 0 n).

(** The attempt as the decoder follows it: the fragments stored since
    the last completion and the number of completions so far. *)
Definition track (n : nat) (s : list fragment * nat) (f : fragment)
    : list fragment * nat :=
  if complete n (f :: s.1) then ([], S s.2) else (f :: s.1, s.2).

(** The call of [finished] that hands over the whole list [L]. *)
Definition completion (st h a : nat) (L : list (StationInfo.t C))
    : JoinResponseDecoder.finished_call C :=
  JoinResponseDecoder.mk_finished st h a (Some <$> L).

(** The decoder [d] is where the attempt [s] says: it has signalled
    [s.2] completions, each with the whole list, and it is idle with
    nothing stored or tracks the fragments [s.1]. *)
Definition follows (st : nat) (L : list (StationInfo.t C)) (h a k : nat)
    (d : JoinResponseDecoder.t C) (s : list fragment * nat) : Prop :=
  JoinResponseDecoder.finished d = replicate s.2 (completion st h a L) ∧
  ((JoinResponseDecoder.station d = None ∧ s.1 = []) ∨
   d = tracking st L h a k s.1 (JoinResponseDecoder.finished d)).

End Fragments.

(** *** Packets of a join response *)

Section Packets.
Context {C : Type} `{ConnectionInfo C}.

(** The byte with value [n], for [n] in [range(256)]. *)
Definition byte_of (n : nat) : byte := default Byte.x00 (Byte.of_nat n).

(** The wire form of a record: descriptor, index, padding. *)
Definition record_bytes (r : StationInfo.t C) : list byte :=
  ci_serialize (StationInfo.connection_info r) ++ [byte_of (StationInfo.index r); Byte.x00].

(** The payload of fragment [i] of [k], which carries the [len] records
    of [L] from [off] on. *)
Definition fragment_payload (L : list (StationInfo.t C)) (h a k i len off : nat)
    : list byte :=
  (byte_of <$> [2; length L; h; a; k; i; len; off])
  ++ concat (record_bytes <$> take len (drop off L)).

(** [recordOffset] and [recordsInFragment] as a packet announces them. *)
Definition packet_range (data : list byte) : option (nat * nat) :=
  off ← field data 7; len ← field data 6; Some (off, len).

(** The ranges [(offset, length)] follow one another from [start] to
    [stop], each non-empty: they split [start, stop) with no gap and no
    overlap. *)
Fixpoint tiles (start : nat) (ranges : list (nat * nat)) (stop : nat) : Prop :=
  match ranges with
  | [] => start = stop
  | (off, len) :: rest => off = start ∧ 0 < len ∧ tiles (off + len) rest stop
  end.

End Packets.

(** *** The pending connections of a join response *)

Section Pending.
Context {C : Type} `{ConnectionInfo C}.

(** [pending_connect] as the claim describes it after a join response:
    the identity of every received record other than the local
    station's own, the one with the assigned index, mapped to the
    record's index. *)
Definition pending_connect_without_self (my_index : nat)
    (infos : list (StationInfo.t C)) (pending : gmap nat nat) : gmap nat nat :=
  foldl (λ pc info,
           <[ci_rvcid (StationInfo.connection_info info) := StationInfo.index info]> pc)
        pending
        (filter (λ info, StationInfo.index info ≠ my_index) infos).

End Pending.

(** A session for the concrete runs: the local station is station 0,
    the transport knows address 100 as station 5 and no other address,
    and every station object has the descriptor 00. *)
Definition demo_session : MeshMgr.session byte :=
  MeshMgr.mk_session 0 (λ addr, if addr =? 100 then Some 5 else None) (λ _, Byte.x00).

(** A protocol object with a payload limit of 20 bytes and nothing sent. *)
Definition demo_protocol : MeshProtocol.t :=
  MeshProtocol.mk 20 [] (replicate 32 None).

(** The manager of a host: newly made, then [create()]. *)
Definition demo_host : MeshMgr.t byte :=
  (MeshMgr.create demo_session (MeshMgr.init demo_protocol unassigned)).2.

(** The manager of a client that has called [join]: newly made, with
    [expecting_join_response] set. *)
Definition demo_client : MeshMgr.t byte :=
  MeshMgr.set_expecting_join_response true (MeshMgr.init demo_protocol unassigned).

(** *** Registries whose stations know their slot *)

(** Every registered station object has, as its [index] attribute, the
    slot it sits in. *)
Definition consistent (s : StationList.t) : Prop :=
  ∀ i st, StationList.stations s !! i = Some (Some st) → StationList.index_attr s st = i.

(** Slot [i] is the first free one. *)
Definition first_free (slots : list (option station_ref)) (i : nat) : Prop :=
  slots !! i = Some None ∧ ∀ j, j < i → ∃ o, slots !! j = Some (Some o).

(** *** Messages handed from a sender to a receiver *)

Section Delivery.
Context {C : Type} `{ConnectionInfo C} {A : Type} `{AddressCodec A}.

(** The receiver's [handle] run on each of the messages [out], which
    arrive from the station [from] whose [index] attribute is [index]. *)
Definition deliver (from : station_ref) (index : nat) (out : list MeshProtocol.sent)
    : M (MeshProtocol.receiver C A) unit :=
  for_each out (λ s, MeshProtocol.handle from index (MeshProtocol.message_of s)).

End Delivery.

(** A station address for the concrete runs, in unary: the address [n]
    is [n] bytes long. *)
#[local] Instance unary_address : AddressCodec MeshMgr.StationAddress := {|
  addr_serialize := λ a, replicate (MeshMgr.address a) Byte.x01;
  addr_deserialize := λ data, Return (MeshMgr.mk_address (length data));
|}.

(** *** The signal log of a decoder *)

Section Signal_log.
Context {C : Type} `{ConnectionInfo C}.

(** The computation [c] leaves the log of [finished] as it is, or it
    appends one call for station [st] whose list has no [None] entry,
    and then it returns with the decoder idle. *)
Definition signals_once (st : station_ref) (c : M (JoinResponseDecoder.t C) unit)
    : Prop :=
  ∀ d,
    JoinResponseDecoder.finished (c d).2 = JoinResponseDecoder.finished d ∨
    ∃ h a slots,
      JoinResponseDecoder.finished (c d).2
      = JoinResponseDecoder.finished d ++ [JoinResponseDecoder.mk_finished st h a slots] ∧
      JoinResponseDecoder.all_infos slots = true ∧
      JoinResponseDecoder.station (c d).2 = None ∧
      (c d).1 = Return tt.

End Signal_log.

(** *** A decoder step and the same step with the subscribers run *)

Section Subscribers_log.
Context {C : Type} `{ConnectionInfo C} {X : Type}.
Variable on_finished : JoinResponseDecoder.finished_call C → M X unit.

(** [cw] does what [c] does, and runs the subscribers where [c] calls
    the signal.  Either [c] leaves the log alone, and then [cw] has the
    outcome and the decoder of [c] and does not touch the subscribers'
    state; or [c] calls the signal once, for station [st], and resets,
    and then [cw] ends as the subscribers do: when they return it
    resets as [c] does, and when they raise it raises what they raise
    and the reset is left out. *)
Definition with_subscribers (st : station_ref) (c : M (JoinResponseDecoder.t C) unit)
    (cw : M (JoinResponseDecoder.t C * X) unit) : Prop :=
  ∀ d x,
    (JoinResponseDecoder.finished (c d).2 = JoinResponseDecoder.finished d ∧
     cw (d, x) = ((c d).1, ((c d).2, x))) ∨
    (∃ h a slots d1,
       let call := JoinResponseDecoder.mk_finished st h a slots in
       let called :=
         JoinResponseDecoder.set_finished (JoinResponseDecoder.finished d ++ [call]) d1 in
       JoinResponseDecoder.all_infos slots = true ∧
       JoinResponseDecoder.finished d1 = JoinResponseDecoder.finished d ∧
       JoinResponseDecoder.station d1 = JoinResponseDecoder.station d ∧
       c d = (Return tt, JoinResponseDecoder.set_station None called) ∧
       cw (d, x)
       = match on_finished call x with
         | (Return _, x') => (Return tt, (JoinResponseDecoder.set_station None called, x'))
         | (Raise e, x') => (Raise e, (called, x'))
         end).

End Subscribers_log.

(** *** Managers for the concrete runs *)

(** A client that waits for its join response and has noted index 3
    for the identity 42. *)
Definition demo_waiting : MeshMgr.t byte :=
  MeshMgr.set_pending_connect {[42 := 3]} demo_client.

(** The same client with index 40, which no registry has, noted for
    that identity. *)
Definition demo_far : MeshMgr.t byte :=
  MeshMgr.set_pending_connect {[42 := 40]} demo_client.

(** * Facts *)

(** Unfolding the monad on a known state. *)
Ltac mstep :=
  unfold bind, ret, raise, get, gets, modify, lift_opt, lift_out, zoom; simpl.

(** ** StationList *)

Section StationList_facts.
Import StationList.

Lemma add_explicit_occupied s st i o :
  stations s !! i = Some (Some o) →
  add st (Some i) s = (Raise IndexError_occupied, s).
Proof.
  intros Hi. unfold add, is_usable. mstep. rewrite Hi. reflexivity.
Qed.

Lemma add_explicit_free s st i :
  stations s !! i = Some None →
  add st (Some i) s =
    (Return tt, mk (<[i := Some st]> (stations s)) (<[st := i]> (index_attr s))).
Proof.
  intros Hi. unfold add, is_usable. mstep. rewrite Hi. reflexivity.
Qed.

Lemma add_explicit_out_of_range s st i :
  stations s !! i = None →
  add st (Some i) s = (Raise IndexError_range, s).
Proof.
  intros Hi. unfold add, is_usable. mstep. rewrite Hi. reflexivity.
Qed.

Lemma index_of_None_spec slots :
  None ∈ slots →
  ∃ i, index_of_None slots = Some i ∧ slots !! i = Some None.
Proof.
  induction slots as [|[o|] rest IH]; intros Hin.
  - by apply elem_of_nil in Hin.
  - apply elem_of_cons in Hin as [|Hin]; [done|].
    destruct (IH Hin) as (i & Hidx & Hi). exists (S i). simpl. by rewrite Hidx.
  - by exists 0.
Qed.

(** Whatever [add] does, the slot array keeps its length. *)
Lemma add_length st oi s :
  length (stations (add st oi s).2) = length (stations s).
Proof.
  destruct oi as [i|]; unfold add, next_index, is_usable; mstep.
  - destruct (stations s !! i) as [[o|]|]; simpl; [done| |done].
    by rewrite length_insert.
  - case_bool_decide as Hin; simpl; [|done].
    destruct (index_of_None_spec _ Hin) as (i & -> & Hi). simpl.
    rewrite Hi. simpl. by rewrite length_insert.
Qed.

Lemma run_adds_length ops s :
  length (stations (run_adds ops s)) = length (stations s).
Proof.
  revert s. induction ops as [|[st oi] ops IH]; intros s; [done|].
  change (run_adds ((st, oi) :: ops) s) with (run_adds ops (add st oi s).2).
  rewrite IH. apply add_length.
Qed.

Lemma filtered_length_le s : length (filtered s) ≤ length (stations s).
Proof.
  unfold filtered. generalize (stations s). intros l.
  induction l as [|[o|] l IH]; unfold omap in *; simpl in *; lia.
Qed.

(** [__len__] counts the occupants as long as the array has 32 slots. *)
Lemma len_filtered s :
  length (stations s) = 32 → len s = Z.of_nat (length (filtered s)).
Proof.
  unfold len, filtered. intros Hlen.
  assert (length (filter (λ slot, slot = None) (stations s))
          + length (omap id (stations s)) = length (stations s)) as Hsum.
  { clear Hlen. generalize (stations s). intros l.
    induction l as [|[o|] l IH]; [done| |].
    - rewrite filter_cons_False by done. unfold omap in *. simpl in *. lia.
    - rewrite filter_cons_True by done. unfold omap in *. simpl in *. lia. }
  lia.
Qed.

(** C8: however the registry was driven by [add] calls from its
    creation, it holds at most 32 stations (and [__len__] reports that
    count), and an [add] with an explicit index whose slot is occupied
    raises the "occupied" [IndexError] and leaves the slots and every
    station's [index] attribute as they were. *)
Theorem registry_capacity_and_occupied_add ops index_attr0 :
  let s := run_adds ops (init index_attr0) in
  length (filtered s) ≤ 32 ∧
  len s = Z.of_nat (length (filtered s)) ∧
  ∀ st i o, stations s !! i = Some (Some o) →
            add st (Some i) s = (Raise IndexError_occupied, s).
Proof.
  intros s.
  assert (length (stations s) = 32) as Hlen.
  { unfold s. rewrite run_adds_length. reflexivity. }
  split; [|split].
  - rewrite <- Hlen. apply filtered_length_le.
  - by apply len_filtered.
  - intros st i o. apply add_explicit_occupied.
Qed.

Lemma registry_capacity_and_occupied_add_witness :
  let s := run_adds [(7, Some 3)] (init unassigned) in
  stations s !! 3 = Some (Some 7) ∧
  add 9 (Some 3) s = (Raise IndexError_occupied, s).
Proof.
  split; [reflexivity|].
  exact (proj2 (proj2 (registry_capacity_and_occupied_add [(7, Some 3)] unassigned))
               9 3 7 eq_refl).
Defined.

(** C10: [add(station, i)] on a free slot [i] returns normally; it
    writes slot [i] and the [index] attribute of the inserted station
    and nothing else, so every other slot and every other station's
    attribute is as before, and the registry is one station longer. *)
Theorem add_free_slot_frame s st i :
  stations s !! i = Some None →
  ∃ s', add st (Some i) s = (Return tt, s') ∧
        stations s' !! i = Some (Some st) ∧
        index_attr s' st = i ∧
        (∀ j, j ≠ i → stations s' !! j = stations s !! j) ∧
        (∀ o, o ≠ st → index_attr s' o = index_attr s o) ∧
        len s' = (len s + 1)%Z.
Proof.
  intros Hi. eexists. split; [by apply add_explicit_free|]. simpl.
  assert (i < length (stations s)) as Hlt by (by eapply lookup_lt_Some).
  split; [by apply list_lookup_insert_eq|].
  split; [by rewrite fn_lookup_insert|].
  split; [by intros j Hj; apply list_lookup_insert_ne|].
  split; [by intros o Ho; apply fn_lookup_insert_ne|].
  unfold len. simpl.
  pose proof (take_drop_middle _ _ _ Hi) as Hsplit.
  rewrite <- Hsplit at 2.
  rewrite insert_take_drop by done.
  rewrite !filter_app, !length_app.
  rewrite filter_cons_False by done.
  rewrite filter_cons_True by done. simpl. lia.
Qed.

Lemma add_free_slot_frame_witness :
  ∃ s', add 7 (Some 3) (init unassigned) = (Return tt, s') ∧
        stations s' !! 3 = Some (Some 7) ∧
        index_attr s' 7 = 3 ∧
        (∀ j, j ≠ 3 → stations s' !! j = stations (init unassigned) !! j) ∧
        (∀ o, o ≠ 7 → index_attr s' o = index_attr (init unassigned) o) ∧
        len s' = (len (init unassigned) + 1)%Z.
Proof.
  apply (add_free_slot_frame (init unassigned) 7 3). reflexivity.
Defined.

End StationList_facts.

(** ** Bytes and the descriptor contract *)

Lemma byte_of_nat_lt n :
  n < 256 → ∃ b, Byte.of_nat n = Some b ∧ Byte.to_nat b = n.
Proof.
  intros Hn. destruct (Byte.of_nat n) as [b|] eqn:Hb.
  - exists b. split; [done|]. by apply Byte.to_of_nat.
  - apply Byte.of_nat_None_iff in Hb. lia.
Qed.

Lemma bytes_of_pair {S} (n : nat) (s : S) :
  n < 256 →
  ∃ b, Byte.to_nat b = n ∧
       bytes_of [Z.of_nat n; 0%Z] s = (Return [b; Byte.x00], s).
Proof.
  intros Hn. destruct (byte_of_nat_lt n Hn) as (b & Hb & Hto).
  exists b. split; [done|].
  unfold bytes_of. simpl. rewrite Nat2Z.id.
  destruct (decide (0 ≤ Z.of_nat n)%Z) as [_|Hneg]; [|lia].
  rewrite Hb. reflexivity.
Qed.

#[local] Instance byte_descriptor_laws : ConnectionInfoLaws byte.
Proof. split; [done|]. intros c rest. reflexivity. Qed.

(** ** StationInfo *)

Section StationInfo_facts.
Context {C : Type} `{ConnectionInfoLaws C}.
Import StationInfo.

(** The bytes of a record whose index fits a byte. *)
Lemma serialize_ok {S} (r : t C) (s : S) :
  index r < 256 →
  ∃ b, Byte.to_nat b = index r ∧
       serialize r s = (Return (ci_serialize (connection_info r) ++ [b; Byte.x00]), s).
Proof.
  intros Hidx. destruct (bytes_of_pair (S:=S) (index r) s Hidx) as (b & Hb & Hbytes).
  exists b. split; [done|]. unfold serialize. mstep. rewrite Hbytes. reflexivity.
Qed.

(** A record is read back from the front of any buffer that starts
    with its bytes. *)
Lemma deserialize_prefix {S} (c : C) (b : byte) (pad : byte) rest (s : S) :
  deserialize (ci_serialize c ++ [b; pad] ++ rest) s
  = (Return (mk c (Byte.to_nat b)), s).
Proof.
  unfold deserialize, byte_at. mstep. rewrite ci_roundtrip.
  rewrite lookup_app_r by (rewrite ci_serialize_length; lia).
  rewrite ci_serialize_length, Nat.sub_diag. reflexivity.
Qed.

(** C6: a record whose index is a byte serializes, to [sizeof()]
    bytes, and [deserialize] gives the same descriptor and index back,
    provided the descriptor type keeps its own contract (fixed size,
    read back from the front of a buffer). *)
Theorem serialize_deserialize_roundtrip {S} (r : t C) (s : S) :
  index r < 256 →
  ∃ data, serialize r s = (Return data, s) ∧
          length data = sizeof ∧
          deserialize data s = (Return r, s).
Proof.
  intros Hidx. destruct (serialize_ok r s Hidx) as (b & Hb & Hser).
  eexists. split; [exact Hser|]. split.
  - rewrite length_app, ci_serialize_length. reflexivity.
  - pose proof (deserialize_prefix (connection_info r) b Byte.x00 [] s) as Hde.
    simpl in Hde. rewrite Hde, Hb. by destruct r.
Qed.

(** C7, as the code has it: a buffer of at most [sizeof(descriptor)]
    bytes is refused, with the [IndexError] of the index read unless
    the descriptor's own [deserialize] raised first, and nothing is
    changed; a buffer that holds the descriptor and one more byte is
    accepted, whatever follows, because the padding byte is not read. *)
Theorem deserialize_short_buffer {S} (data : list byte) (s : S) :
  (length data ≤ ci_sizeof →
     deserialize data s = (Raise IndexError_range, s) ∨
     ∃ e, ci_deserialize data = Raise e ∧ deserialize data s = (Raise e, s)) ∧
  (∀ c b, ci_deserialize data = Return c → data !! ci_sizeof = Some b →
     deserialize data s = (Return (mk c (Byte.to_nat b)), s)).
Proof.
  split.
  - intros Hlen. unfold deserialize, byte_at. mstep.
    destruct (ci_deserialize data) as [c|e] eqn:Hc.
    + left. by rewrite lookup_ge_None_2.
    + right. by exists e.
  - intros c b Hc Hb. unfold deserialize, byte_at. mstep. by rewrite Hc, Hb.
Qed.

End StationInfo_facts.

Lemma serialize_deserialize_roundtrip_witness :
  StationInfo.index (StationInfo.mk Byte.x2a 5) < 256 ∧
  ∃ data, StationInfo.serialize (StationInfo.mk Byte.x2a 5) tt = (Return data, tt) ∧
          length data = StationInfo.sizeof ∧
          StationInfo.deserialize data tt = (Return (StationInfo.mk Byte.x2a 5), tt).
Proof.
  split; [simpl; lia|].
  apply (serialize_deserialize_roundtrip (StationInfo.mk Byte.x2a 5) tt). simpl. lia.
Defined.

Lemma deserialize_short_buffer_witness :
  length [Byte.x2a] ≤ ci_sizeof ∧
  (StationInfo.deserialize [Byte.x2a] tt = (Raise IndexError_range, tt) ∨
   ∃ e, ci_deserialize [Byte.x2a] = Raise e ∧
        StationInfo.deserialize [Byte.x2a] tt = (Raise e, tt)).
Proof.
  split; [vm_compute; lia|].
  apply (proj1 (deserialize_short_buffer [Byte.x2a] tt)). vm_compute. lia.
Defined.

(** C7 as stated fails: with a one-byte descriptor [sizeof()] is 3, and
    the two-byte buffer [2a 05] is shorter than that, yet it
    deserializes to the record (2a, 5). *)
Lemma deserialize_short_buffer_accepted :
  length [Byte.x2a; Byte.x05] < StationInfo.sizeof ∧
  StationInfo.deserialize [Byte.x2a; Byte.x05] tt
  = (Return (StationInfo.mk Byte.x2a 5), tt).
Proof. split; [vm_compute; lia|reflexivity]. Qed.

(** ** JoinResponseDecoder *)

Section Decoder_facts.
Context {C : Type} `{ConnectionInfoLaws C}.
Import JoinResponseDecoder.

#[local] Arguments Nat.add : simpl never.
#[local] Arguments Nat.mul : simpl never.

Ltac mrun := repeat (progress (mstep)).

Lemma byte_at_field {S} (m : list byte) i v (s : S) :
  field m i = Some v → byte_at m i s = (Return v, s).
Proof.
  unfold field, byte_at. mstep. destruct (m !! i); simpl; [|done].
  by intros [= <-].
Qed.

Lemma byte_at_missing {S} (m : list byte) i (s : S) :
  field m i = None → byte_at m i s = (Raise IndexError_range, s).
Proof. unfold field, byte_at. mstep. by destruct (m !! i). Qed.

Lemma field_is_Some (m : list byte) i : i < length m → is_Some (field m i).
Proof.
  intros Hi. unfold field. destruct (lookup_lt_is_Some_2 m i Hi) as [b ->]. by eexists.
Qed.

Lemma update_info_header (d : t C) st m n h a k :
  field m 1 = Some n → field m 2 = Some h →
  field m 3 = Some a → field m 4 = Some k →
  update_info st m d = (Return tt, fresh_context st n h a k (finished d)).
Proof.
  intros H1 H2 H3 H4. unfold update_info, attr. mstep.
  rewrite (byte_at_field _ _ _ _ H1). simpl.
  rewrite (byte_at_field _ _ _ _ H2). simpl.
  rewrite (byte_at_field _ _ _ _ H3). simpl.
  rewrite (byte_at_field _ _ _ _ H4). simpl.
  reflexivity.
Qed.

(** [check_info] on a decoder whose header attributes are assigned. *)
Lemma check_info_header (d : t C) st m s0 n0 h0 a0 k0 n h a k :
  station d = Some s0 → num_stations d = Some n0 → host_index d = Some h0 →
  assigned_index d = Some a0 → num_fragments d = Some k0 →
  field m 1 = Some n → field m 2 = Some h →
  field m 3 = Some a → field m 4 = Some k →
  check_info st m d
  = (Return (bool_decide (s0 = st ∧ n0 = n ∧ h0 = h ∧ a0 = a ∧ k0 = k)), d).
Proof.
  intros Hs Hn Hh Ha Hk H1 H2 H3 H4. unfold check_info, attr. mstep.
  rewrite Hs. case_bool_decide as Hst; simpl.
  2:{ rewrite bool_decide_eq_false_2; [done|]. intros (-> & _). done. }
  injection Hst as ->.
  rewrite Hn. simpl. rewrite (byte_at_field _ _ _ _ H1). simpl.
  destruct (Nat.eqb_spec n0 n) as [->|Hne]; simpl.
  2:{ rewrite bool_decide_eq_false_2; [done|]. by intros (?&?&?&?&?). }
  rewrite Hh. simpl. rewrite (byte_at_field _ _ _ _ H2). simpl.
  destruct (Nat.eqb_spec h0 h) as [->|Hne]; simpl.
  2:{ rewrite bool_decide_eq_false_2; [done|]. by intros (?&?&?&?&?). }
  rewrite Ha. simpl. rewrite (byte_at_field _ _ _ _ H3). simpl.
  destruct (Nat.eqb_spec a0 a) as [->|Hne]; simpl.
  2:{ rewrite bool_decide_eq_false_2; [done|]. by intros (?&?&?&?&?). }
  rewrite Hk. simpl. rewrite (byte_at_field _ _ _ _ H4). simpl.
  destruct (Nat.eqb_spec k0 k) as [->|Hne]; simpl.
  - by rewrite bool_decide_eq_true_2.
  - rewrite bool_decide_eq_false_2; [done|]. by intros (?&?&?&?&?).
Qed.

(** A fragment from another station: the and-chain stops at its first
    operand and the message is not looked at. *)
Lemma check_info_other_station (d : t C) st m s0 :
  station d = Some s0 → s0 ≠ st → check_info st m d = (Return false, d).
Proof.
  intros Hs Hne. unfold check_info. mstep. rewrite Hs.
  rewrite bool_decide_eq_false_2; [done|]. by intros [= ->].
Qed.

Lemma select_context_idle (d : t C) st m :
  station d = None → select_context st m d = update_info st m d.
Proof. intros Hs. unfold select_context. mstep. by rewrite Hs. Qed.

(** [StationInfo.deserialize] neither reads nor writes the state. *)
Lemma deserialize_state {S} (data : list byte) (s : S) :
  StationInfo.deserialize data s = ((StationInfo.deserialize (C:=C) data tt).1, s).
Proof.
  unfold StationInfo.deserialize, byte_at. mstep.
  destruct (ci_deserialize data); simpl; [|done].
  by destruct (data !! ci_sizeof).
Qed.

Lemma set_infos_id (d : t C) slots : infos d = Some slots → set_infos (Some slots) d = d.
Proof. destruct d. simpl. by intros ->. Qed.

(** One iteration of the record loop: it raises before writing
    anything, or writes the one slot [fragment_offs + i]. *)
Lemma store_record_cases (d : t C) m fo i slots :
  infos d = Some slots →
  (∃ e, store_record m fo i d = (Raise e, d)) ∨
  (fo + i < length slots ∧
   ∃ r, StationInfo.deserialize (drop (8 + i * StationInfo.sizeof) m) tt = (Return r, tt) ∧
        store_record m fo i d
        = (Return tt, set_infos (Some (<[fo + i := Some r]> slots)) d)).
Proof.
  intros Hinfos. unfold store_record, attr. mrun. rewrite Hinfos. mrun.
  destruct (slots !! (fo + i)) as [slot|] eqn:Hslot; mrun; [|left; by eexists].
  rewrite deserialize_state.
  destruct (StationInfo.deserialize (drop (8 + i * StationInfo.sizeof) m) tt)
    as [[r|e] []] eqn:Hde; mrun; [|left; by eexists].
  right. split; [by eapply lookup_lt_Some|]. exists r. split; [done|].
  rewrite Hinfos. mrun. rewrite Hslot. reflexivity.
Qed.

Lemma store_record_ok (d : t C) m fo i slots r :
  infos d = Some slots → fo + i < length slots →
  StationInfo.deserialize (drop (8 + i * StationInfo.sizeof) m) tt = (Return r, tt) →
  store_record m fo i d = (Return tt, set_infos (Some (<[fo + i := Some r]> slots)) d).
Proof.
  intros Hinfos Hlt Hde. unfold store_record, attr. mrun. rewrite Hinfos. mrun.
  destruct (lookup_lt_is_Some_2 slots (fo + i) Hlt) as [slot Hslot].
  rewrite Hslot. mrun. rewrite deserialize_state, Hde. mrun.
  rewrite Hinfos. mrun. rewrite Hslot. reflexivity.
Qed.

(** The record loop over records that are all there and all in range. *)
Lemma store_loop_ok m fo recs : ∀ i0 (d : t C) slots,
  infos d = Some slots →
  (recs ≠ [] → fo + i0 + length recs ≤ length slots) →
  (∀ j r, recs !! j = Some r →
     StationInfo.deserialize (drop (8 + (i0 + j) * StationInfo.sizeof) m) tt
     = (Return r, tt)) →
  for_each (seq i0 (length recs)) (store_record m fo) d
  = (Return tt, set_infos (Some (list_inserts (fo + i0) (Some <$> recs) slots)) d).
Proof.
  induction recs as [|r recs IH]; intros i0 d slots Hinfos Hlen Hrecs.
  - simpl. unfold ret. by rewrite set_infos_id.
  - specialize (Hlen ltac:(done)). simpl in Hlen. simpl. unfold bind.
    rewrite (store_record_ok d m fo i0 slots r); [|done|lia|].
    2:{ specialize (Hrecs 0 r eq_refl). by rewrite Nat.add_0_r in Hrecs. }
    rewrite (IH (S i0) _ (<[fo + i0 := Some r]> slots));
      [|done|intros _; rewrite length_insert; lia|].
    2:{ intros j r' Hj. specialize (Hrecs (S j) r' Hj).
        by replace (S i0 + j) with (i0 + S j) by lia. }
    simpl. f_equal. unfold set_infos. simpl. f_equal. f_equal.
    replace (fo + S i0) with (S (fo + i0)) by lia.
    rewrite list_insert_inserts_lt by lia. reflexivity.
Qed.

(** The record loop over a range that leaves the list: some iteration
    raises, and the slots written before it stay written. *)
Lemma store_loop_overflow m fo : ∀ cnt i0 (d : t C) slots,
  infos d = Some slots → 0 < cnt → length slots < fo + i0 + cnt →
  ∃ e slots', length slots' = length slots ∧
    for_each (seq i0 cnt) (store_record m fo) d
    = (Raise e, set_infos (Some slots') d).
Proof.
  induction cnt as [|cnt IH]; intros i0 d slots Hinfos Hpos Hover; [lia|].
  simpl. unfold bind.
  destruct (store_record_cases d m fo i0 slots Hinfos)
    as [[e He]|(Hlt & r & _ & Hok)].
  - rewrite He. exists e, slots. split; [done|]. by rewrite set_infos_id.
  - rewrite Hok.
    destruct (IH (S i0) (set_infos (Some (<[fo + i0 := Some r]> slots)) d)
                (<[fo + i0 := Some r]> slots)) as (e & slots' & Hlen & Hloop).
    + done.
    + lia.
    + rewrite length_insert. lia.
    + exists e, slots'. split; [by rewrite Hlen, length_insert|].
      rewrite Hloop. reflexivity.
Qed.

(** A fragment whose [fragment_index] was seen before changes nothing. *)
Lemma store_fragment_seen (d : t C) st m bits fi :
  fragments_received d = Some bits → field m 5 = Some fi →
  bits !! fi = Some true →
  store_fragment st m d = (Return tt, d).
Proof.
  intros Hbits H5 Hseen. unfold store_fragment, attr. mstep.
  rewrite (byte_at_field _ _ _ _ H5). simpl. rewrite Hbits. simpl.
  rewrite Hseen. reflexivity.
Qed.

(** A [fragment_index] outside the bit list raises at line 76, before
    anything is written. *)
Lemma store_fragment_index_overflow (d : t C) st m bits fi :
  fragments_received d = Some bits → field m 5 = Some fi →
  length bits ≤ fi →
  store_fragment st m d = (Raise IndexError_range, d).
Proof.
  intros Hbits H5 Hge. unfold store_fragment, attr. mstep.
  rewrite (byte_at_field _ _ _ _ H5). simpl. rewrite Hbits. simpl.
  by rewrite lookup_ge_None_2.
Qed.

(** A new fragment whose records are there and in range. *)
Lemma store_fragment_new (d : t C) st m bits slots h a fi fo recs :
  fragments_received d = Some bits → infos d = Some slots →
  host_index d = Some h → assigned_index d = Some a →
  field m 5 = Some fi → field m 6 = Some (length recs) → field m 7 = Some fo →
  bits !! fi = Some false → carries m recs →
  (recs ≠ [] → fo + length recs ≤ length slots) →
  store_fragment st m d
  = (Return tt,
     let slots' := list_inserts fo (Some <$> recs) slots in
     let d1 := set_infos (Some slots')
                 (set_fragments_received (Some (<[fi := true]> bits)) d) in
     if all_infos slots'
     then set_station None
            (set_finished (finished d ++ [mk_finished st h a slots']) d1)
     else d1).
Proof.
  intros Hbits Hinfos Hh Ha H5 H6 H7 Hnew Hrecs Hlen.
  unfold store_fragment, attr. mstep.
  rewrite (byte_at_field _ _ _ _ H5). simpl. rewrite Hbits. simpl.
  rewrite Hnew. simpl. rewrite Hbits. simpl. rewrite Hnew. simpl.
  rewrite (byte_at_field _ _ _ _ H6). simpl.
  rewrite (byte_at_field _ _ _ _ H7). simpl.
  rewrite (store_loop_ok m fo recs 0 _ slots);
    [|done|intros Hne; specialize (Hlen Hne); lia|].
  2:{ intros j r Hj. by apply Hrecs. }
  simpl. rewrite Nat.add_0_r.
  destruct (all_infos (list_inserts fo (Some <$> recs) slots)); simpl; [|done].
  rewrite Hh. simpl. rewrite Ha. simpl. reflexivity.
Qed.

(** Lines 68-73 on a decoder that is collecting: the context is kept
    when station and header agree and set up anew otherwise. *)
Lemma select_context_collecting (d : t C) st m s0 n0 h0 a0 k0 n h a k :
  station d = Some s0 → num_stations d = Some n0 → host_index d = Some h0 →
  assigned_index d = Some a0 → num_fragments d = Some k0 →
  field m 1 = Some n → field m 2 = Some h →
  field m 3 = Some a → field m 4 = Some k →
  select_context st m d
  = (Return tt,
     if bool_decide (s0 = st ∧ n0 = n ∧ h0 = h ∧ a0 = a ∧ k0 = k)
     then d else fresh_context st n h a k (finished d)).
Proof.
  intros Hs Hn Hh Ha Hk H1 H2 H3 H4. unfold select_context. mstep. rewrite Hs.
  rewrite (check_info_header d st m s0 n0 h0 a0 k0 n h a k) by done.
  case_bool_decide; simpl; [done|].
  unfold reset. mstep.
  by rewrite (update_info_header _ st m n h a k).
Qed.

Lemma keeps_bind {A B X} (f : t C → X) (c : M (t C) A) (k : A → M (t C) B) :
  keeps f c → (∀ a, keeps f (k a)) → keeps f (bind c k).
Proof.
  intros Hc Hk d. unfold bind. specialize (Hc d).
  destruct (c d) as [[a|e] d1]; simpl in *; [|done].
  by rewrite Hk.
Qed.

Lemma keeps_ret {A X} (f : t C → X) (a : A) : keeps f (ret a).
Proof. done. Qed.

Lemma keeps_raise {A X} (f : t C → X) e : keeps f (raise (A:=A) e).
Proof. done. Qed.

Lemma keeps_gets {A X} (f : t C → X) (g : t C → A) : keeps f (gets g).
Proof. done. Qed.

Lemma keeps_lift_opt {A X} (f : t C → X) e (o : option A) : keeps f (lift_opt e o).
Proof. by destruct o. Qed.

Lemma keeps_attr {A X} (f : t C → X) name (g : t C → option A) : keeps f (attr name g).
Proof. apply keeps_bind; [apply keeps_gets|]. intros o. apply keeps_lift_opt. Qed.

Lemma keeps_byte_at {X} (f : t C → X) m i : keeps f (byte_at m i).
Proof. apply keeps_bind; [apply keeps_lift_opt|]. intros b. apply keeps_ret. Qed.

Lemma keeps_modify {X} (f : t C → X) (g : t C → t C) :
  (∀ d, f (g d) = f d) → keeps f (modify g).
Proof. intros Hg d. apply Hg. Qed.

Lemma keeps_for_each {A X} (f : t C → X) (xs : list A) body :
  (∀ x, keeps f (body x)) → keeps f (for_each xs body).
Proof.
  intros Hbody. induction xs as [|x xs IH]; [apply keeps_ret|].
  simpl. apply keeps_bind; [apply Hbody|]. by intros _.
Qed.

Lemma keeps_deserialize {X} (f : t C → X) data :
  keeps f (StationInfo.deserialize data).
Proof. intros d. by rewrite deserialize_state. Qed.

(** Lines 75-95 never assign a header attribute. *)
Lemma store_fragment_keeps_header st m : keeps header_attrs (store_fragment st m).
Proof.
  unfold store_fragment.
  apply keeps_bind; [apply keeps_byte_at|]. intros fi.
  apply keeps_bind; [apply keeps_attr|]. intros bits.
  apply keeps_bind; [apply keeps_lift_opt|]. intros seen.
  destruct seen; simpl; [apply keeps_ret|].
  apply keeps_bind; [apply keeps_attr|]. intros bits'.
  apply keeps_bind; [apply keeps_lift_opt|]. intros _.
  apply keeps_bind; [by apply keeps_modify|]. intros _.
  apply keeps_bind; [apply keeps_byte_at|]. intros fl.
  apply keeps_bind; [apply keeps_byte_at|]. intros fo.
  apply keeps_bind.
  { apply keeps_for_each. intros i. unfold store_record.
    apply keeps_bind; [apply keeps_attr|]. intros slots.
    apply keeps_bind; [apply keeps_lift_opt|]. intros _.
    apply keeps_bind; [apply keeps_deserialize|]. intros info.
    apply keeps_bind; [apply keeps_attr|]. intros slots'.
    apply keeps_bind; [apply keeps_lift_opt|]. intros _.
    by apply keeps_modify. }
  intros _.
  apply keeps_bind; [apply keeps_attr|]. intros slots.
  destruct (all_infos slots); [|apply keeps_ret].
  apply keeps_bind; [apply keeps_attr|]. intros h.
  apply keeps_bind; [apply keeps_attr|]. intros a.
  apply keeps_bind; [apply keeps_attr|]. intros slots'.
  apply keeps_bind; [by apply keeps_modify|]. intros _.
  by apply keeps_modify.
Qed.

(** [parse] as the composition of its two halves. *)
Lemma parse_after_select (d d1 : t C) st m :
  select_context st m d = (Return tt, d1) →
  parse st m d = store_fragment st m d1.
Proof. intros Hsel. unfold parse, bind. by rewrite Hsel. Qed.

(** C9: while the decoder is collecting, a fragment from another
    station, or one whose num_stations, host_index, assigned_index or
    fragment count differs from the tracked ones, is handled exactly as
    a newly created decoder would handle it (only the log of earlier
    completions is shared): nothing of the partial state survives, and
    afterwards the header attributes are those of the new fragment. *)
Theorem incompatible_fragment_restarts (d : t C) st m s0 n0 h0 a0 k0 n h a k :
  station d = Some s0 → num_stations d = Some n0 → host_index d = Some h0 →
  assigned_index d = Some a0 → num_fragments d = Some k0 →
  field m 1 = Some n → field m 2 = Some h →
  field m 3 = Some a → field m 4 = Some k →
  ¬ (s0 = st ∧ n0 = n ∧ h0 = h ∧ a0 = a ∧ k0 = k) →
  parse st m d = parse st m (created (finished d)) ∧
  parse st m d = store_fragment st m (fresh_context st n h a k (finished d)) ∧
  header_attrs (parse st m d).2 = (Some n, Some h, Some a, Some k).
Proof.
  intros Hs Hn Hh Ha Hk H1 H2 H3 H4 Hdiff.
  assert (parse st m d = store_fragment st m (fresh_context st n h a k (finished d)))
    as Hparse.
  { apply parse_after_select.
    rewrite (select_context_collecting d st m s0 n0 h0 a0 k0 n h a k) by done.
    by rewrite bool_decide_eq_false_2. }
  split; [|split; [done|]].
  - rewrite Hparse. symmetry. apply parse_after_select.
    rewrite select_context_idle by done.
    by rewrite (update_info_header _ st m n h a k).
  - rewrite Hparse. by rewrite store_fragment_keeps_header.
Qed.

(** A new fragment whose record range leaves the list: the bit of the
    fragment is set, and then the loop raises. *)
Lemma store_fragment_range_overflow (d : t C) st m bits slots fi fl fo :
  fragments_received d = Some bits → infos d = Some slots →
  field m 5 = Some fi → field m 6 = Some fl → field m 7 = Some fo →
  bits !! fi = Some false → 0 < fl → length slots < fo + fl →
  ∃ e slots', length slots' = length slots ∧
    store_fragment st m d
    = (Raise e, set_infos (Some slots')
                  (set_fragments_received (Some (<[fi := true]> bits)) d)).
Proof.
  intros Hbits Hinfos H5 H6 H7 Hnew Hpos Hover.
  destruct (store_loop_overflow m fo fl 0
              (set_fragments_received (Some (<[fi := true]> bits)) d) slots)
    as (e & slots' & Hlen & Hloop); [done|done|lia|].
  exists e, slots'. split; [done|].
  unfold store_fragment, attr. mstep.
  rewrite (byte_at_field _ _ _ _ H5). simpl. rewrite Hbits. simpl.
  rewrite Hnew. simpl. rewrite Hbits. simpl. rewrite Hnew. simpl.
  rewrite (byte_at_field _ _ _ _ H6). simpl.
  rewrite (byte_at_field _ _ _ _ H7). simpl.
  rewrite Hloop. reflexivity.
Qed.

Lemma fresh_context_collecting st n h a k log :
  collecting (fresh_context (C:=C) st n h a k log).
Proof.
  exists st, n, h, a, k, (replicate k false), (replicate n None).
  simpl. by rewrite !length_replicate.
Qed.

(** A fragment in range, stored into a collecting decoder. *)
Lemma store_fragment_ready (d : t C) st m fi fo recs :
  collecting d →
  field m 5 = Some fi → field m 6 = Some (length recs) → field m 7 = Some fo →
  (∀ k, num_fragments d = Some k → fi < k) →
  (∀ n, num_stations d = Some n → fo + length recs ≤ n) →
  carries m recs →
  ∃ d', store_fragment st m d = (Return tt, d') ∧ ready d'.
Proof.
  intros Hcoll H5 H6 H7 Hfi Hrange Hrecs.
  pose proof Hcoll as (s0 & n & h & a & k & bits & slots &
                       Hs & Hn & Hh & Ha & Hk & Hbits & Hblen & Hinfos & Hilen).
  specialize (Hfi k Hk). specialize (Hrange n Hn).
  destruct (lookup_lt_is_Some_2 bits fi) as [seen Hseen]; [lia|].
  destruct seen.
  - exists d. split; [by eapply store_fragment_seen|]. by right.
  - eexists. split.
    + eapply store_fragment_new; try done. intros _. lia.
    + simpl. destruct (all_infos _); [by left|]. right.
      exists s0, n, h, a, k, (<[fi := true]> bits),
             (list_inserts fo (Some <$> recs) slots).
      simpl. by rewrite length_insert, length_inserts.
Qed.


(** *** What the sender's payload looks like to the decoder *)

Lemma bytes_of_inv {S} (xs : list Z) bs (s s' : S) :
  bytes_of xs s = (Return bs, s') →
  s' = s ∧ Forall2 (λ x b, x = Z.of_nat (Byte.to_nat b)) xs bs.
Proof.
  unfold bytes_of, lift_opt.
  destruct (mapM _ xs) as [bs'|] eqn:Hmap; [|done].
  intros [= -> ->]. split; [done|].
  apply mapM_Some_1 in Hmap. eapply Forall2_impl; [exact Hmap|].
  intros x b Hx. simpl in Hx. case_decide as Hpos; [|done].
  apply Byte.to_of_nat in Hx. lia.
Qed.

Lemma py_getitem_nat {S A} (l : list A) (i : nat) (s : S) :
  py_getitem l (Z.of_nat i) s = lift_opt IndexError_range (l !! i) s.
Proof.
  unfold py_getitem. case_decide as Hin.
  - by rewrite Nat2Z.id.
  - case_decide as Hneg; [lia|].
    rewrite lookup_ge_None_2 by lia. done.
Qed.

(** Lines 236-238 for one record that is in the list. *)
Lemma append_record_inv (L : list (StationInfo.t C)) fo data j m :
  MeshProtocol.append_record (S:=unit) L (Z.of_nat fo) data (Z.of_nat j) tt
  = (Return m, tt) →
  ∃ r rest, L !! (fo + j) = Some r ∧ m = data ++ rest ∧
            length rest = StationInfo.sizeof ∧
            ∀ more, StationInfo.deserialize (rest ++ more) tt = (Return r, tt).
Proof.
  unfold MeshProtocol.append_record. rewrite <- Nat2Z.inj_add. mstep.
  rewrite py_getitem_nat. unfold lift_opt.
  destruct (L !! (fo + j)) as [r|] eqn:Hr; mstep; [|done].
  destruct (bytes_of _ tt) as [[tail|e] []] eqn:Htail; mstep; [|done].
  intros [= <-].
  apply bytes_of_inv in Htail as [_ Htail].
  apply Forall2_cons_inv_l in Htail as (b & tail1 & Hb & Htail & ->).
  apply Forall2_cons_inv_l in Htail as (pad & tail2 & _ & Htail & ->).
  apply Forall2_nil_inv_l in Htail as ->.
  apply Nat2Z.inj in Hb.
  exists r, (ci_serialize (StationInfo.connection_info r) ++ [b; pad]).
  split; [done|]. split; [done|]. split.
  - rewrite length_app, ci_serialize_length. reflexivity.
  - intros more. rewrite <- app_assoc.
    pose proof (deserialize_prefix (S:=unit) (StationInfo.connection_info r)
                  b pad more tt) as Hde.
    simpl in Hde. simpl. rewrite Hde, <- Hb. by destruct r.
Qed.

(** The loop at lines 235-238: the payload grows by the records
    [L[fo + j0]], [L[fo + j0 + 1]], ..., each readable at its offset. *)
Lemma append_records_inv (L : list (StationInfo.t C)) fo : ∀ cnt j0 data m,
  fold_for (Z.of_nat <$> seq j0 cnt) data
    (MeshProtocol.append_record (S:=unit) L (Z.of_nat fo)) tt = (Return m, tt) →
  ∃ recs body, length recs = cnt ∧ m = data ++ body ∧
    ∀ j r, recs !! j = Some r →
      L !! (fo + j0 + j) = Some r ∧
      StationInfo.deserialize (drop (length data + j * StationInfo.sizeof) m) tt
      = (Return r, tt).
Proof.
  induction cnt as [|cnt IH]; intros j0 data m.
  - simpl. unfold ret. intros [= <-]. exists [], [].
    split; [done|]. split; [by rewrite app_nil_r|]. by intros j r.
  - simpl. unfold bind.
    destruct (MeshProtocol.append_record L (Z.of_nat fo) data (Z.of_nat j0) tt)
      as [[data1|e] []] eqn:Hone; [|done].
    apply append_record_inv in Hone as (r & rest & Hr & -> & Hrest & Hde).
    intros Hfold. apply IH in Hfold as (recs & body & Hlen & -> & Hrecs).
    exists (r :: recs), (rest ++ body).
    split; [by rewrite <- Hlen|]. split; [by rewrite app_assoc|].
    intros [|j] r' Hj; simpl in Hj.
    + injection Hj as <-. split; [by rewrite Nat.add_0_r|].
      rewrite Nat.mul_0_l, Nat.add_0_r, <- app_assoc, drop_app_length. apply Hde.
    + destruct (Hrecs j r' Hj) as [HL Hdej]. split.
      * by replace (fo + j0 + S j) with (fo + S j0 + j) by lia.
      * rewrite <- Hdej. f_equal. f_equal.
        rewrite length_app, Hrest. lia.
Qed.

(** The payload of a fragment carries the header the decoder reads and,
    after it, the records of the fragment's range. *)
Lemma is_fragment_of_inv (L : list (StationInfo.t C)) h a k f m :
  is_fragment_of L h a k f m →
  field m 1 = Some (length L) ∧ field m 2 = Some h ∧
  field m 3 = Some a ∧ field m 4 = Some k ∧
  field m 5 = Some (fragment_index f) ∧
  field m 6 = Some (fragment_length f) ∧
  field m 7 = Some (fragment_offs f) ∧
  ∃ recs, length recs = fragment_length f ∧ carries m recs ∧
          ∀ j r, recs !! j = Some r → L !! (fragment_offs f + j) = Some r.
Proof.
  unfold is_fragment_of, MeshProtocol.build_fragment. unfold bind at 1.
  destruct (bytes_of _ tt) as [[hdr|e] []] eqn:Hhdr; [|done].
  apply bytes_of_inv in Hhdr as [_ Hhdr].
  repeat (apply Forall2_cons_inv_l in Hhdr as (? & ? & ? & Hhdr & ->)).
  apply Forall2_nil_inv_l in Hhdr as ->.
  repeat match goal with Hb : Z.of_nat _ = Z.of_nat _ |- _ =>
    apply Nat2Z.inj in Hb end.
  unfold py_range. rewrite Nat2Z.id. intros Hfold.
  apply (append_records_inv L (fragment_offs f)) in Hfold
    as (recs & body & Hlen & -> & Hrecs).
  unfold field. simpl.
  repeat (split; [congruence|]).
  exists recs. split; [done|]. split.
  - intros j r Hj. by apply (Hrecs j r Hj).
  - intros j r Hj. destruct (Hrecs j r Hj) as [HL _].
    by rewrite Nat.add_0_r in HL.
Qed.

(** *** One attempt, fragment by fragment *)

Lemma complete_covers n fs : complete n fs = true ↔ covers n fs.
Proof.
  unfold complete, covers. rewrite forallb_forall. split.
  - intros Hall i Hi. apply Hall. apply in_seq. lia.
  - intros Hall i Hi. apply in_seq in Hi. apply Hall. lia.
Qed.

Lemma covered_cons f fs i : covered (f :: fs) i = in_range f i || covered fs i.
Proof. reflexivity. Qed.

Lemma covered_elem_of fs i :
  covered fs i = true ↔ ∃ f, f ∈ fs ∧ in_range f i = true.
Proof.
  unfold covered. rewrite existsb_exists. split.
  - intros (f & Hf & Hr). exists f. by rewrite list_elem_of_In.
  - intros (f & Hf & Hr). exists f. by rewrite <- list_elem_of_In.
Qed.

Lemma covers_subseteq n fs fs' : fs ⊆ fs' → covers n fs → covers n fs'.
Proof.
  intros Hsub Hcov i Hi. apply covered_elem_of.
  destruct (proj1 (covered_elem_of fs i) (Hcov i Hi)) as (f & Hf & Hr).
  exists f. split; [by apply Hsub|done].
Qed.

Lemma in_range_spec f i :
  in_range f i = true ↔ fragment_offs f ≤ i < fragment_offs f + fragment_length f.
Proof.
  unfold in_range. rewrite andb_true_iff, Nat.leb_le, Nat.ltb_lt. done.
Qed.

Lemma bits_of_nil k : bits_of k [] = replicate k false.
Proof.
  apply list_eq. intros j. unfold bits_of. rewrite list_lookup_fmap.
  destruct (decide (j < k)) as [Hj|Hj].
  - by rewrite lookup_seq_lt, lookup_replicate_2 by done.
  - rewrite lookup_seq_ge by lia.
    symmetry. apply lookup_replicate_None. lia.
Qed.

Lemma slots_of_nil (L : list (StationInfo.t C)) :
  slots_of L [] = replicate (length L) None.
Proof.
  apply list_eq. intros i. unfold slots_of. rewrite list_lookup_imap.
  destruct (L !! i) as [r|] eqn:Hr; simpl.
  - rewrite lookup_replicate_2; [done|]. by eapply lookup_lt_Some.
  - symmetry. apply lookup_replicate_None. by apply lookup_ge_None.
Qed.

Lemma bits_of_lookup k cur j :
  j < k → bits_of k cur !! j = Some (bool_decide (j ∈ fragment_index <$> cur)).
Proof.
  intros Hj. unfold bits_of. by rewrite list_lookup_fmap, lookup_seq_lt.
Qed.

Lemma bits_of_cons k f cur :
  <[fragment_index f := true]> (bits_of k cur) = bits_of k (f :: cur).
Proof.
  apply list_eq. intros j.
  destruct (decide (j < k)) as [Hj|Hj].
  2:{ rewrite !lookup_ge_None_2; [done| |].
      - unfold bits_of. rewrite length_fmap, length_seq. lia.
      - rewrite length_insert. unfold bits_of. rewrite length_fmap, length_seq. lia. }
  rewrite bits_of_lookup by done.
  destruct (decide (fragment_index f = j)) as [<-|Hne].
  - rewrite list_lookup_insert_eq.
    + rewrite bool_decide_eq_true_2; [done|]. rewrite fmap_cons. apply elem_of_cons. by left.
    + unfold bits_of. by rewrite length_fmap, length_seq.
  - rewrite list_lookup_insert_ne by done. rewrite bits_of_lookup by done.
    f_equal. apply bool_decide_ext. rewrite fmap_cons, elem_of_cons.
    split; [by right|]. intros [Heq|Hin]; [congruence|done].
Qed.

Lemma slots_of_cons (L : list (StationInfo.t C)) f cur recs :
  length recs = fragment_length f →
  (∀ j r, recs !! j = Some r → L !! (fragment_offs f + j) = Some r) →
  list_inserts (fragment_offs f) (Some <$> recs) (slots_of L cur)
  = slots_of L (f :: cur).
Proof.
  intros Hlen Hrecs. apply list_eq. intros i. unfold slots_of.
  rewrite list_lookup_imap, covered_cons.
  destruct (in_range f i) eqn:Hin.
  - apply in_range_spec in Hin. simpl.
    destruct (lookup_lt_is_Some_2 recs (i - fragment_offs f)) as [r Hr]; [lia|].
    pose proof (Hrecs _ _ Hr) as HL.
    replace (fragment_offs f + (i - fragment_offs f)) with i in HL by lia.
    rewrite list_lookup_inserts.
    + by rewrite list_lookup_fmap, Hr, HL.
    + rewrite length_fmap. lia.
    + rewrite length_imap. by eapply lookup_lt_Some.
  - simpl.
    assert (i < fragment_offs f ∨ fragment_offs f + fragment_length f ≤ i) as [Hlt|Hge].
    { destruct (decide (i < fragment_offs f)); [by left|right].
      destruct (decide (fragment_offs f + fragment_length f ≤ i)); [done|].
      assert (in_range f i = true) by (apply in_range_spec; lia). congruence. }
    + rewrite list_lookup_inserts_lt by done. by rewrite list_lookup_imap.
    + rewrite list_lookup_inserts_ge by (rewrite length_fmap; lia).
      by rewrite list_lookup_imap.
Qed.

Lemma all_infos_slots_of (L : list (StationInfo.t C)) fs :
  all_infos (slots_of L fs) = complete (length L) fs.
Proof.
  apply eq_true_iff_eq. unfold all_infos, complete.
  rewrite !forallb_forall. split.
  - intros Hall i Hi. apply in_seq in Hi.
    destruct (lookup_lt_is_Some_2 L i) as [r Hr]; [lia|].
    destruct (covered fs i) eqn:Hc; [done|].
    assert (In None (slots_of L fs)) as Hin.
    { apply list_elem_of_In, list_elem_of_lookup. exists i.
      unfold slots_of. rewrite list_lookup_imap, Hr. simpl. by rewrite Hc. }
    specialize (Hall None Hin). apply bool_decide_eq_true in Hall. by destruct Hall.
  - intros Hall slot Hslot.
    apply list_elem_of_In, list_elem_of_lookup in Hslot as [i Hi].
    unfold slots_of in Hi. rewrite list_lookup_imap in Hi.
    destruct (L !! i) as [r|] eqn:Hr; [|done]. simpl in Hi.
    rewrite Hall in Hi.
    + injection Hi as <-. by apply bool_decide_eq_true.
    + apply in_seq. apply lookup_lt_Some in Hr. lia.
Qed.

Lemma slots_of_complete (L : list (StationInfo.t C)) fs :
  complete (length L) fs = true → slots_of L fs = Some <$> L.
Proof.
  intros Hall. apply list_eq. intros i. unfold slots_of.
  rewrite list_lookup_imap, list_lookup_fmap.
  destruct (L !! i) as [r|] eqn:Hr; [|done]. simpl.
  apply complete_covers in Hall. rewrite Hall; [done|]. by eapply lookup_lt_Some.
Qed.

(** A decoder that is idle takes the next fragment as one that tracks
    an attempt with nothing stored yet. *)
Lemma parse_idle_as_tracking (d : t C) st L h a k f m :
  station d = None → is_fragment_of L h a k f m →
  parse st m d = parse st m (tracking st L h a k [] (finished d)).
Proof.
  intros Hs Hfrag.
  destruct (is_fragment_of_inv L h a k f m Hfrag) as (H1 & H2 & H3 & H4 & _).
  assert (fresh_context st (length L) h a k (finished d)
          = tracking st L h a k [] (finished d)) as Hfresh.
  { unfold fresh_context, tracking. by rewrite bits_of_nil, slots_of_nil. }
  rewrite (parse_after_select d (fresh_context st (length L) h a k (finished d))).
  2:{ rewrite select_context_idle by done. by apply update_info_header. }
  rewrite (parse_after_select (tracking st L h a k [] (finished d))
             (tracking st L h a k [] (finished d))).
  2:{ rewrite (select_context_collecting _ st m st (length L) h a k (length L) h a k)
        by done.
      by rewrite bool_decide_eq_true_2. }
  by rewrite Hfresh.
Qed.

(** One fragment with a new index, taken by a decoder that tracks the
    attempt: either the list is now complete and handed over, or the
    fragment joins the stored ones. *)
Lemma parse_tracking_step st (L : list (StationInfo.t C)) h a k cur log f m :
  is_fragment_of L h a k f m → fragment_index f < k →
  fragment_index f ∉ fragment_index <$> cur →
  parse st m (tracking st L h a k cur log)
  = (Return tt,
     if complete (length L) (f :: cur)
     then set_station None
            (tracking st L h a k (f :: cur) (log ++ [completion st h a L]))
     else tracking st L h a k (f :: cur) log).
Proof.
  intros Hfrag Hfi Hnew.
  destruct (is_fragment_of_inv L h a k f m Hfrag)
    as (H1 & H2 & H3 & H4 & H5 & H6 & H7 & recs & Hlen & Hcarries & Hrecs).
  rewrite (parse_after_select _ (tracking st L h a k cur log)).
  2:{ rewrite (select_context_collecting _ st m st (length L) h a k (length L) h a k)
        by done.
      by rewrite bool_decide_eq_true_2. }
  rewrite (store_fragment_new _ st m (bits_of k cur) (slots_of L cur) h a
             (fragment_index f) (fragment_offs f) recs); try done.
  - simpl. rewrite bits_of_cons, (slots_of_cons L f cur recs) by done.
    rewrite all_infos_slots_of.
    destruct (complete (length L) (f :: cur)) eqn:Hall; [|done].
    unfold completion. by rewrite <- (slots_of_complete L (f :: cur) Hall).
  - by rewrite Hlen.
  - rewrite bits_of_lookup by done. by rewrite bool_decide_eq_false_2.
  - intros Hne. unfold slots_of. rewrite length_imap.
    destruct recs as [|r0 recs'] eqn:Hrs; [done|].
    assert (is_Some ((r0 :: recs') !! (length recs'))) as [r Hr].
    { apply lookup_lt_is_Some_2. simpl. lia. }
    apply Hrecs in Hr. apply lookup_lt_Some in Hr. simpl. lia.
Qed.

(** *** A whole fragmentation, in any order *)

Lemma parse_follows st (L : list (StationInfo.t C)) h a k d s f m :
  follows st L h a k d s →
  is_fragment_of L h a k f m → fragment_index f < k →
  fragment_index f ∉ fragment_index <$> s.1 →
  ∃ d', parse st m d = (Return tt, d') ∧
        follows st L h a k d' (track (length L) s f).
Proof.
  intros [Hlog Hstate] Hfrag Hfi Hnew.
  assert (parse st m d = parse st m (tracking st L h a k s.1 (finished d))) as ->.
  { destruct Hstate as [[Hs ->]|Hd].
    - by eapply parse_idle_as_tracking.
    - by rewrite Hd at 1. }
  rewrite (parse_tracking_step st L h a k s.1 (finished d) f m) by done.
  eexists. split; [done|]. unfold track.
  destruct (complete (length L) (f :: s.1)); simpl.
  - split; [|by left]. simpl. rewrite Hlog. by rewrite <- replicate_S_end.
  - split; [done|by right].
Qed.

Lemma feed_follows st (L : list (StationInfo.t C)) h a k :
  ∀ (frs : list (fragment * list byte)) d s,
  follows st L h a k d s →
  Forall (λ fm, is_fragment_of L h a k fm.1 fm.2 ∧ fragment_index fm.1 < k) frs →
  NoDup (fragment_index <$> (frs.*1 ++ s.1)) →
  ∃ d', feed st frs.*2 d = (Return tt, d') ∧
        follows st L h a k d' (foldl (track (length L)) s frs.*1).
Proof.
  induction frs as [|[f m] frs IH]; intros d s Hfol Hall Hdup.
  - exists d. done.
  - apply Forall_cons in Hall as [[Hfrag Hfi] Hall].
    simpl in Hdup. apply NoDup_cons in Hdup as [Hnew Hdup].
    rewrite fmap_app in Hnew, Hdup.
    apply not_elem_of_app in Hnew as [Hnew1 Hnew2].
    destruct (parse_follows st L h a k d s f m Hfol Hfrag Hfi Hnew2)
      as (d1 & Hparse & Hfol1).
    destruct (IH d1 (track (length L) s f) Hfol1 Hall) as (d' & Hfeed & Hfol').
    + unfold track. destruct (complete (length L) (f :: s.1)); simpl.
      * rewrite app_nil_r. by apply NoDup_app in Hdup as [? _].
      * rewrite fmap_app, fmap_cons.
        apply NoDup_app in Hdup as (Hd1 & Hdisj & Hd2).
        apply NoDup_app. split; [done|]. split.
        -- intros x Hx [->|Hx2]%elem_of_cons; [done|]. by eapply Hdisj.
        -- by apply NoDup_cons.
    + exists d'. split; [|done].
      unfold feed in *. simpl. unfold bind. by rewrite Hparse.
Qed.

Lemma track_completions_sound n : ∀ fs s seen,
  s.1 ⊆ seen → (0 < s.2 → covers n seen) →
  0 < (foldl (track n) s fs).2 → covers n (seen ++ fs).
Proof.
  induction fs as [|f fs IH]; intros s seen Hsub Hcov Hpos.
  - rewrite app_nil_r. by apply Hcov.
  - rewrite cons_middle, app_assoc. apply (IH (track n s f)); [| |done].
    + unfold track. destruct (complete n (f :: s.1)); simpl.
      * apply list_subseteq_nil.
      * intros x [->|Hx]%elem_of_cons; apply elem_of_app; [right|left].
        -- by apply list_elem_of_singleton.
        -- by apply Hsub.
    + unfold track. destruct (complete n (f :: s.1)) eqn:Hall; simpl.
      * intros _. apply complete_covers in Hall.
        eapply covers_subseteq; [|exact Hall].
        intros x [->|Hx]%elem_of_cons; apply elem_of_app; [right|left].
        -- by apply list_elem_of_singleton.
        -- by apply Hsub.
      * intros Hs. eapply covers_subseteq; [|by apply Hcov].
        intros x Hx. apply elem_of_app. by left.
Qed.

Lemma track_no_completion n cur : ∀ fs,
  (foldl (track n) (cur, 0) fs).2 = 0 →
  (foldl (track n) (cur, 0) fs).1 = reverse fs ++ cur ∧
  (fs ≠ [] → complete n (reverse fs ++ cur) = false).
Proof.
  induction fs as [|f fs IH] using rev_ind; intros Hzero; [done|].
  rewrite foldl_app in Hzero |- *. simpl in Hzero |- *.
  set (s0 := foldl (track n) (cur, 0) fs) in *.
  unfold track in Hzero |- *.
  destruct (complete n (f :: s0.1)) eqn:Hall; simpl in Hzero |- *; [done|].
  destruct (IH Hzero) as [Hcur _]. rewrite reverse_snoc. simpl.
  rewrite Hcur in Hall |- *. done.
Qed.

Lemma track_completions_complete n fs :
  fs ≠ [] → covers n fs → 0 < (foldl (track n) ([], 0) fs).2.
Proof.
  intros Hne Hcov.
  destruct (decide (0 < (foldl (track n) ([], 0) fs).2)) as [|Hzero]; [done|].
  destruct (track_no_completion n [] fs) as [_ Hnot]; [lia|].
  specialize (Hnot Hne).
  assert (complete n (reverse fs ++ []) = true) as Hyes.
  { apply complete_covers. eapply covers_subseteq; [|exact Hcov].
    intros x Hx. rewrite app_nil_r. by apply elem_of_reverse. }
  congruence.
Qed.

(** Any fragmentation, fed to a new decoder in the order given: every
    fragment is taken without an exception, every completion hands
    over the list [L], and there has been a completion exactly when
    the ranges fed so far cover the list. *)
Lemma feed_fragmentation st (L : list (StationInfo.t C)) h a k frs :
  fragmentation L h a k frs → frs ≠ [] →
  ∃ d e, feed st frs.*2 init = (Return tt, d) ∧
         finished d = replicate e (completion st h a L) ∧
         (0 < e ↔ covers (length L) frs.*1).
Proof.
  intros [Hall Hdup] Hne.
  destruct (feed_follows st L h a k frs init ([], 0)) as (d & Hfeed & Hlog & _).
  - split; [done|by left].
  - done.
  - simpl. by rewrite app_nil_r.
  - exists d, (foldl (track (length L)) ([], 0) frs.*1).2.
    split; [done|]. split; [done|]. split.
    + intros Hpos.
      pose proof (track_completions_sound (length L) frs.*1 ([], 0) []) as Hsound.
      simpl in Hsound. apply Hsound; [by intros x Hx|lia|done].
    + apply track_completions_complete. by destruct frs.
Qed.

Lemma fragmentation_Permutation (L : list (StationInfo.t C)) h a k frs frs' :
  frs ≡ₚ frs' → fragmentation L h a k frs → fragmentation L h a k frs'.
Proof.
  intros Hperm [Hall Hdup]. split.
  - by rewrite <- Hperm.
  - by rewrite <- Hperm.
Qed.

Lemma fragmentation_prefix (L : list (StationInfo.t C)) h a k p rest :
  fragmentation L h a k (p ++ rest) → fragmentation L h a k p.
Proof.
  intros [Hall Hdup]. split.
  - by apply Forall_app in Hall as [? _].
  - rewrite !fmap_app in Hdup. by apply NoDup_app in Hdup as [? _].
Qed.

(** C3: take a fragmentation of the station list [L] (every message the
    payload of its fragment under the one header, fragment indices
    distinct and below the announced count) whose ranges cover
    [0, num_stations).  Fed to a new decoder in the given order or in
    any other, every fragment is taken without an exception and the
    last completed list is the same, namely [L]; and after any
    non-empty part of the fragments has been fed, a completion has been
    signalled exactly when the ranges fed so far cover
    [0, num_stations). *)
Theorem reassembly_any_order st (L : list (StationInfo.t C)) h a k
    (frs frs' : list (fragment * list byte)) :
  fragmentation L h a k frs → frs ≠ [] → covers (length L) frs.*1 →
  frs ≡ₚ frs' →
  (∃ d d', feed st frs.*2 init = (Return tt, d) ∧
           feed st frs'.*2 init = (Return tt, d') ∧
           last (finished d') = last (finished d) ∧
           last (finished d') = Some (completion st h a L)) ∧
  (∀ p rest, frs' = p ++ rest → p ≠ [] →
     ∃ dp e, feed st p.*2 init = (Return tt, dp) ∧
             finished dp = replicate e (completion st h a L) ∧
             (0 < e ↔ covers (length L) p.*1)).
Proof.
  intros Hfrag Hne Hcov Hperm.
  pose proof (fragmentation_Permutation L h a k frs frs' Hperm Hfrag) as Hfrag'.
  assert (∀ e, 0 < e →
            last (replicate e (completion st h a L)) = Some (completion st h a L))
    as Hlast.
  { intros [|e] He; [lia|]. by rewrite replicate_S_end, last_snoc. }
  split.
  - destruct (feed_fragmentation st L h a k frs Hfrag Hne) as (d & e & Hd & Hlog & He).
    destruct (feed_fragmentation st L h a k frs' Hfrag') as (d' & e' & Hd' & Hlog' & He').
    { intros ->. apply Permutation_nil_r in Hperm. done. }
    exists d, d'. split; [done|]. split; [done|].
    assert (covers (length L) frs'.*1) as Hcov'.
    { eapply covers_subseteq; [|exact Hcov]. intros x Hx. by rewrite <- Hperm. }
    rewrite Hlog, Hlog', !Hlast; [done|by apply He|by apply He'].
  - intros p rest -> Hp.
    apply (feed_fragmentation st L h a k p); [|done].
    by eapply fragmentation_prefix.
Qed.
End Decoder_facts.

(** *** Concrete runs, with the one-byte descriptor *)

Lemma incompatible_fragment_restarts_witness :
  let d := fresh_context (C:=byte) 1 2 0 1 2 [] in
  let m := [Byte.x02; Byte.x01; Byte.x00; Byte.x01; Byte.x01; Byte.x00; Byte.x01;
            Byte.x00; Byte.x2a; Byte.x00; Byte.x00] in
  JoinResponseDecoder.parse 1 m d
  = JoinResponseDecoder.parse 1 m (created (JoinResponseDecoder.finished d)) ∧
  JoinResponseDecoder.parse 1 m d
  = JoinResponseDecoder.store_fragment 1 m
      (fresh_context 1 1 0 1 1 (JoinResponseDecoder.finished d)) ∧
  header_attrs (JoinResponseDecoder.parse 1 m d).2 = (Some 1, Some 0, Some 1, Some 1).
Proof.
  intros d m.
  apply (incompatible_fragment_restarts d 1 m 1 2 0 1 2 1 0 1 1
           eq_refl eq_refl eq_refl eq_refl eq_refl eq_refl eq_refl eq_refl eq_refl).
  lia.
Defined.

(** The example of the spec: five stations, two records per packet. *)
Lemma reassembly_any_order_witness :
  let L := [StationInfo.mk Byte.x0a 0; StationInfo.mk Byte.x0b 1;
            StationInfo.mk Byte.x0c 2; StationInfo.mk Byte.x0d 3;
            StationInfo.mk Byte.x0e 4] in
  let m0 := [Byte.x02; Byte.x05; Byte.x00; Byte.x04; Byte.x03; Byte.x00; Byte.x02;
             Byte.x00; Byte.x0a; Byte.x00; Byte.x00; Byte.x0b; Byte.x01; Byte.x00] in
  let m1 := [Byte.x02; Byte.x05; Byte.x00; Byte.x04; Byte.x03; Byte.x01; Byte.x02;
             Byte.x02; Byte.x0c; Byte.x02; Byte.x00; Byte.x0d; Byte.x03; Byte.x00] in
  let m2 := [Byte.x02; Byte.x05; Byte.x00; Byte.x04; Byte.x03; Byte.x02; Byte.x01;
             Byte.x04; Byte.x0e; Byte.x04; Byte.x00] in
  ∃ d d', JoinResponseDecoder.feed 7 [m0; m1; m2] JoinResponseDecoder.init
          = (Return tt, d) ∧
          JoinResponseDecoder.feed 7 [m2; m0; m1] JoinResponseDecoder.init
          = (Return tt, d') ∧
          last (JoinResponseDecoder.finished d') = last (JoinResponseDecoder.finished d) ∧
          last (JoinResponseDecoder.finished d') = Some (completion 7 0 4 L).
Proof.
  intros L m0 m1 m2.
  refine (proj1 (reassembly_any_order 7 L 0 4 3
                   [(mk_fragment 0 0 2, m0); (mk_fragment 1 2 2, m1);
                    (mk_fragment 2 4 1, m2)]
                   [(mk_fragment 2 4 1, m2); (mk_fragment 0 0 2, m0);
                    (mk_fragment 1 2 2, m1)] _ _ _ _)).
  - split.
    + repeat (apply Forall_cons; split;
              [split; [vm_compute; reflexivity|simpl; lia]|]).
      by apply Forall_nil.
    + apply (bool_decide_unpack _). vm_compute. exact I.
  - discriminate.
  - intros [|[|[|[|[|i]]]]] Hi; try reflexivity. simpl in Hi. lia.
  - eapply perm_trans; [apply perm_skip, perm_swap|apply perm_swap].
Defined.

(** ** MeshProtocol *)

Section Protocol_facts.
Context {C : Type} `{ConnectionInfoLaws C}.

Lemma byte_of_to_nat n : n < 256 → Byte.to_nat (byte_of n) = n.
Proof.
  intros Hn. unfold byte_of.
  destruct (byte_of_nat_lt n Hn) as (b & -> & Hb). done.
Qed.

Lemma bytes_of_ok {S} (xs : list nat) (s : S) :
  Forall (λ x, x < 256) xs →
  bytes_of (Z.of_nat <$> xs) s = (Return (byte_of <$> xs), s).
Proof.
  intros Hxs. unfold bytes_of.
  assert (mapM (λ x : Z, if decide (0 ≤ x)%Z then Byte.of_nat (Z.to_nat x) else None)
            (Z.of_nat <$> xs) = Some (byte_of <$> xs)) as ->; [|done].
  apply mapM_Some_2. apply Forall2_fmap. apply Forall_Forall2_diag.
  eapply Forall_impl; [exact Hxs|]. intros x Hx. simpl.
  case_decide; [|lia]. rewrite Nat2Z.id. unfold byte_of.
  destruct (byte_of_nat_lt x Hx) as (b & -> & _). done.
Qed.

(** [serialize] gives the wire form of a record with a byte index. *)
Lemma serialize_record_bytes {S} (r : StationInfo.t C) (s : S) :
  StationInfo.index r < 256 →
  StationInfo.serialize r s = (Return (record_bytes r), s).
Proof.
  intros Hr. unfold StationInfo.serialize, bind.
  change [Z.of_nat (StationInfo.index r); 0%Z]
    with (Z.of_nat <$> [StationInfo.index r; 0]).
  rewrite (bytes_of_ok [StationInfo.index r; 0] s).
  - done.
  - repeat (apply Forall_cons; split; [lia|]). by apply Forall_nil.
Qed.

Lemma append_record_ok {S} (L : list (StationInfo.t C)) off data j r (s : S) :
  L !! (off + j) = Some r → StationInfo.index r < 256 →
  MeshProtocol.append_record L (Z.of_nat off) data (Z.of_nat j) s
  = (Return (data ++ record_bytes r), s).
Proof.
  intros Hr Hidx. unfold MeshProtocol.append_record, bind.
  rewrite <- Nat2Z.inj_add, py_getitem_nat, Hr. simpl.
  change [Z.of_nat (StationInfo.index r); 0%Z]
    with (Z.of_nat <$> [StationInfo.index r; 0]).
  rewrite (bytes_of_ok [StationInfo.index r; 0] s).
  - done.
  - repeat (apply Forall_cons; split; [lia|]). by apply Forall_nil.
Qed.

(** The loop at lines 235-238 over records that are all in the list. *)
Lemma append_records_ok {S} (L : list (StationInfo.t C)) off (s : S) :
  Forall (λ r, StationInfo.index r < 256) L →
  ∀ cnt j0 data, off + j0 + cnt ≤ length L →
  fold_for (Z.of_nat <$> seq j0 cnt) data
    (MeshProtocol.append_record L (Z.of_nat off)) s
  = (Return (data ++ concat (record_bytes <$> take cnt (drop (off + j0) L))), s).
Proof.
  intros Hidx. induction cnt as [|cnt IH]; intros j0 data Hlen.
  - simpl. unfold ret. by rewrite app_nil_r.
  - simpl. unfold bind.
    destruct (lookup_lt_is_Some_2 L (off + j0)) as [r Hr]; [lia|].
    rewrite (append_record_ok L off data j0 r); [|done|].
    2:{ exact (Forall_lookup_1 (λ r, StationInfo.index r < 256) L (off + j0) r
                 Hidx Hr). }
    rewrite IH by lia.
    rewrite (drop_S L r (off + j0)) by done. simpl.
    rewrite <- app_assoc.
    by replace (off + Datatypes.S j0) with (Datatypes.S (off + j0)) by lia.
Qed.

Lemma build_fragment_ok {S} (L : list (StationInfo.t C)) h a k i len off (s : S) :
  length L < 256 → h < 256 → a < 256 → k < 256 → i < 256 →
  off + len ≤ length L →
  Forall (λ r, StationInfo.index r < 256) L →
  MeshProtocol.build_fragment L (Z.of_nat h) (Z.of_nat a) (Z.of_nat k)
    (Z.of_nat i) (Z.of_nat len) (Z.of_nat off) s
  = (Return (fragment_payload L h a k i len off), s).
Proof.
  intros HN Hh Ha Hk Hi Hrange Hidx. unfold MeshProtocol.build_fragment, bind.
  change [MeshProtocol.MESSAGE_JOIN_RESPONSE; Z.of_nat (length L); Z.of_nat h;
          Z.of_nat a; Z.of_nat k; Z.of_nat i; Z.of_nat len; Z.of_nat off]
    with (Z.of_nat <$> [2; length L; h; a; k; i; len; off]).
  rewrite (bytes_of_ok [2; length L; h; a; k; i; len; off] s).
  2:{ repeat (apply Forall_cons; split; [lia|]). by apply Forall_nil. }
  unfold py_range. rewrite Nat2Z.id.
  rewrite (append_records_ok L off s Hidx len 0) by lia.
  by rewrite Nat.add_0_r.
Qed.

(** The number of fragments, [(n + per_packet - 1) // per_packet], is
    the ceiling of [n / per_packet]. *)
Lemma fragment_count_ceiling (n per_packet : nat) :
  0 < n → 0 < per_packet →
  let cnt := (n + per_packet - 1) / per_packet in
  0 < cnt ∧ cnt ≤ n ∧ (cnt - 1) * per_packet < n ∧ n ≤ cnt * per_packet.
Proof.
  intros Hn Hp cnt.
  pose proof (Nat.div_mod_eq (n + per_packet - 1) per_packet) as Hdiv.
  pose proof (Nat.mod_upper_bound (n + per_packet - 1) per_packet) as Hmod.
  fold cnt in Hdiv.
  destruct cnt as [|c]; [lia|].
  rewrite Nat.sub_succ, Nat.sub_0_r. nia.
Qed.

(** Fragment [i] starts inside the list. *)
Lemma fragment_offset_lt (n per_packet cnt i : nat) :
  (cnt - 1) * per_packet < n → i < cnt → i * per_packet < n.
Proof. intros Hlast Hi. nia. Qed.

Lemma send_fragment_ok (p : MeshProtocol.t) st a h (L : list (StationInfo.t C))
    per_packet cnt i :
  length L < 256 → h < 256 → a < 256 → cnt < 256 → i < cnt →
  i * per_packet < length L →
  Forall (λ r, StationInfo.index r < 256) L →
  MeshProtocol.send_fragment st (Z.of_nat a) (Z.of_nat h) L
    (Z.of_nat per_packet) (Z.of_nat cnt) (Z.of_nat i) p
  = (Return tt,
     MeshProtocol.mk (MeshProtocol.size_limit p)
       (MeshProtocol.outbox p ++
        [MeshProtocol.mk_sent st
           (fragment_payload L h a cnt i
              (min (length L - i * per_packet) per_packet) (i * per_packet))
           0 true])
       (MeshProtocol.sliding_windows p)).
Proof.
  intros HN Hh Ha Hcnt Hi Hoff Hidx. unfold MeshProtocol.send_fragment.
  rewrite <- Nat2Z.inj_mul, <- Nat2Z.inj_sub, <- Nat2Z.inj_min by lia.
  unfold bind.
  rewrite (build_fragment_ok L h a cnt i
             (min (length L - i * per_packet) per_packet) (i * per_packet) p);
    [done|lia..|done].
Qed.

(** The loop over the fragments, from fragment [i0] on. *)
Lemma send_fragments_ok st a h (L : list (StationInfo.t C)) per_packet cnt :
  length L < 256 → h < 256 → a < 256 → cnt < 256 →
  (∀ i, i < cnt → i * per_packet < length L) →
  Forall (λ r, StationInfo.index r < 256) L →
  ∀ c i0 (p : MeshProtocol.t), i0 + c ≤ cnt →
  for_each (Z.of_nat <$> seq i0 c)
    (MeshProtocol.send_fragment st (Z.of_nat a) (Z.of_nat h) L
       (Z.of_nat per_packet) (Z.of_nat cnt)) p
  = (Return tt,
     MeshProtocol.mk (MeshProtocol.size_limit p)
       (MeshProtocol.outbox p ++
        ((λ i, MeshProtocol.mk_sent st
                 (fragment_payload L h a cnt i
                    (min (length L - i * per_packet) per_packet) (i * per_packet))
                 0 true) <$> seq i0 c))
       (MeshProtocol.sliding_windows p)).
Proof.
  intros HN Hh Ha Hcnt Hoff Hidx.
  induction c as [|c IH]; intros i0 p Hle.
  - simpl. unfold ret. rewrite app_nil_r. by destruct p.
  - simpl. unfold bind.
    rewrite send_fragment_ok; [|done|done|done|done|lia|apply Hoff; lia|done].
    rewrite IH by lia. simpl. by rewrite <- app_assoc.
Qed.

Lemma packet_range_payload (L : list (StationInfo.t C)) h a k i len off :
  len < 256 → off < 256 →
  packet_range (fragment_payload L h a k i len off) = Some (off, len).
Proof.
  intros Hlen Hoff. unfold packet_range, fragment_payload, field. simpl.
  by rewrite !byte_of_to_nat.
Qed.

Lemma tiles_fragments (n per_packet cnt : nat) :
  0 < per_packet → (cnt - 1) * per_packet < n → n ≤ cnt * per_packet →
  ∀ c i0, i0 + c = cnt →
  tiles (min (i0 * per_packet) n)
    ((λ i, (i * per_packet, min (n - i * per_packet) per_packet)) <$> seq i0 c) n.
Proof.
  intros Hp Hlast Hall. induction c as [|c IH]; intros i0 Hsum.
  - simpl. nia.
  - simpl. assert (i0 * per_packet < n) as Hoff by nia.
    split; [lia|]. split; [lia|].
    replace (i0 * per_packet + min (n - i0 * per_packet) per_packet)
      with (min (S i0 * per_packet) n) by nia.
    apply IH. lia.
Qed.

(** The whole of [send_join_response], for a capacity [per_packet > 0]:
    one packet per fragment, in order. *)
Lemma send_join_response_run (p : MeshProtocol.t) st (a h : nat)
    (L : list (StationInfo.t C)) (pp : nat) :
  ((MeshProtocol.size_limit p - 0xC) / MeshProtocol.infosize)%Z = Z.of_nat pp →
  0 < pp → 0 < length L < 256 → h < 256 → a < 256 →
  Forall (λ r, StationInfo.index r < 256) L →
  let cnt := (length L + pp - 1) / pp in
  MeshProtocol.send_join_response st (Z.of_nat a) (Z.of_nat h) L p
  = (Return tt,
     MeshProtocol.mk (MeshProtocol.size_limit p)
       (MeshProtocol.outbox p ++
        ((λ i, MeshProtocol.mk_sent st
                 (fragment_payload L h a cnt i
                    (min (length L - i * pp) pp) (i * pp))
                 0 true) <$> seq 0 cnt))
       (MeshProtocol.sliding_windows p)).
Proof.
  intros HppZ Hpp Hn Hh Ha Hidx cnt.
  destruct (fragment_count_ceiling (length L) pp) as (Hcnt0 & Hcntn & Hlast & Hall);
    [lia..|].
  fold cnt in Hcnt0, Hcntn, Hlast, Hall.
  unfold MeshProtocol.send_join_response. unfold bind at 1. unfold gets.
  assert (MeshProtocol.infosize ≠ 0%Z) as Hsize.
  { intros Hzero. rewrite Hzero, Z.div_0_r in HppZ. lia. }
  unfold floordiv.
  destruct (decide (MeshProtocol.infosize = 0%Z)) as [|_]; [done|].
  unfold bind at 1. unfold ret at 1. rewrite HppZ.
  destruct (decide (Z.of_nat pp = 0%Z)) as [|_]; [lia|].
  unfold bind, ret.
  assert ((Z.of_nat (length L) + Z.of_nat pp - 1) / Z.of_nat pp = Z.of_nat cnt)%Z
    as ->.
  { unfold cnt. rewrite Nat2Z.inj_div. f_equal. lia. }
  unfold py_range. rewrite Nat2Z.id.
  rewrite (send_fragments_ok st a h L pp cnt); [|lia|done|done|lia| |done|lia].
  - done.
  - intros i Hi. by eapply fragment_offset_lt.
Qed.

(** C5: for a list of [n] stations, [0 < n], and a per-packet capacity
    [per_packet > 0] (the header values being bytes, as the wire format
    has them), [send_join_response] hands [ceil(n / per_packet)]
    packets to the resender for the target station, in order.  The
    ranges they announce in [recordOffset] and [recordsInFragment] split
    [0, n) with no gap and no overlap, and packet [i] is the header
    [0x02, n, host_index, assigned_index, fragment_count, i,
    records_in_fragment, offset] followed by the serialized records of
    its range. *)
Theorem send_join_response_partitions (p : MeshProtocol.t) st (a h : nat)
    (L : list (StationInfo.t C)) :
  let per_packet := ((MeshProtocol.size_limit p - 0xC) / MeshProtocol.infosize)%Z in
  let n := length L in
  0 < n < 256 → (0 < per_packet)%Z → h < 256 → a < 256 →
  Forall (λ r, StationInfo.index r < 256) L →
  ∃ (cnt : nat) (packets : list (list byte)),
    MeshProtocol.send_join_response st (Z.of_nat a) (Z.of_nat h) L p
    = (Return tt,
       MeshProtocol.mk (MeshProtocol.size_limit p)
         (MeshProtocol.outbox p ++
          ((λ data, MeshProtocol.mk_sent st data 0 true) <$> packets))
         (MeshProtocol.sliding_windows p)) ∧
    length packets = cnt ∧
    ((Z.of_nat cnt - 1) * per_packet < Z.of_nat n ≤ Z.of_nat cnt * per_packet)%Z ∧
    (∃ ranges, mapM packet_range packets = Some ranges ∧ tiles 0 ranges n) ∧
    ∀ i data, packets !! i = Some data →
      ∃ off len chunks,
        packet_range data = Some (off, len) ∧
        Byte.to_nat <$> take 8 data = [2; n; h; a; cnt; i; len; off] ∧
        drop 8 data = concat chunks ∧
        Forall2 (λ r bytes, StationInfo.serialize r tt = (Return bytes, tt))
          (take len (drop off L)) chunks.
Proof.
  intros per_packet n Hn Hp Hh Ha Hidx.
  set (pp := Z.to_nat per_packet).
  assert (per_packet = Z.of_nat pp) as HppZ by lia.
  assert (0 < pp) as Hpp by lia.
  set (cnt := (n + pp - 1) / pp).
  destruct (fragment_count_ceiling n pp) as (Hcnt0 & Hcntn & Hlast & Hall); [lia..|].
  fold cnt in Hcnt0, Hcntn, Hlast, Hall.
  assert (∀ i, i < cnt → i * pp < n) as Hoff.
  { intros i Hi. by eapply fragment_offset_lt. }
  set (payload := λ i, fragment_payload L h a cnt i (min (n - i * pp) pp) (i * pp)).
  exists cnt, (payload <$> seq 0 cnt).
  split; [|split; [|split; [|split]]].
  - rewrite (send_join_response_run p st a h L pp) by (done || lia).
    fold n cnt. by rewrite <- list_fmap_compose.
  - by rewrite length_fmap, length_seq.
  - rewrite HppZ. nia.
  - exists ((λ i, (i * pp, min (n - i * pp) pp)) <$> seq 0 cnt). split.
    + apply mapM_Some_2. apply Forall2_fmap. apply Forall_Forall2_diag.
      apply Forall_forall. intros i Hi%elem_of_seq. simpl.
      apply packet_range_payload; specialize (Hoff i); lia.
    + pose proof (tiles_fragments n pp cnt Hpp Hlast Hall cnt 0) as Htiles.
      rewrite Nat.mul_0_l, Nat.min_0_l in Htiles. by apply Htiles.
  - intros i data Hdata.
    rewrite list_lookup_fmap in Hdata.
    destruct (seq 0 cnt !! i) as [i'|] eqn:Hi; [|done].
    apply lookup_seq in Hi as [-> Hi]. simpl in Hdata. injection Hdata as <-.
    specialize (Hoff i Hi).
    exists (i * pp), (min (n - i * pp) pp),
           (record_bytes <$> take (min (n - i * pp) pp) (drop (i * pp) L)).
    split; [apply packet_range_payload; lia|]. split; [|split].
    + unfold payload, fragment_payload. simpl.
      rewrite !byte_of_to_nat by lia. done.
    + done.
    + apply Forall2_fmap_r, Forall_Forall2_diag.
      apply Forall_take, Forall_drop.
      eapply Forall_impl; [exact Hidx|].
      intros r Hr. by apply serialize_record_bytes.
Qed.
End Protocol_facts.

Lemma send_join_response_partitions_witness :
  let L := [StationInfo.mk Byte.x0a 0; StationInfo.mk Byte.x0b 1;
            StationInfo.mk Byte.x0c 2; StationInfo.mk Byte.x0d 3;
            StationInfo.mk Byte.x0e 4] in
  ∃ (cnt : nat) (packets : list (list byte)),
    MeshProtocol.send_join_response 7 5 0 L demo_protocol
    = (Return tt,
       MeshProtocol.mk 20
         ((λ data, MeshProtocol.mk_sent 7 data 0 true) <$> packets)
         (replicate 32 None)) ∧
    length packets = cnt ∧
    ∃ ranges, mapM packet_range packets = Some ranges ∧ tiles 0 ranges 5.
Proof.
  intros L.
  destruct (send_join_response_partitions demo_protocol 7 5 0 L)
    as (cnt & packets & Hsend & Hlen & _ & Hranges & _).
  - simpl. lia.
  - vm_compute. reflexivity.
  - lia.
  - lia.
  - repeat (apply Forall_cons; split; [simpl; lia|]). by apply Forall_nil.
  - exists cnt, packets. split; [exact Hsend|]. split; [exact Hlen|exact Hranges].
Defined.

(** ** Sender and decoder together *)

Section Sender_and_decoder.
Context {C : Type} `{ConnectionInfoLaws C}.

(** The packets [send_join_response] emits, fed to a new decoder of the
    joining peer in any order, give one or more completions, and the
    last one hands over the station list that was sent. *)
Lemma sent_fragments_reassemble (p : MeshProtocol.t) st peer (a h : nat)
    (L : list (StationInfo.t C)) (order : list nat) :
  let per_packet := ((MeshProtocol.size_limit p - 0xC) / MeshProtocol.infosize)%Z in
  let n := length L in
  0 < n < 256 → (0 < per_packet)%Z → h < 256 → a < 256 →
  Forall (λ r, StationInfo.index r < 256) L →
  ∃ packets : list (list byte),
    MeshProtocol.outbox
      (MeshProtocol.send_join_response st (Z.of_nat a) (Z.of_nat h) L p).2
    = MeshProtocol.outbox p ++
      ((λ data, MeshProtocol.mk_sent st data 0 true) <$> packets) ∧
    (order ≡ₚ seq 0 (length packets) →
     ∃ d, JoinResponseDecoder.feed peer ((λ i, packets !!! i) <$> order)
            JoinResponseDecoder.init = (Return tt, d) ∧
          last (JoinResponseDecoder.finished d) = Some (completion peer h a L)).
Proof.
  intros per_packet n Hn Hp Hh Ha Hidx.
  set (pp := Z.to_nat per_packet).
  assert (per_packet = Z.of_nat pp) as HppZ by lia.
  assert (0 < pp) as Hpp by lia.
  set (cnt := (n + pp - 1) / pp).
  destruct (fragment_count_ceiling n pp) as (Hcnt0 & Hcntn & Hlast & Hall); [lia..|].
  fold cnt in Hcnt0, Hcntn, Hlast, Hall.
  assert (∀ i, i < cnt → i * pp < n) as Hoff.
  { intros i Hi. by eapply fragment_offset_lt. }
  set (range := λ i, mk_fragment i (i * pp) (min (n - i * pp) pp)).
  set (payload := λ i, fragment_payload L h a cnt i (min (n - i * pp) pp) (i * pp)).
  exists (payload <$> seq 0 cnt). split.
  { rewrite (send_join_response_run p st a h L pp) by (done || lia).
    simpl. by rewrite <- list_fmap_compose. }
  rewrite length_fmap, length_seq. intros Horder.
  assert (∀ i, i ∈ order → i < cnt) as Hin.
  { intros i Hi. rewrite Horder in Hi. apply elem_of_seq in Hi. lia. }
  set (frs := (λ i, (range i, payload i)) <$> order).
  assert (frs.*1 = range <$> order) as Hfst.
  { unfold frs. by rewrite <- list_fmap_compose. }
  assert (frs.*2 = (λ i, (payload <$> seq 0 cnt) !!! i) <$> order) as Hsnd.
  { unfold frs. rewrite <- list_fmap_compose. apply list_fmap_ext.
    intros j i Hj. simpl.
    assert (i < cnt) as Hi by (apply Hin; by eapply list_elem_of_lookup_2).
    symmetry. apply list_lookup_total_correct.
    by rewrite list_lookup_fmap, lookup_seq_lt by lia. }
  assert (fragmentation L h a cnt frs) as Hfrag.
  { split.
    - unfold frs. apply Forall_fmap, Forall_forall. intros i Hi. simpl.
      specialize (Hin i Hi). specialize (Hoff i Hin). split; [|done].
      unfold is_fragment_of. simpl.
      apply (build_fragment_ok (S:=unit)); (done || lia).
    - rewrite Hfst, <- list_fmap_compose. simpl.
      rewrite list_fmap_id, Horder. apply NoDup_seq. }
  assert (frs ≠ []) as Hne.
  { intros Hnil. apply (f_equal length) in Hnil. unfold frs in Hnil.
    rewrite length_fmap in Hnil. apply Permutation_length in Horder.
    rewrite length_seq in Horder. simpl in Hnil. lia. }
  destruct (feed_fragmentation peer L h a cnt frs Hfrag Hne)
    as (d & e & Hfeed & Hlog & He).
  exists d. rewrite <- Hsnd. split; [done|].
  assert (0 < e) as Hpos.
  { apply He. intros j Hj. apply covered_elem_of.
    exists (range (j / pp)). split.
    - rewrite Hfst. apply list_elem_of_fmap. exists (j / pp). split; [done|].
      rewrite Horder. apply elem_of_seq.
      pose proof (Nat.div_mod_eq j pp). pose proof (Nat.mod_upper_bound j pp).
      split; [lia|]. simpl.
      destruct (decide (j / pp < cnt)) as [|Hge]; [done|].
      assert (cnt * pp ≤ (j / pp) * pp) by (apply Nat.mul_le_mono_r; lia). nia.
    - apply in_range_spec. simpl.
      pose proof (Nat.div_mod_eq j pp). pose proof (Nat.mod_upper_bound j pp).
      nia. }
  destruct e as [|e]; [lia|].
  by rewrite Hlog, replicate_S_end, last_snoc.
Qed.

End Sender_and_decoder.

(** ** MeshMgr *)

Section Manager_facts.
Context {C : Type} `{ConnectionInfo C}.
Import MeshMgr.

(** The loop at lines 321-323. *)
Lemma note_pending_all (infos : list (StationInfo.t C)) : ∀ m : t C,
  for_each infos note_pending m
  = (Return tt,
     set_pending_connect
       (foldl (λ pc info,
                 <[ci_rvcid (StationInfo.connection_info info)
                   := StationInfo.index info]> pc)
              (pending_connect m) infos) m).
Proof.
  induction infos as [|info infos IH]; intros m.
  - simpl. unfold ret. by destruct m.
  - simpl. unfold bind, note_pending, modify. rewrite IH. done.
Qed.

(** What the loop leaves under a key. *)
Lemma pending_fold_lookup (infos : list (StationInfo.t C)) : ∀ (pc : gmap nat nat) k,
  foldl (λ pc info,
           <[ci_rvcid (StationInfo.connection_info info) := StationInfo.index info]> pc)
        pc infos !! k
  = match last (filter (λ info, ci_rvcid (StationInfo.connection_info info) = k) infos) with
    | Some info => Some (StationInfo.index info)
    | None => pc !! k
    end.
Proof.
  induction infos as [|info infos IH] using rev_ind; intros pc k; [done|].
  rewrite foldl_app, filter_app. simpl.
  destruct (decide (ci_rvcid (StationInfo.connection_info info) = k)) as [Hk|Hk].
  - rewrite filter_cons_True by done. rewrite filter_nil, last_snoc.
    by rewrite Hk, lookup_insert_eq.
  - rewrite filter_cons_False by done. rewrite filter_nil, app_nil_r.
    rewrite lookup_insert_ne by done. apply IH.
Qed.

(** C4, as the code has it: a completed join response that arrives
    while [expecting_join_response] is set, for an assigned index whose
    slot is free, clears the flag, records [host_index], registers the
    local station at the assigned index (slot and [index] attribute),
    hands the list to [join_succeeded], and leaves in [pending_connect],
    under every identity, the index of the last received record with
    that identity.  No record is left out: the local station's own
    record is entered like the others. *)
Theorem handle_join_response_completion (ss : session C) st host_idx my_index
    (infos : list (StationInfo.t C)) (m : t C) :
  expecting_join_response m = true →
  StationList.stations (stations m) !! my_index = Some None →
  ∃ m', handle_join_response ss st host_idx my_index infos m = (Return tt, m') ∧
    expecting_join_response m' = false ∧
    host_index m' = Some host_idx ∧
    StationList.stations (stations m')
    = <[my_index := Some (station ss)]> (StationList.stations (stations m)) ∧
    StationList.index_attr (stations m')
    = <[station ss := my_index]> (StationList.index_attr (stations m)) ∧
    join_succeeded m' = join_succeeded m ++ [infos] ∧
    (∀ k, pending_connect m' !! k
          = match last (filter (λ info, ci_rvcid (StationInfo.connection_info info) = k)
                          infos) with
            | Some info => Some (StationInfo.index info)
            | None => pending_connect m !! k
            end) ∧
    (∀ info, info ∈ infos →
       is_Some (pending_connect m' !! ci_rvcid (StationInfo.connection_info info))).
Proof.
  intros Hexp Hslot. unfold handle_join_response. unfold bind at 1. unfold gets.
  rewrite Hexp. simpl. unfold bind at 1. unfold modify at 1.
  unfold bind at 1. unfold modify at 1.
  unfold bind at 1. unfold zoom. simpl.
  rewrite (add_explicit_free (stations m) (station ss) my_index Hslot).
  unfold bind at 1. rewrite note_pending_all. unfold modify. simpl.
  eexists. split; [done|]. simpl.
  split; [done|]. split; [done|]. split; [done|]. split; [done|]. split; [done|].
  split; [apply pending_fold_lookup|].
  intros info Hin. rewrite pending_fold_lookup.
  destruct (last (filter _ infos)) as [info'|] eqn:Hlast; [by eexists|].
  apply last_None in Hlast.
  assert (info ∈ filter (λ info0, ci_rvcid (StationInfo.connection_info info0)
                                  = ci_rvcid (StationInfo.connection_info info)) infos)
    as Hfil by (by apply list_elem_of_filter).
  rewrite Hlast in Hfil. by apply elem_of_nil in Hfil.
Qed.

(** On the host, [handle_join_request] raises [NameError] at line 303,
    before anything is sent or registered. *)
Lemma handle_join_request_host (ss : session C) st station_index station_address
    (m : t C) :
  host_index m = Some (StationList.index_attr (stations m) (station ss)) →
  handle_join_request ss st station_index station_address m
  = (Raise (NameError "station_addr"), m).
Proof.
  intros Hhost. unfold handle_join_request, is_host, bind, gets.
  by rewrite bool_decide_eq_true_2.
Qed.

(** Off the host, the request is denied with reason 1: the payload
    [02 00 ff ff 01] goes out twice, unacknowledged. *)
Lemma handle_join_request_not_host (ss : session C) st station_index station_address
    (m : t C) :
  host_index m ≠ Some (StationList.index_attr (stations m) (station ss)) →
  handle_join_request ss st station_index station_address m
  = (Return tt,
     set_protocol
       (MeshProtocol.mk (MeshProtocol.size_limit (protocol m))
          (MeshProtocol.outbox (protocol m) ++
           [MeshProtocol.mk_sent st
              [Byte.x02; Byte.x00; Byte.xff; Byte.xff; Byte.x01] 0 false;
            MeshProtocol.mk_sent st
              [Byte.x02; Byte.x00; Byte.xff; Byte.xff; Byte.x01] 8 false])
          (MeshProtocol.sliding_windows (protocol m))) m).
Proof.
  intros Hhost. unfold handle_join_request, is_host, bind, gets.
  rewrite bool_decide_eq_false_2 by done.
  unfold zoom. simpl. by rewrite <- app_assoc.
Qed.

End Manager_facts.

Lemma handle_join_response_completion_witness :
  let infos := [StationInfo.mk Byte.x2a 0; StationInfo.mk Byte.x2b 1] in
  ∃ m', MeshMgr.handle_join_response demo_session 5 0 1 infos demo_client
        = (Return tt, m') ∧
    MeshMgr.expecting_join_response m' = false ∧
    MeshMgr.host_index m' = Some 0 ∧
    StationList.stations (MeshMgr.stations m') !! 1 = Some (Some 0) ∧
    MeshMgr.pending_connect m' !! 42 = Some 0 ∧
    MeshMgr.pending_connect m' !! 43 = Some 1.
Proof.
  intros infos.
  destruct (handle_join_response_completion demo_session 5 0 1 infos demo_client)
    as (m' & Hrun & Hexp & Hhost & Hslots & _ & _ & Hpending & _).
  - reflexivity.
  - reflexivity.
  - exists m'. split; [exact Hrun|]. split; [exact Hexp|]. split; [exact Hhost|].
    split; [rewrite Hslots; reflexivity|].
    split; rewrite Hpending; reflexivity.
Defined.

(** C4 as stated fails: the client was assigned index 1 and receives
    the records (2a, 0) of the host and (2b, 1) of itself.  After
    [handle_join_response] the identity 43 of its own record is in
    [pending_connect], mapped to 1; with the local station's record
    left out, as the claim has it, that key would be absent. *)
Lemma handle_join_response_records_self :
  let infos := [StationInfo.mk Byte.x2a 0; StationInfo.mk Byte.x2b 1] in
  let m' := (MeshMgr.handle_join_response demo_session 5 0 1 infos demo_client).2 in
  MeshMgr.pending_connect m' !! 43 = Some 1 ∧
  pending_connect_without_self 1 infos (MeshMgr.pending_connect demo_client) !! 43 = None ∧
  MeshMgr.pending_connect m'
  ≠ pending_connect_without_self 1 infos (MeshMgr.pending_connect demo_client).
Proof.
  intros infos m'.
  assert (MeshMgr.pending_connect m' !! 43 = Some 1) as Hcode by (vm_compute; reflexivity).
  assert (pending_connect_without_self 1 infos (MeshMgr.pending_connect demo_client) !! 43
          = None) as Hclaim by (vm_compute; reflexivity).
  split; [exact Hcode|]. split; [exact Hclaim|].
  intros Heq. rewrite Heq, Hclaim in Hcode. discriminate Hcode.
Qed.

(** C2: the host [demo_host] receives a join request from station 9,
    which claims address 100; the transport knows that address as
    station 5.  The claim wants a denial with reason 2.  The code
    raises [NameError] on the unbound name [station_addr] of line 303:
    the manager is unchanged, so nothing is registered, and nothing at
    all is sent, so there is no denial. *)
Theorem handle_join_request_mismatch_raises :
  MeshMgr.find_by_address demo_session 100 ≠ Some 9 ∧
  MeshMgr.is_host demo_session demo_host = (Return true, demo_host) ∧
  MeshMgr.handle_join_request demo_session 9 253 (MeshMgr.mk_address 100) demo_host
  = (Raise (NameError "station_addr"), demo_host) ∧
  MeshProtocol.outbox (MeshMgr.protocol demo_host) = [].
Proof.
  split; [discriminate|]. split; [reflexivity|]. split; [|reflexivity].
  apply handle_join_request_host. reflexivity.
Qed.

(** * Further properties *)

(** ** StationList: free slots, consistency, enumeration *)

Section StationList_slots.
Import StationList.

Lemma index_of_None_first slots i :
  index_of_None slots = Some i → first_free slots i.
Proof.
  revert i. induction slots as [|[o|] rest IH]; intros i Hi; simpl in Hi.
  - done.
  - destruct (index_of_None rest) as [i'|] eqn:Hrest; [|done].
    injection Hi as <-. destruct (IH i' eq_refl) as [Hfree Hbelow].
    split; [done|]. intros [|j] Hj; [by exists o|].
    apply (Hbelow j). lia.
  - injection Hi as <-. split; [done|]. intros j Hj. lia.
Qed.

Lemma next_index_free s :
  None ∈ stations s →
  ∃ i, index_of_None (stations s) = Some i ∧ first_free (stations s) i ∧
       next_index s = (Return i, s).
Proof.
  intros Hin. destruct (index_of_None_spec _ Hin) as (i & Hidx & _).
  exists i. split; [done|]. split; [by apply index_of_None_first|].
  unfold next_index. mstep. rewrite bool_decide_eq_true_2 by done.
  by rewrite Hidx.
Qed.

Lemma next_index_full s :
  None ∉ stations s → next_index s = (Raise OverflowError_full, s).
Proof.
  intros Hin. unfold next_index. mstep. by rewrite bool_decide_eq_false_2.
Qed.

Lemma add_default_free s st :
  None ∈ stations s →
  ∃ i, first_free (stations s) i ∧
       add st None s
       = (Return tt, mk (<[i := Some st]> (stations s)) (<[st := i]> (index_attr s))).
Proof.
  intros Hin. destruct (next_index_free s Hin) as (i & _ & Hfirst & Hnext).
  exists i. split; [done|].
  unfold add. unfold bind at 1. rewrite Hnext.
  change (add st (Some i) s = (Return tt, mk (<[i := Some st]> (stations s))
                                             (<[st := i]> (index_attr s)))).
  apply add_explicit_free, Hfirst.
Qed.

Lemma add_default_full s st :
  None ∉ stations s → add st None s = (Raise OverflowError_full, s).
Proof.
  intros Hin. unfold add. unfold bind at 1. by rewrite next_index_full.
Qed.

(** [next_index] returns the first free slot: the slot is free and
    every slot below it is occupied.  When no slot is free it raises
    [OverflowError].  The registry is not changed either way. *)
Theorem next_index_first_free s :
  (None ∈ stations s →
     ∃ i, next_index s = (Return i, s) ∧ first_free (stations s) i) ∧
  (None ∉ stations s → next_index s = (Raise OverflowError_full, s)).
Proof.
  split.
  - intros Hin. destruct (next_index_free s Hin) as (i & _ & Hfirst & Hnext).
    by exists i.
  - apply next_index_full.
Qed.

(** [add(station)] without an index puts the station into the first
    free slot and writes that slot number to the station's [index]
    attribute; every other slot and attribute is as before.  On a full
    registry it raises [OverflowError] and changes nothing. *)
Theorem add_without_index s st :
  (None ∈ stations s →
     ∃ i, first_free (stations s) i ∧
          add st None s
          = (Return tt, mk (<[i := Some st]> (stations s)) (<[st := i]> (index_attr s)))) ∧
  (None ∉ stations s → add st None s = (Raise OverflowError_full, s)).
Proof.
  split; [apply add_default_free|apply add_default_full].
Qed.

Lemma add_cases s st oi :
  (add st oi s).2 = s ∨
  ∃ i, stations s !! i = Some None ∧
       (add st oi s).2 = mk (<[i := Some st]> (stations s)) (<[st := i]> (index_attr s)).
Proof.
  destruct oi as [i|].
  - destruct (stations s !! i) as [[o|]|] eqn:Hi.
    + left. by erewrite add_explicit_occupied.
    + right. exists i. split; [done|]. by rewrite add_explicit_free.
    + left. by rewrite add_explicit_out_of_range.
  - destruct (decide (None ∈ stations s)) as [Hin|Hin].
    + right. destruct (add_default_free s st Hin) as (i & [Hfree _] & ->).
      by exists i.
    + left. by rewrite add_default_full.
Qed.

(** As long as no station is added a second time, every registered
    station's [index] attribute is the number of the slot that holds
    it: the property holds for a new registry, and [add] of a station
    that is not registered keeps it, whatever index is asked for and
    whether the call returns or raises. *)
Theorem add_keeps_consistent s st oi :
  consistent s → (∀ i, stations s !! i ≠ Some (Some st)) →
  consistent (add st oi s).2.
Proof.
  intros Hcons Hnew.
  destruct (add_cases s st oi) as [->|(i & Hfree & ->)]; [done|].
  intros j o. simpl. intros Hj.
  destruct (decide (j = i)) as [->|Hne].
  - rewrite list_lookup_insert_eq in Hj by (by eapply lookup_lt_Some).
    injection Hj as <-. by rewrite fn_lookup_insert.
  - rewrite list_lookup_insert_ne in Hj by done.
    rewrite fn_lookup_insert_ne; [by apply Hcons|].
    intros <-. by apply (Hnew j).
Qed.

Lemma init_consistent index_attr0 : consistent (init index_attr0).
Proof.
  intros i st Hi. unfold init in Hi.
  change (replicate 32 None !! i = Some (Some st)) in Hi.
  apply lookup_replicate in Hi as [? _]. done.
Qed.

Lemma filtered_lookup_slot (slots : list (option nat)) k st :
  omap id slots !! k = Some st → ∃ i, slots !! i = Some (Some st).
Proof.
  intros Hk. apply list_elem_of_lookup_2 in Hk.
  apply list_elem_of_omap in Hk as (o & Ho & Hst).
  apply list_elem_of_lookup_1 in Ho as [i Hi]. exists i.
  destruct o; simpl in Hst; [by injection Hst as ->|done].
Qed.

(** A registry driven by [add] calls from its creation can be
    enumerated with [len] and subscripts: [s[k]] returns a registered
    station for every [k] below [len(s)] and raises [IndexError] for
    every [k] from [len(s)] on.  Neither changes the registry. *)
Theorem getitem_below_len ops index_attr0 k :
  let s := run_adds ops (init index_attr0) in
  ((Z.of_nat k < len s)%Z →
     ∃ st i, getitem k s = (Return st, s) ∧ stations s !! i = Some (Some st)) ∧
  ((len s ≤ Z.of_nat k)%Z → getitem k s = (Raise IndexError_range, s)).
Proof.
  intros s.
  assert (len s = Z.of_nat (length (filtered s))) as Hlen.
  { apply len_filtered. unfold s. by rewrite run_adds_length. }
  rewrite Hlen. split; intros Hk.
  - destruct (lookup_lt_is_Some_2 (filtered s) k) as [st Hst]; [lia|].
    destruct (filtered_lookup_slot _ _ _ Hst) as [i Hi].
    exists st, i. split; [|done]. unfold getitem. mstep. by rewrite Hst.
  - unfold getitem. mstep. by rewrite lookup_ge_None_2 by lia.
Qed.

End StationList_slots.

Lemma next_index_first_free_witness :
  (∃ i, StationList.next_index (StationList.init unassigned)
        = (Return i, StationList.init unassigned) ∧
        first_free (StationList.stations (StationList.init unassigned)) i) ∧
  StationList.next_index (StationList.mk (replicate 32 (Some 1)) unassigned)
  = (Raise OverflowError_full, StationList.mk (replicate 32 (Some 1)) unassigned).
Proof.
  split.
  - apply (proj1 (next_index_first_free (StationList.init unassigned))).
    apply (bool_decide_unpack _). vm_compute. exact I.
  - apply (proj2 (next_index_first_free
                    (StationList.mk (replicate 32 (Some 1)) unassigned))).
    apply (bool_decide_unpack _). vm_compute. exact I.
Defined.

Lemma add_without_index_witness :
  (∃ i, first_free (StationList.stations (StationList.init unassigned)) i ∧
        StationList.add 7 None (StationList.init unassigned)
        = (Return tt,
           StationList.mk (<[i := Some 7]> (replicate 32 None)) (<[7 := i]> unassigned))) ∧
  StationList.add 7 None (StationList.mk (replicate 32 (Some 1)) unassigned)
  = (Raise OverflowError_full, StationList.mk (replicate 32 (Some 1)) unassigned).
Proof.
  split.
  - apply (proj1 (add_without_index (StationList.init unassigned) 7)).
    apply (bool_decide_unpack _). vm_compute. exact I.
  - apply (proj2 (add_without_index
                    (StationList.mk (replicate 32 (Some 1)) unassigned) 7)).
    apply (bool_decide_unpack _). vm_compute. exact I.
Defined.

Lemma add_keeps_consistent_witness :
  consistent (StationList.add 7 (Some 3) (StationList.init unassigned)).2.
Proof.
  apply (add_keeps_consistent (StationList.init unassigned) 7 (Some 3)).
  - apply init_consistent.
  - intros i Hi.
    change (replicate 32 None !! i = Some (Some 7)) in Hi.
    apply lookup_replicate in Hi as [? _]. done.
Defined.

Lemma getitem_below_len_witness :
  let s := run_adds [(7, Some 3); (9, None)] (StationList.init unassigned) in
  (∃ st i, StationList.getitem 1 s = (Return st, s) ∧
           StationList.stations s !! i = Some (Some st)) ∧
  StationList.getitem 2 s = (Raise IndexError_range, s).
Proof.
  intros s. split.
  - apply (proj1 (getitem_below_len [(7, Some 3); (9, None)] unassigned 1)).
    vm_compute. reflexivity.
  - apply (proj2 (getitem_below_len [(7, Some 3); (9, None)] unassigned 2)).
    vm_compute. discriminate.
Defined.

(** ** The monad, read backwards *)

Section Inversion.
Context {S A B : Type}.

Lemma bind_Return_inv (c : M S A) (k : A → M S B) s b s' :
  bind c k s = (Return b, s') →
  ∃ a s1, c s = (Return a, s1) ∧ k a s1 = (Return b, s').
Proof.
  unfold bind. destruct (c s) as [[a|e] s1]; [|done]. intros Hk. by exists a, s1.
Qed.

Lemma bind_Raise_inv (c : M S A) (k : A → M S B) s e s' :
  bind c k s = (Raise e, s') →
  c s = (Raise e, s') ∨ ∃ a s1, c s = (Return a, s1) ∧ k a s1 = (Raise e, s').
Proof.
  unfold bind. destruct (c s) as [[a|e'] s1]; [|by intros [= -> ->]; left].
  intros Hk. right. by exists a, s1.
Qed.

Lemma lift_opt_Return_inv e (o : option A) (s s' : S) a :
  lift_opt e o s = (Return a, s') → o = Some a ∧ s' = s.
Proof. destruct o; simpl; [|done]. by intros [= -> ->]. Qed.

Lemma lift_opt_Raise_inv e (o : option A) (s s' : S) e' :
  lift_opt e o s = (Raise e', s') → e' = e ∧ s' = s.
Proof. destruct o; simpl; [done|]. by intros [= -> ->]. Qed.

End Inversion.

Lemma byte_at_Return_inv {S} (m : list byte) i (s s' : S) v :
  byte_at m i s = (Return v, s') → field m i = Some v ∧ s' = s.
Proof.
  unfold byte_at, field. mstep. destruct (m !! i); simpl; [|done]. by intros [= -> ->].
Qed.

Lemma byte_at_Raise_inv {S} (m : list byte) i (s s' : S) e :
  byte_at m i s = (Raise e, s') → e = IndexError_range ∧ s' = s.
Proof.
  unfold byte_at. mstep. destruct (m !! i); simpl; [done|]. by intros [= -> ->].
Qed.

(** ** JoinResponseDecoder: short messages, repeated fragments, the signal *)

Section Decoder_more.
Context {C : Type} `{ConnectionInfoLaws C}.
Import JoinResponseDecoder.

#[local] Arguments Nat.add : simpl never.
#[local] Arguments Nat.mul : simpl never.

Lemma attr_Return_inv {A} name (g : t C → option A) d d' v :
  attr name g d = (Return v, d') → g d = Some v ∧ d' = d.
Proof.
  unfold attr. mstep. destruct (g d); simpl; [|done]. by intros [= -> ->].
Qed.

Ltac keeps_step :=
  first
    [ apply keeps_ret | apply keeps_raise | apply keeps_gets | apply keeps_attr
    | apply keeps_byte_at | apply keeps_lift_opt | apply keeps_deserialize
    | (apply keeps_modify; done)
    | (apply keeps_for_each; intros ?)
    | match goal with
      | |- keeps _ (match ?x with _ => _ end) => destruct x
      end
    | (apply keeps_bind; [|intros ?]) ].

Lemma store_record_keeps {X} (f : t C → X) m fo i :
  (∀ v d, f (set_infos v d) = f d) → keeps f (store_record m fo i).
Proof.
  intros Hf. unfold store_record.
  apply keeps_bind; [apply keeps_attr|]. intros slots.
  apply keeps_bind; [apply keeps_lift_opt|]. intros _.
  apply keeps_bind; [apply keeps_deserialize|]. intros info.
  apply keeps_bind; [apply keeps_attr|]. intros slots'.
  apply keeps_bind; [apply keeps_lift_opt|]. intros _.
  apply keeps_modify. intros d. apply Hf.
Qed.

Lemma update_info_keeps_finished st m : keeps (C:=C) finished (update_info st m).
Proof. unfold update_info. repeat keeps_step. Qed.

(** [check_info] only reads. *)
Lemma check_info_state st m (d : t C) : (check_info st m d).2 = d.
Proof.
  assert (keeps (C:=C) id (check_info st m)) as Hk.
  { unfold check_info. repeat keeps_step. }
  apply Hk.
Qed.

Lemma select_context_keeps_finished st m :
  keeps (C:=C) finished (select_context st m).
Proof.
  unfold select_context.
  apply keeps_bind; [apply keeps_gets|]. intros [s0|]; [|apply update_info_keeps_finished].
  apply keeps_bind.
  { intros d. by rewrite check_info_state. }
  intros [|]; simpl; [apply keeps_ret|].
  apply keeps_bind; [by apply keeps_modify|]. intros _.
  apply update_info_keeps_finished.
Qed.

(** *** The signal log *)

Lemma signals_once_bind {A} st (c : M (t C) A) (k : A → M (t C) unit) :
  keeps finished c → (∀ a, signals_once st (k a)) → signals_once st (bind c k).
Proof.
  intros Hc Hk d. unfold bind. specialize (Hc d).
  destruct (c d) as [[a|e] d1]; simpl in *; [|by left].
  rewrite <- Hc. apply Hk.
Qed.

Lemma signals_once_ret st : signals_once (C:=C) st (ret tt).
Proof. intros d. by left. Qed.

Lemma signals_once_completion st :
  signals_once (C:=C) st
    (slots <- attr "infos" infos ;;
     if all_infos slots then
       h <- attr "host_index" host_index ;;
       a <- attr "assigned_index" assigned_index ;;
       slots <- attr "infos" infos ;;
       modify (λ d, set_finished (finished d ++ [mk_finished st h a slots]) d) ;;;
       reset
     else ret tt).
Proof.
  intros d. unfold attr, reset. mstep.
  destruct (infos d) as [slots|] eqn:Hinfos; simpl; [|by left].
  destruct (all_infos slots) eqn:Hall; simpl; [|by left].
  destruct (host_index d) as [h|]; simpl; [|by left].
  destruct (assigned_index d) as [a|]; simpl; [|by left].
  rewrite Hinfos. simpl. right. by exists h, a, slots.
Qed.

Lemma store_fragment_signals_once st m :
  signals_once (C:=C) st (store_fragment st m).
Proof.
  unfold store_fragment.
  apply signals_once_bind; [apply keeps_byte_at|]. intros fi.
  apply signals_once_bind; [apply keeps_attr|]. intros bits.
  apply signals_once_bind; [apply keeps_lift_opt|]. intros seen.
  destruct seen; simpl; [apply signals_once_ret|].
  apply signals_once_bind; [apply keeps_attr|]. intros bits'.
  apply signals_once_bind; [apply keeps_lift_opt|]. intros _.
  apply signals_once_bind; [by apply keeps_modify|]. intros _.
  apply signals_once_bind; [apply keeps_byte_at|]. intros fl.
  apply signals_once_bind; [apply keeps_byte_at|]. intros fo.
  apply signals_once_bind.
  { apply keeps_for_each. intros i. by apply store_record_keeps. }
  intros _. apply signals_once_completion.
Qed.

Lemma parse_signals_once st m : signals_once (C:=C) st (parse st m).
Proof.
  unfold parse.
  apply signals_once_bind; [apply select_context_keeps_finished|].
  intros _. apply store_fragment_signals_once.
Qed.

(** *** The two halves of [parse], by cases *)

Lemma update_info_cases st m (d : t C) :
  (∃ n h a k, field m 1 = Some n ∧ field m 2 = Some h ∧
              field m 3 = Some a ∧ field m 4 = Some k ∧
              update_info st m d = (Return tt, fresh_context st n h a k (finished d))) ∨
  (∃ d', update_info st m d = (Raise IndexError_range, d')).
Proof.
  destruct (field m 1) as [n|] eqn:Hf1; [destruct (field m 2) as [h|] eqn:Hf2;
    [destruct (field m 3) as [a|] eqn:Hf3; [destruct (field m 4) as [k|] eqn:Hf4|]|]|].
  - left. exists n, h, a, k. by rewrite (update_info_header d st m n h a k).
  - right. unfold update_info. mstep.
    rewrite (byte_at_field _ _ _ _ Hf1). simpl.
    rewrite (byte_at_field _ _ _ _ Hf2). simpl.
    rewrite (byte_at_field _ _ _ _ Hf3). simpl.
    rewrite (byte_at_missing _ _ _ Hf4). by eexists.
  - right. unfold update_info. mstep.
    rewrite (byte_at_field _ _ _ _ Hf1). simpl.
    rewrite (byte_at_field _ _ _ _ Hf2). simpl.
    rewrite (byte_at_missing _ _ _ Hf3). by eexists.
  - right. unfold update_info. mstep.
    rewrite (byte_at_field _ _ _ _ Hf1). simpl.
    rewrite (byte_at_missing _ _ _ Hf2). by eexists.
  - right. unfold update_info. mstep.
    rewrite (byte_at_missing _ _ _ Hf1). by eexists.
Qed.

Lemma check_info_cases st m (d : t C) s0 n h a k :
  station d = Some s0 → num_stations d = Some n → host_index d = Some h →
  assigned_index d = Some a → num_fragments d = Some k →
  check_info st m d = (Return false, d) ∨
  check_info st m d = (Raise IndexError_range, d) ∨
  (s0 = st ∧ field m 1 = Some n ∧ field m 2 = Some h ∧
   field m 3 = Some a ∧ field m 4 = Some k ∧
   check_info st m d = (Return true, d)).
Proof.
  intros Hs Hn Hh Ha Hk. unfold check_info, attr. mstep. rewrite Hs.
  case_bool_decide as Hst; simpl; [|by left]. injection Hst as ->.
  rewrite Hn. simpl.
  destruct (field m 1) as [v1|] eqn:Hf1;
    [rewrite (byte_at_field _ _ _ _ Hf1)
    |rewrite (byte_at_missing _ _ _ Hf1); by right; left].
  simpl. destruct (Nat.eqb_spec n v1) as [<-|]; simpl; [|by left].
  rewrite Hh. simpl.
  destruct (field m 2) as [v2|] eqn:Hf2;
    [rewrite (byte_at_field _ _ _ _ Hf2)
    |rewrite (byte_at_missing _ _ _ Hf2); by right; left].
  simpl. destruct (Nat.eqb_spec h v2) as [<-|]; simpl; [|by left].
  rewrite Ha. simpl.
  destruct (field m 3) as [v3|] eqn:Hf3;
    [rewrite (byte_at_field _ _ _ _ Hf3)
    |rewrite (byte_at_missing _ _ _ Hf3); by right; left].
  simpl. destruct (Nat.eqb_spec a v3) as [<-|]; simpl; [|by left].
  rewrite Hk. simpl.
  destruct (field m 4) as [v4|] eqn:Hf4;
    [rewrite (byte_at_field _ _ _ _ Hf4)
    |rewrite (byte_at_missing _ _ _ Hf4); by right; left].
  simpl. destruct (Nat.eqb_spec k v4) as [<-|]; simpl; [|by left].
  right. right. done.
Qed.

(** Lines 68-73 on an idle or collecting decoder: they raise
    [IndexError], or the message has its four header bytes and the
    decoder goes on with the context it had, which then is one for
    this station and header, or with a new one. *)
Lemma select_context_cases st m (d : t C) :
  ready d →
  (∃ d', select_context st m d = (Raise IndexError_range, d')) ∨
  (∃ n h a k, field m 1 = Some n ∧ field m 2 = Some h ∧
              field m 3 = Some a ∧ field m 4 = Some k ∧
     ((select_context st m d = (Return tt, d) ∧ station d = Some st ∧
       header_attrs d = (Some n, Some h, Some a, Some k) ∧ collecting d) ∨
      select_context st m d = (Return tt, fresh_context st n h a k (finished d)))).
Proof.
  intros [Hidle|Hcoll].
  - rewrite select_context_idle by done.
    destruct (update_info_cases st m d) as [(n & h & a & k & ? & ? & ? & ? & ->)|[d' ->]].
    + right. exists n, h, a, k. repeat (split; [done|]). by right.
    + left. by exists d'.
  - pose proof Hcoll as (s0 & n0 & h0 & a0 & k0 & bits & slots
                         & Hs & Hn & Hh & Ha & Hk & _).
    assert (select_context st m d
            = match check_info st m d with
              | (Return ok, d1) =>
                  (if negb ok then reset ;;; update_info st m else ret tt) d1
              | (Raise e, d1) => (Raise e, d1)
              end) as ->.
    { unfold select_context. unfold bind at 1. unfold gets. cbv beta iota.
      by rewrite Hs. }
    destruct (check_info_cases st m d s0 n0 h0 a0 k0 Hs Hn Hh Ha Hk)
      as [Hc|[Hc|(-> & Hf1 & Hf2 & Hf3 & Hf4 & Hc)]]; rewrite Hc; cbv beta iota.
    + change ((if negb false then reset ;;; update_info st m else ret tt) d)
        with (update_info st m (set_station None d)).
      destruct (update_info_cases st m (set_station None d))
        as [(n & h & a & k & ? & ? & ? & ? & ->)|[d' ->]].
      * right. exists n, h, a, k. repeat (split; [done|]). by right.
      * left. by exists d'.
    + left. by exists d.
    + right. exists n0, h0, a0, k0. repeat (split; [done|]). left.
      split; [done|]. split; [done|]. split; [|done].
      unfold header_attrs. by rewrite Hn, Hh, Ha, Hk.
Qed.

(** *** Messages that end inside the header *)

Lemma parse_short st m (d : t C) :
  ready d → length m ≤ 5 → ∃ d', parse st m d = (Raise IndexError_range, d').
Proof.
  intros Hready Hlen.
  assert (field m 5 = None) as Hf5.
  { unfold field. by rewrite lookup_ge_None_2 by lia. }
  assert (∀ d1 : t C, store_fragment st m d1 = (Raise IndexError_range, d1)) as Hstore.
  { intros d1. unfold store_fragment. unfold bind at 1.
    by rewrite (byte_at_missing _ _ _ Hf5). }
  unfold parse. unfold bind at 1.
  destruct (select_context_cases st m d Hready)
    as [[d' ->]|(n & h & a & k & _ & _ & _ & _ & [[-> _]| ->])].
  - by exists d'.
  - rewrite Hstore. by eexists.
  - rewrite Hstore. by eexists.
Qed.

(** A message of at most five bytes ends before its [fragment_index]
    byte.  On a decoder that is idle or collecting, [parse] raises
    [IndexError] for it and does not call the [finished] signal. *)
Theorem parse_short_message st m (d : t C) :
  ready d → length m ≤ 5 →
  ∃ d', parse st m d = (Raise IndexError_range, d') ∧ finished d' = finished d.
Proof.
  intros Hready Hlen. destruct (parse_short st m d Hready Hlen) as [d' Hparse].
  exists d'. split; [done|].
  destruct (parse_signals_once st m d) as [Hlog|(? & ? & ? & _ & _ & _ & Hret)];
    rewrite Hparse in *; [done|discriminate Hret].
Qed.

(** *** A fragment that arrives again *)

(** What a normal return of lines 75-95 that leaves the decoder
    collecting tells about the decoder. *)
Lemma store_fragment_Return st m (d d' : t C) :
  store_fragment st m d = (Return tt, d') → station d' ≠ None →
  station d' = station d ∧ header_attrs d' = header_attrs d ∧
  ∃ bits fi, fragments_received d' = Some bits ∧ field m 5 = Some fi ∧
             bits !! fi = Some true.
Proof.
  intros Hstore Hbusy.
  pose proof (store_fragment_keeps_header st m d) as Hhdr.
  rewrite Hstore in Hhdr. simpl in Hhdr. split; [|split; [done|]].
  - unfold store_fragment in Hstore.
    apply bind_Return_inv in Hstore as (fi & dA & Hb & Hstore).
    apply byte_at_Return_inv in Hb as [Hf5 ->].
    apply bind_Return_inv in Hstore as (bits & dA & Hb & Hstore).
    apply attr_Return_inv in Hb as [Hbits ->].
    apply bind_Return_inv in Hstore as (seen & dA & Hb & Hstore).
    apply lift_opt_Return_inv in Hb as [Hseen ->].
    destruct seen; simpl in Hstore; [by injection Hstore as <-|].
    apply bind_Return_inv in Hstore as (bits' & dA & Hb & Hstore).
    apply attr_Return_inv in Hb as [Hbits' ->].
    apply bind_Return_inv in Hstore as (? & dA & Hb & Hstore).
    apply lift_opt_Return_inv in Hb as [_ ->].
    apply bind_Return_inv in Hstore as ([] & d2 & Hm & Hstore).
    injection Hm as <-.
    apply bind_Return_inv in Hstore as (fl & dA & Hb & Hstore).
    apply byte_at_Return_inv in Hb as [_ ->].
    apply bind_Return_inv in Hstore as (fo & dA & Hb & Hstore).
    apply byte_at_Return_inv in Hb as [_ ->].
    apply bind_Return_inv in Hstore as ([] & d3 & Hloop & Hstore).
    assert (station d3 = station d) as Hst3.
    { pose proof (keeps_for_each station (seq 0 fl) (store_record m fo)
                    (λ i, store_record_keeps station m fo i (λ _ _, eq_refl))
                    (set_fragments_received (Some (<[fi := true]> bits')) d)) as Hk.
      by rewrite Hloop in Hk. }
    apply bind_Return_inv in Hstore as (slots & dA & Hb & Hstore).
    apply attr_Return_inv in Hb as [_ ->].
    destruct (all_infos slots); [|by injection Hstore as <-].
    apply bind_Return_inv in Hstore as (h & dA & Hb & Hstore).
    apply attr_Return_inv in Hb as [_ ->].
    apply bind_Return_inv in Hstore as (a & dA & Hb & Hstore).
    apply attr_Return_inv in Hb as [_ ->].
    apply bind_Return_inv in Hstore as (slots' & dA & Hb & Hstore).
    apply attr_Return_inv in Hb as [_ ->].
    apply bind_Return_inv in Hstore as ([] & d4 & Hm & Hstore).
    injection Hstore as <-. done.
  - unfold store_fragment in Hstore.
    apply bind_Return_inv in Hstore as (fi & dA & Hb & Hstore).
    apply byte_at_Return_inv in Hb as [Hf5 ->].
    apply bind_Return_inv in Hstore as (bits & dA & Hb & Hstore).
    apply attr_Return_inv in Hb as [Hbits ->].
    apply bind_Return_inv in Hstore as (seen & dA & Hb & Hstore).
    apply lift_opt_Return_inv in Hb as [Hseen ->].
    destruct seen; simpl in Hstore.
    { injection Hstore as <-. by exists bits, fi. }
    apply bind_Return_inv in Hstore as (bits' & dA & Hb & Hstore).
    apply attr_Return_inv in Hb as [Hbits' ->].
    apply bind_Return_inv in Hstore as (? & dA & Hb & Hstore).
    apply lift_opt_Return_inv in Hb as [_ ->].
    apply bind_Return_inv in Hstore as ([] & d2 & Hm & Hstore).
    injection Hm as <-.
    apply bind_Return_inv in Hstore as (fl & dA & Hb & Hstore).
    apply byte_at_Return_inv in Hb as [_ ->].
    apply bind_Return_inv in Hstore as (fo & dA & Hb & Hstore).
    apply byte_at_Return_inv in Hb as [_ ->].
    apply bind_Return_inv in Hstore as ([] & d3 & Hloop & Hstore).
    assert (fragments_received d3 = Some (<[fi := true]> bits')) as Hbits3.
    { pose proof (keeps_for_each fragments_received (seq 0 fl) (store_record m fo)
                    (λ i, store_record_keeps fragments_received m fo i (λ _ _, eq_refl))
                    (set_fragments_received (Some (<[fi := true]> bits')) d)) as Hk.
      by rewrite Hloop in Hk. }
    assert (<[fi := true]> bits' !! fi = Some true) as Hset.
    { apply list_lookup_insert_eq. rewrite Hbits in Hbits'. injection Hbits' as <-.
      by eapply lookup_lt_Some. }
    apply bind_Return_inv in Hstore as (slots & dA & Hb & Hstore).
    apply attr_Return_inv in Hb as [_ ->].
    destruct (all_infos slots).
    2:{ injection Hstore as <-. by exists (<[fi := true]> bits'), fi. }
    apply bind_Return_inv in Hstore as (h & dA & Hb & Hstore).
    apply attr_Return_inv in Hb as [_ ->].
    apply bind_Return_inv in Hstore as (a & dA & Hb & Hstore).
    apply attr_Return_inv in Hb as [_ ->].
    apply bind_Return_inv in Hstore as (slots' & dA & Hb & Hstore).
    apply attr_Return_inv in Hb as [_ ->].
    apply bind_Return_inv in Hstore as ([] & d4 & Hm & Hstore).
    injection Hstore as <-. done.
Qed.

(** A fragment that is delivered a second time is ignored.  If [parse]
    of a message returns on an idle or collecting decoder and does not
    complete the list, then [parse] of the same message from the same
    station returns again and leaves the decoder exactly as it is. *)
Theorem parse_repeated_fragment st m (d d' : t C) :
  ready d → parse st m d = (Return tt, d') → station d' ≠ None →
  parse st m d' = (Return tt, d').
Proof.
  intros Hready Hparse Hbusy.
  unfold parse in Hparse. apply bind_Return_inv in Hparse as ([] & d1 & Hsel & Hstore).
  destruct (select_context_cases st m d Hready)
    as [[dx Hx]|(n & h & a & k & Hf1 & Hf2 & Hf3 & Hf4 & Hcase)]; [congruence|].
  assert (station d1 = Some st ∧ header_attrs d1 = (Some n, Some h, Some a, Some k))
    as [Hst1 Hhdr1].
  { destruct Hcase as [(Hsel' & ? & ? & ?)|Hsel']; rewrite Hsel' in Hsel;
      by injection Hsel as <-. }
  destruct (store_fragment_Return st m d1 d' Hstore Hbusy)
    as (Hst' & Hhdr' & bits & fi & Hbits & Hf5 & Hseen).
  rewrite Hst1 in Hst'. rewrite Hhdr1 in Hhdr'.
  unfold header_attrs in Hhdr'. injection Hhdr' as Hn Hh Ha Hk.
  rewrite (parse_after_select d' d' st m).
  - by apply (store_fragment_seen d' st m bits fi).
  - rewrite (select_context_collecting d' st m st n h a k n h a k) by done.
    by rewrite bool_decide_eq_true_2.
Qed.

(** *** A response that announces no station *)

(** A fragment whose header announces zero stations, and which carries
    no record, completes the list at once: on an idle decoder [parse]
    calls [finished] with the empty list and leaves the decoder idle. *)
Theorem parse_zero_stations st m (d : t C) h a k fi fo :
  station d = None →
  field m 1 = Some 0 → field m 2 = Some h → field m 3 = Some a →
  field m 4 = Some k → field m 5 = Some fi → field m 6 = Some 0 →
  field m 7 = Some fo → fi < k →
  ∃ d', parse st m d = (Return tt, d') ∧
        finished d' = finished d ++ [mk_finished st h a []] ∧
        station d' = None.
Proof.
  intros Hidle Hf1 Hf2 Hf3 Hf4 Hf5 Hf6 Hf7 Hfi.
  rewrite (parse_after_select d (fresh_context st 0 h a k (finished d)) st m).
  2:{ rewrite select_context_idle by done. by apply update_info_header. }
  rewrite (store_fragment_new _ st m (replicate k false) [] h a fi fo []); try done.
  - eexists. split; [reflexivity|]. done.
  - by apply lookup_replicate_2.
Qed.

End Decoder_more.

Lemma parse_short_message_witness :
  ∃ d', JoinResponseDecoder.parse (C:=byte) 1 [Byte.x02; Byte.x01; Byte.x00]
          JoinResponseDecoder.init = (Raise IndexError_range, d') ∧
        JoinResponseDecoder.finished d' = [].
Proof.
  apply (parse_short_message 1 [Byte.x02; Byte.x01; Byte.x00] JoinResponseDecoder.init).
  - left. reflexivity.
  - simpl. lia.
Defined.

Lemma parse_repeated_fragment_witness :
  let m := [Byte.x02; Byte.x02; Byte.x00; Byte.x01; Byte.x02; Byte.x00; Byte.x01;
            Byte.x00; Byte.x2a; Byte.x00; Byte.x00] in
  let d' := (JoinResponseDecoder.parse (C:=byte) 1 m JoinResponseDecoder.init).2 in
  JoinResponseDecoder.parse 1 m d' = (Return tt, d').
Proof.
  intros m d'.
  apply (parse_repeated_fragment 1 m JoinResponseDecoder.init d').
  - left. reflexivity.
  - vm_compute. reflexivity.
  - vm_compute. discriminate.
Defined.

Lemma parse_zero_stations_witness :
  ∃ d', JoinResponseDecoder.parse (C:=byte) 1
          [Byte.x02; Byte.x00; Byte.x00; Byte.x01; Byte.x01; Byte.x00; Byte.x00; Byte.x00]
          JoinResponseDecoder.init = (Return tt, d') ∧
        JoinResponseDecoder.finished d'
        = [JoinResponseDecoder.mk_finished 1 0 1 []] ∧
        JoinResponseDecoder.station d' = None.
Proof.
  apply (parse_zero_stations 1
           [Byte.x02; Byte.x00; Byte.x00; Byte.x01; Byte.x01; Byte.x00; Byte.x00; Byte.x00]
           JoinResponseDecoder.init 0 1 1 0 0); try reflexivity.
  lia.
Defined.

(** ** Bytes that do not fit *)

Lemma bytes_of_out_of_range {S} (xs : list Z) (x : Z) (s : S) :
  x ∈ xs → ¬ (0 ≤ x < 256)%Z → bytes_of xs s = (Raise ValueError_byte, s).
Proof.
  intros Hin Hx. unfold bytes_of.
  destruct (mapM _ xs) as [bs|] eqn:Hbs; [|done].
  exfalso.
  assert (is_Some (mapM (λ x : Z, if decide (0 ≤ x)%Z
                                  then Byte.of_nat (Z.to_nat x) else None) xs))
    as Hsome by (by rewrite Hbs).
  apply mapM_is_Some in Hsome.
  rewrite Forall_forall in Hsome. destruct (Hsome x Hin) as [b Hb]. simpl in Hb.
  destruct (decide (0 ≤ x)%Z) as [Hpos|]; [|done].
  assert (Byte.of_nat (Z.to_nat x) = None) as Hnone.
  { apply Byte.of_nat_None_iff. lia. }
  congruence.
Qed.

(** ** StationInfo: an index that is not a byte *)

Section StationInfo_bounds.
Context {C : Type} `{ConnectionInfo C}.

(** [serialize] does not truncate the index: a record whose index is
    256 or more has no wire form, [serialize] raises [ValueError]. *)
Theorem serialize_index_too_large {S} (r : StationInfo.t C) (s : S) :
  256 ≤ StationInfo.index r →
  StationInfo.serialize r s = (Raise ValueError_byte, s).
Proof.
  intros Hidx. unfold StationInfo.serialize. unfold bind at 1.
  rewrite (bytes_of_out_of_range _ (Z.of_nat (StationInfo.index r))); [done| |lia].
  apply list_elem_of_here.
Qed.

End StationInfo_bounds.

Lemma serialize_index_too_large_witness :
  StationInfo.serialize (StationInfo.mk Byte.x2a 300) tt = (Raise ValueError_byte, tt).
Proof.
  apply (serialize_index_too_large (StationInfo.mk Byte.x2a 300) tt). simpl. lia.
Defined.

(** ** MeshProtocol: what is sent *)

Section Protocol_sending.
Context {C : Type} `{ConnectionInfoLaws C}.

Lemma send_deny_join_run (p : MeshProtocol.t) st (reason : nat) :
  reason < 256 →
  MeshProtocol.send_deny_join st (Z.of_nat reason) p
  = (Return tt,
     MeshProtocol.mk (MeshProtocol.size_limit p)
       (MeshProtocol.outbox p ++
        [MeshProtocol.mk_sent st (byte_of <$> [2; 0; 255; 255; reason]) 0 false;
         MeshProtocol.mk_sent st (byte_of <$> [2; 0; 255; 255; reason]) 8 false])
       (MeshProtocol.sliding_windows p)).
Proof.
  intros Hreason. unfold MeshProtocol.send_deny_join. unfold bind at 1.
  change [MeshProtocol.MESSAGE_JOIN_RESPONSE; 0%Z; 255%Z; 255%Z; Z.of_nat reason]
    with (Z.of_nat <$> [2; 0; 255; 255; reason]).
  rewrite bytes_of_ok.
  2:{ repeat (apply Forall_cons; split; [lia|]). by apply Forall_nil. }
  unfold MeshProtocol.send, bind, modify. simpl. by rewrite <- app_assoc.
Qed.

(** [send_deny_join] hands two messages to the transport, not to the
    resender: both carry the five bytes 02 00 ff ff and the reason, the
    first with flags 0 and the second with flags 8.  A reason that is
    not a byte raises [ValueError] and nothing is sent. *)
Theorem send_deny_join_messages (p : MeshProtocol.t) st (reason : Z) :
  ((0 ≤ reason < 256)%Z →
     MeshProtocol.send_deny_join st reason p
     = (Return tt,
        MeshProtocol.mk (MeshProtocol.size_limit p)
          (MeshProtocol.outbox p ++
           [MeshProtocol.mk_sent st (byte_of <$> [2; 0; 255; 255; Z.to_nat reason]) 0 false;
            MeshProtocol.mk_sent st (byte_of <$> [2; 0; 255; 255; Z.to_nat reason]) 8 false])
          (MeshProtocol.sliding_windows p))) ∧
  (¬ (0 ≤ reason < 256)%Z →
     MeshProtocol.send_deny_join st reason p = (Raise ValueError_byte, p)).
Proof.
  split; intros Hreason.
  - destruct (Z_of_nat_complete reason) as [r ->]; [lia|]. rewrite Nat2Z.id.
    apply send_deny_join_run. lia.
  - unfold MeshProtocol.send_deny_join. unfold bind at 1.
    rewrite (bytes_of_out_of_range _ reason); [done| |done].
    do 4 apply list_elem_of_further. apply list_elem_of_here.
Qed.

Lemma infosize_rounded :
  MeshProtocol.infosize = (4 * ((Z.of_nat ci_sizeof + 4) / 4))%Z.
Proof.
  unfold MeshProtocol.infosize.
  rewrite <- Z.ldiff_land. change 3%Z with (Z.ones 2).
  rewrite Z.ldiff_ones_r by lia.
  rewrite Z.shiftr_div_pow2, Z.shiftl_mul_pow2 by lia. change (2 ^ 2)%Z with 4%Z. lia.
Qed.

Lemma infosize_covers_record :
  ci_sizeof mod 4 ≠ 3 → (Z.of_nat StationInfo.sizeof ≤ MeshProtocol.infosize)%Z.
Proof.
  intros Hs. rewrite infosize_rounded. unfold StationInfo.sizeof.
  pose proof (Nat.div_mod_eq ci_sizeof 4) as Hdm.
  pose proof (Nat.mod_upper_bound ci_sizeof 4 ltac:(lia)) as Hub.
  assert (((Z.of_nat ci_sizeof + 4) / 4 = Z.of_nat (ci_sizeof / 4) + 1)%Z) as ->.
  { symmetry. apply (Z.div_unique _ _ _ (Z.of_nat (ci_sizeof mod 4))); lia. }
  lia.
Qed.

Lemma length_record_bytes (r : StationInfo.t C) :
  length (record_bytes r) = StationInfo.sizeof.
Proof.
  unfold record_bytes, StationInfo.sizeof.
  rewrite length_app, ci_serialize_length. done.
Qed.

Lemma length_fragment_payload (L : list (StationInfo.t C)) h a k i len off :
  length (fragment_payload L h a k i len off)
  = 8 + length (take len (drop off L)) * StationInfo.sizeof.
Proof.
  unfold fragment_payload. rewrite length_app, length_fmap.
  change (length [2; length L; h; a; k; i; len; off]) with 8. f_equal.
  generalize (take len (drop off L)). intros l.
  induction l as [|r l IH]; [done|].
  change (concat (record_bytes <$> r :: l))
    with (record_bytes r ++ concat (record_bytes <$> l)).
  rewrite length_app, length_record_bytes, IH. simpl. lia.
Qed.

(** The packets of a join response respect the size limit they were cut
    for.  When the descriptor size is not 3 modulo 4, so that the
    [infosize] of line 218 is not smaller than a serialized record,
    every packet [send_join_response] hands over is at most
    [size_limit() - 4] bytes long. *)
Theorem join_response_packets_fit (p : MeshProtocol.t) st (a h : nat)
    (L : list (StationInfo.t C)) :
  let per_packet := ((MeshProtocol.size_limit p - 0xC) / MeshProtocol.infosize)%Z in
  0 < length L < 256 → (0 < per_packet)%Z → h < 256 → a < 256 →
  Forall (λ r, StationInfo.index r < 256) L →
  ci_sizeof mod 4 ≠ 3 →
  ∃ packets : list (list byte),
    MeshProtocol.send_join_response st (Z.of_nat a) (Z.of_nat h) L p
    = (Return tt,
       MeshProtocol.mk (MeshProtocol.size_limit p)
         (MeshProtocol.outbox p ++
          ((λ data, MeshProtocol.mk_sent st data 0 true) <$> packets))
         (MeshProtocol.sliding_windows p)) ∧
    Forall (λ data, (Z.of_nat (length data) ≤ MeshProtocol.size_limit p - 4)%Z) packets.
Proof.
  intros per_packet Hn Hp Hh Ha Hidx Hsize.
  set (pp := Z.to_nat per_packet).
  assert (per_packet = Z.of_nat pp) as HppZ by lia.
  assert (0 < pp) as Hpp by lia.
  set (cnt := (length L + pp - 1) / pp).
  set (payload := λ i, fragment_payload L h a cnt i (min (length L - i * pp) pp) (i * pp)).
  exists (payload <$> seq 0 cnt). split.
  { rewrite (send_join_response_run p st a h L pp) by (done || lia).
    fold cnt. by rewrite <- list_fmap_compose. }
  apply Forall_fmap, Forall_forall. intros i _.
  unfold compose, payload. cbv beta. rewrite length_fragment_payload.
  pose proof (infosize_covers_record Hsize) as Hrec.
  assert (length (take (min (length L - i * pp) pp) (drop (i * pp) L)) ≤ pp) as Hlen.
  { rewrite length_take. lia. }
  assert (0 < MeshProtocol.infosize)%Z as Hpos.
  { unfold StationInfo.sizeof in Hrec. lia. }
  pose proof (Z.mul_div_le (MeshProtocol.size_limit p - 0xC) MeshProtocol.infosize Hpos)
    as Hfloor.
  fold per_packet in Hfloor. rewrite HppZ in Hfloor.
  nia.
Qed.

(** Nothing to send, and nothing that fits.  With room for at least one
    record per packet, an empty station list makes [send_join_response]
    return without sending anything.  With room for none, that is when
    [(size_limit() - 12) // infosize] is zero, it raises
    [ZeroDivisionError] for every station list, again without sending. *)
Theorem send_join_response_degenerate (p : MeshProtocol.t) st (a h : Z) :
  let per_packet := ((MeshProtocol.size_limit p - 0xC) / MeshProtocol.infosize)%Z in
  ((0 < per_packet)%Z →
     MeshProtocol.send_join_response (C:=C) st a h [] p = (Return tt, p)) ∧
  (per_packet = 0%Z →
     ∀ L : list (StationInfo.t C),
       MeshProtocol.send_join_response st a h L p = (Raise ZeroDivisionError, p)).
Proof.
  intros per_packet. split.
  - intros Hp.
    assert (MeshProtocol.infosize ≠ 0%Z) as Hne.
    { intros Hzero. unfold per_packet in Hp. rewrite Hzero, Z.div_0_r in Hp. lia. }
    unfold MeshProtocol.send_join_response. unfold bind at 1. unfold gets.
    cbv beta iota. unfold floordiv.
    destruct (decide (MeshProtocol.infosize = 0%Z)) as [|_]; [done|].
    unfold bind at 1. unfold ret at 1. fold per_packet.
    destruct (decide (per_packet = 0%Z)) as [|_]; [lia|].
    unfold bind, ret.
    change (Z.of_nat (length (@nil (StationInfo.t C)))) with 0%Z.
    rewrite Z.add_0_l, (Z.div_small (per_packet - 1) per_packet) by lia.
    done.
  - intros Hp L.
    unfold MeshProtocol.send_join_response. unfold bind at 1. unfold gets.
    cbv beta iota. unfold floordiv.
    destruct (decide (MeshProtocol.infosize = 0%Z)) as [|_]; [done|].
    unfold bind at 1. unfold ret at 1. fold per_packet.
    by destruct (decide (per_packet = 0%Z)).
Qed.

End Protocol_sending.

Lemma send_deny_join_messages_witness :
  MeshProtocol.send_deny_join 7 2 demo_protocol
  = (Return tt,
     MeshProtocol.mk 20
       [MeshProtocol.mk_sent 7 [Byte.x02; Byte.x00; Byte.xff; Byte.xff; Byte.x02] 0 false;
        MeshProtocol.mk_sent 7 [Byte.x02; Byte.x00; Byte.xff; Byte.xff; Byte.x02] 8 false]
       (replicate 32 None)) ∧
  MeshProtocol.send_deny_join 7 256 demo_protocol = (Raise ValueError_byte, demo_protocol).
Proof.
  split.
  - apply (proj1 (send_deny_join_messages demo_protocol 7 2)). lia.
  - apply (proj2 (send_deny_join_messages demo_protocol 7 256)). lia.
Defined.

Lemma join_response_packets_fit_witness :
  let L := [StationInfo.mk Byte.x0a 0; StationInfo.mk Byte.x0b 1;
            StationInfo.mk Byte.x0c 2; StationInfo.mk Byte.x0d 3;
            StationInfo.mk Byte.x0e 4] in
  ∃ packets : list (list byte),
    MeshProtocol.send_join_response 7 5 0 L demo_protocol
    = (Return tt,
       MeshProtocol.mk 20
         ((λ data, MeshProtocol.mk_sent 7 data 0 true) <$> packets)
         (replicate 32 None)) ∧
    Forall (λ data, (Z.of_nat (length data) ≤ 20 - 4)%Z) packets.
Proof.
  intros L.
  apply (join_response_packets_fit demo_protocol 7 5 0 L).
  - simpl. lia.
  - vm_compute. reflexivity.
  - lia.
  - lia.
  - repeat (apply Forall_cons; split; [simpl; lia|]). by apply Forall_nil.
  - vm_compute. discriminate.
Defined.

Lemma send_join_response_degenerate_witness :
  MeshProtocol.send_join_response (C:=byte) 7 5 0 [] demo_protocol
  = (Return tt, demo_protocol) ∧
  MeshProtocol.send_join_response 7 5 0 [StationInfo.mk Byte.x0a 0]
    (MeshProtocol.mk 14 [] (replicate 32 None))
  = (Raise ZeroDivisionError, MeshProtocol.mk 14 [] (replicate 32 None)).
Proof.
  split.
  - apply (proj1 (send_join_response_degenerate demo_protocol 7 5 0)).
    vm_compute. reflexivity.
  - apply (proj2 (send_join_response_degenerate
                    (MeshProtocol.mk 14 [] (replicate 32 None)) 7 5 0)).
    vm_compute. reflexivity.
Defined.

(** ** MeshProtocol: what arrives *)

#[local] Instance unary_address_laws : AddressCodecLaws MeshMgr.StationAddress.
Proof. split. intros [n]. simpl. by rewrite length_replicate. Qed.

Lemma field_byte_of (xs : list nat) i x :
  xs !! i = Some x → x < 256 → field (byte_of <$> xs) i = Some x.
Proof.
  intros Hi Hx. unfold field. rewrite list_lookup_fmap, Hi. simpl.
  by rewrite byte_of_to_nat.
Qed.

Lemma field_app_l (l1 l2 : list byte) i :
  i < length l1 → field (l1 ++ l2) i = field l1 i.
Proof. intros Hi. unfold field. by rewrite lookup_app_l. Qed.

Section Handlers_facts.
Context {C : Type} `{ConnectionInfoLaws C} {A : Type} `{AddressCodecLaws A}.

Abbreviation receiver := (MeshProtocol.receiver C A).

Lemma handle_unreliable (r : receiver) st index msg :
  MeshProtocol.protocol_port msg = 0%Z →
  MeshProtocol.handle st index msg r
  = MeshProtocol.handle_message st (MeshProtocol.payload msg) r.
Proof.
  intros Hport. unfold MeshProtocol.handle.
  by destruct (decide (MeshProtocol.protocol_port msg = MeshProtocol.PORT_UNRELIABLE)).
Qed.

Lemma handle_message_dispatch (r : receiver) st m ty handler :
  field m 0 = Some ty → MeshProtocol.handlers ty = Some handler →
  MeshProtocol.handle_message st m r = handler st m r.
Proof.
  intros Hty Hhandler. unfold MeshProtocol.handle_message. unfold bind at 1.
  rewrite (byte_at_field _ _ _ _ Hty). unfold bind at 1. by rewrite Hhandler.
Qed.

(** A message for a port other than 0 and 1 is not logged and dropped:
    formatting the warning raises [NameError], because it names
    [packet].  On the reliable port, a message from a station whose
    index is 0xFD is dropped and changes nothing, one from a station
    that has a sliding window is handed to that window, and one from a
    station without a window raises [AttributeError], or [IndexError]
    when the index is outside the table. *)
Theorem handle_ports (r : receiver) st index msg :
  let port := MeshProtocol.protocol_port msg in
  let windows := MeshProtocol.sliding_windows (MeshProtocol.core r) in
  (port ≠ 0%Z → port ≠ 1%Z →
     MeshProtocol.handle st index msg r = (Raise (NameError "packet"), r)) ∧
  (port = 1%Z → index = 0xFD → MeshProtocol.handle st index msg r = (Return tt, r)) ∧
  (port = 1%Z → index ≠ 0xFD → ∀ w, windows !! index = Some (Some w) →
     MeshProtocol.handle st index msg r
     = (Return tt,
        MeshProtocol.set_window_handled
          (MeshProtocol.window_handled r ++ [(index, msg)]) r)) ∧
  (port = 1%Z → index ≠ 0xFD → windows !! index = Some None →
     MeshProtocol.handle st index msg r = (Raise (AttributeError "handle"), r)) ∧
  (port = 1%Z → index ≠ 0xFD → windows !! index = None →
     MeshProtocol.handle st index msg r = (Raise IndexError_range, r)).
Proof.
  intros port windows. unfold MeshProtocol.handle.
  unfold MeshProtocol.PORT_UNRELIABLE, MeshProtocol.PORT_RELIABLE. fold port.
  repeat split.
  - intros H0' H1'. by repeat case_decide.
  - intros -> ->. repeat case_decide; done.
  - intros -> Hidx w Hw. repeat case_decide; try done.
    destruct (Nat.eqb_spec index 253) as [|_]; [done|].
    mstep. fold windows. by rewrite Hw.
  - intros -> Hidx Hw. repeat case_decide; try done.
    destruct (Nat.eqb_spec index 253) as [|_]; [done|].
    mstep. fold windows. by rewrite Hw.
  - intros -> Hidx Hw. repeat case_decide; try done.
    destruct (Nat.eqb_spec index 253) as [|_]; [done|].
    mstep. fold windows. by rewrite Hw.
Qed.

(** [handle_message] has a handler for the message types 1, 2 and 0x20
    only: a payload that starts with another byte raises [KeyError],
    and an empty payload raises [IndexError].  Nothing is acknowledged,
    signalled or changed in either case. *)
Theorem handle_message_unhandled (r : receiver) st m :
  (m = [] → MeshProtocol.handle_message st m r = (Raise IndexError_range, r)) ∧
  (∀ ty, field m 0 = Some ty → ty ≠ 1 → ty ≠ 2 → ty ≠ 0x20 →
         MeshProtocol.handle_message st m r = (Raise (KeyError ty), r)).
Proof.
  split.
  - intros ->. reflexivity.
  - intros ty Hty H1' H2' H3'. unfold MeshProtocol.handle_message. unfold bind at 1.
    rewrite (byte_at_field _ _ _ _ Hty). unfold bind at 1.
    unfold MeshProtocol.handlers, MeshProtocol.MESSAGE_JOIN_REQUEST,
      MeshProtocol.MESSAGE_JOIN_RESPONSE, MeshProtocol.MESSAGE_UPDATE_MESH.
    repeat case_decide; try lia. done.
Qed.

(** *** Denials *)

Lemma handle_join_response_denial (r : receiver) st m reason :
  field m 1 = Some 0 → field m 4 = Some reason →
  MeshProtocol.handle_join_response st m r
  = (Return tt,
     MeshProtocol.set_on_join_denied (MeshProtocol.on_join_denied r ++ [(st, reason)]) r).
Proof.
  intros Hf1 Hf4. unfold MeshProtocol.handle_join_response. unfold bind at 1.
  rewrite (byte_at_field _ _ _ _ Hf1). simpl. unfold bind at 1.
  by rewrite (byte_at_field _ _ _ _ Hf4).
Qed.

Lemma handle_denial (r : receiver) to from index fl (reason : nat) :
  reason < 256 →
  MeshProtocol.handle from index
    (MeshProtocol.message_of
       (MeshProtocol.mk_sent to (byte_of <$> [2; 0; 255; 255; reason]) fl false)) r
  = (Return tt,
     MeshProtocol.set_on_join_denied
       (MeshProtocol.on_join_denied r ++ [(from, reason)]) r).
Proof.
  intros Hreason. rewrite handle_unreliable by done.
  unfold MeshProtocol.message_of. cbn [MeshProtocol.payload MeshProtocol.s_payload].
  rewrite (handle_message_dispatch r from _ 2 MeshProtocol.handle_join_response);
    [|apply field_byte_of; [done|lia]|done].
  apply handle_join_response_denial; (apply field_byte_of; [done|lia]).
Qed.

(** A denial that was sent is a denial when it arrives.  The two
    messages of [send_deny_join], handed to the [handle] of the
    receiving protocol object, each call [on_join_denied] with the
    sending station and the reason that was sent: the signal is called
    twice, nothing is acknowledged and the decoder is not touched. *)
Theorem deny_join_round_trip (p : MeshProtocol.t) (r : receiver) to from index
    (reason : nat) :
  reason < 256 →
  ∃ out,
    MeshProtocol.send_deny_join to (Z.of_nat reason) p
    = (Return tt,
       MeshProtocol.mk (MeshProtocol.size_limit p) (MeshProtocol.outbox p ++ out)
         (MeshProtocol.sliding_windows p)) ∧
    length out = 2 ∧
    deliver from index out r
    = (Return tt,
       MeshProtocol.set_on_join_denied
         (MeshProtocol.on_join_denied r ++ [(from, reason); (from, reason)]) r).
Proof.
  intros Hreason. eexists. split; [by apply send_deny_join_run|]. split; [done|].
  unfold deliver. cbn [for_each]. unfold bind at 1.
  rewrite handle_denial by done. unfold bind at 1.
  rewrite handle_denial by done. unfold ret.
  destruct r. cbn. by rewrite <- app_assoc.
Qed.

(** *** Join requests *)

Lemma send_join_request_run (p : MeshProtocol.t) host (idx : nat) (addr : A) :
  idx < 256 →
  MeshProtocol.send_join_request host idx addr p
  = (Return tt,
     MeshProtocol.mk (MeshProtocol.size_limit p)
       (MeshProtocol.outbox p ++
        [MeshProtocol.mk_sent host ((byte_of <$> [1; idx; 0; 0]) ++ addr_serialize addr)
           0 true])
       (MeshProtocol.sliding_windows p)).
Proof.
  intros Hidx. unfold MeshProtocol.send_join_request. unfold bind at 1.
  change [MeshProtocol.MESSAGE_JOIN_REQUEST; Z.of_nat idx; 0%Z; 0%Z]
    with (Z.of_nat <$> [1; idx; 0; 0]).
  rewrite bytes_of_ok.
  2:{ repeat (apply Forall_cons; split; [lia|]). by apply Forall_nil. }
  reflexivity.
Qed.

(** A join request that was sent is a join request when it arrives.
    [send_join_request] hands one message to the resender; the
    receiver's [handle] acknowledges that message and calls
    [on_join_request] with the sending station, the index the sender
    wrote and the address the sender serialized. *)
Theorem join_request_round_trip (p : MeshProtocol.t) (r : receiver) host from index
    (idx : nat) (addr : A) :
  idx < 256 →
  ∃ s,
    MeshProtocol.send_join_request host idx addr p
    = (Return tt,
       MeshProtocol.mk (MeshProtocol.size_limit p) (MeshProtocol.outbox p ++ [s])
         (MeshProtocol.sliding_windows p)) ∧
    MeshProtocol.s_station s = host ∧ MeshProtocol.s_ack s = true ∧
    MeshProtocol.handle from index (MeshProtocol.message_of s) r
    = (Return tt,
       MeshProtocol.set_on_join_request
         (MeshProtocol.on_join_request r ++ [(from, idx, addr)])
         (MeshProtocol.set_acks
            (MeshProtocol.acks r ++ [(from, MeshProtocol.s_payload s)]) r)).
Proof.
  intros Hidx. eexists. split; [by apply send_join_request_run|].
  split; [done|]. split; [done|].
  rewrite handle_unreliable by done.
  unfold MeshProtocol.message_of. cbn [MeshProtocol.payload MeshProtocol.s_payload].
  set (hdr := byte_of <$> [1; idx; 0; 0]).
  assert (field (hdr ++ addr_serialize addr) 0 = Some 1) as Hty.
  { rewrite field_app_l by (simpl; lia). apply field_byte_of; [done|lia]. }
  assert (field (hdr ++ addr_serialize addr) 1 = Some idx) as Hf1.
  { rewrite field_app_l by (simpl; lia). by apply field_byte_of. }
  rewrite (handle_message_dispatch r from _ 1 MeshProtocol.handle_join_request)
    by done.
  unfold MeshProtocol.handle_join_request. unfold bind at 1, lift_out.
  rewrite (drop_app_length' hdr (addr_serialize addr) 4) by done.
  rewrite addr_roundtrip. unfold bind at 1.
  rewrite (byte_at_field _ _ _ _ Hf1). reflexivity.
Qed.

(** *** Join responses *)

Lemma is_fragment_of_type (L : list (StationInfo.t C)) h a k f m :
  is_fragment_of L h a k f m → field m 0 = Some 2.
Proof.
  unfold is_fragment_of, MeshProtocol.build_fragment. unfold bind at 1.
  destruct (bytes_of _ tt) as [[hdr|e] []] eqn:Hhdr; [|done].
  apply bytes_of_inv in Hhdr as [_ Hhdr].
  apply Forall2_cons_inv_l in Hhdr as (b & rest & Hb & _ & ->).
  unfold py_range. rewrite Nat2Z.id. intros Hfold.
  apply (append_records_inv L (fragment_offs f)) in Hfold
    as (recs & body & _ & -> & _).
  unfold field. simpl. unfold MeshProtocol.MESSAGE_JOIN_RESPONSE in Hb.
  f_equal. lia.
Qed.

Lemma handle_fragment (r : receiver) to from index fl ack m n d1 :
  field m 0 = Some 2 → field m 1 = Some n → n ≠ 0 →
  JoinResponseDecoder.parse from m (MeshProtocol.join_response_decoder r)
  = (Return tt, d1) →
  MeshProtocol.handle from index
    (MeshProtocol.message_of (MeshProtocol.mk_sent to m fl ack)) r
  = (Return tt,
     MeshProtocol.set_join_response_decoder d1
       (MeshProtocol.set_acks (MeshProtocol.acks r ++ [(from, m)]) r)).
Proof.
  intros Hty Hf1 Hn Hparse. rewrite handle_unreliable by done.
  unfold MeshProtocol.message_of. cbn [MeshProtocol.payload MeshProtocol.s_payload].
  rewrite (handle_message_dispatch r from m 2 MeshProtocol.handle_join_response)
    by done.
  unfold MeshProtocol.handle_join_response. unfold bind at 1.
  rewrite (byte_at_field _ _ _ _ Hf1).
  destruct (Nat.eqb_spec n 0) as [|_]; [done|].
  unfold bind at 1, MeshProtocol.send_ack, modify, zoom. cbn.
  by rewrite Hparse.
Qed.

Lemma deliver_fragments to from index n :
  ∀ (msgs : list (list byte)) (r : receiver) d',
  Forall (λ m, field m 0 = Some 2 ∧ field m 1 = Some n) msgs → n ≠ 0 →
  JoinResponseDecoder.feed from msgs (MeshProtocol.join_response_decoder r)
  = (Return tt, d') →
  deliver from index ((λ m, MeshProtocol.mk_sent to m 0 true) <$> msgs) r
  = (Return tt,
     MeshProtocol.set_join_response_decoder d'
       (MeshProtocol.set_acks
          (MeshProtocol.acks r ++ ((λ m, (from, m)) <$> msgs)) r)).
Proof.
  induction msgs as [|m msgs IH]; intros r d' Hall Hn Hfeed.
  - injection Hfeed as <-. unfold deliver. simpl. unfold ret.
    destruct r. cbn. by rewrite app_nil_r.
  - apply Forall_cons in Hall as [[Hty Hf1] Hall].
    unfold JoinResponseDecoder.feed in Hfeed. cbn [for_each] in Hfeed.
    apply bind_Return_inv in Hfeed as ([] & d1 & Hparse & Hfeed).
    unfold deliver. rewrite fmap_cons. cbn [for_each]. unfold bind at 1.
    rewrite (handle_fragment r to from index 0 true m n d1) by done.
    change (deliver from index ((λ m, MeshProtocol.mk_sent to m 0 true) <$> msgs)
              (MeshProtocol.set_join_response_decoder d1
                 (MeshProtocol.set_acks (MeshProtocol.acks r ++ [(from, m)]) r))
            = (Return tt,
               MeshProtocol.set_join_response_decoder d'
                 (MeshProtocol.set_acks
                    (MeshProtocol.acks r ++ ((λ m, (from, m)) <$> m :: msgs)) r))).
    rewrite (IH _ d') by done.
    destruct r. cbn. by rewrite <- app_assoc.
Qed.

(** What [send_join_response] sends is a fragmentation of the list. *)
Lemma sent_fragmentation (p : MeshProtocol.t) to (a h : nat)
    (L : list (StationInfo.t C)) :
  let per_packet := ((MeshProtocol.size_limit p - 0xC) / MeshProtocol.infosize)%Z in
  0 < length L < 256 → (0 < per_packet)%Z → h < 256 → a < 256 →
  Forall (λ r, StationInfo.index r < 256) L →
  ∃ k (frs : list (fragment * list byte)),
    MeshProtocol.send_join_response to (Z.of_nat a) (Z.of_nat h) L p
    = (Return tt,
       MeshProtocol.mk (MeshProtocol.size_limit p)
         (MeshProtocol.outbox p ++
          ((λ fm : fragment * list byte, MeshProtocol.mk_sent to fm.2 0 true) <$> frs))
         (MeshProtocol.sliding_windows p)) ∧
    fragmentation L h a k frs ∧ frs ≠ [] ∧ covers (length L) frs.*1.
Proof.
  intros per_packet Hn Hp Hh Ha Hidx.
  set (n := length L) in *.
  set (pp := Z.to_nat per_packet).
  assert (per_packet = Z.of_nat pp) as HppZ by lia.
  assert (0 < pp) as Hpp by lia.
  set (cnt := (n + pp - 1) / pp).
  destruct (fragment_count_ceiling n pp) as (Hcnt0 & Hcntn & Hlast & Hall); [lia..|].
  fold cnt in Hcnt0, Hcntn, Hlast, Hall.
  assert (∀ i, i < cnt → i * pp < n) as Hoff.
  { intros i Hi. by eapply fragment_offset_lt. }
  set (range := λ i, mk_fragment i (i * pp) (min (n - i * pp) pp)).
  set (payload := λ i, fragment_payload L h a cnt i (min (n - i * pp) pp) (i * pp)).
  set (frs := (λ i, (range i, payload i)) <$> seq 0 cnt).
  assert (frs.*1 = range <$> seq 0 cnt) as Hfst.
  { unfold frs. by rewrite <- list_fmap_compose. }
  exists cnt, frs. split; [|split; [|split]].
  - rewrite (send_join_response_run p to a h L pp) by (done || lia).
    fold n cnt. unfold frs. by rewrite <- list_fmap_compose.
  - split.
    + unfold frs. apply Forall_fmap, Forall_forall. intros i Hi%elem_of_seq.
      unfold compose. cbn [fst snd]. split; [|unfold range; simpl; lia].
      unfold is_fragment_of, range, payload. cbn [fragment_index fragment_offs fragment_length].
      apply (build_fragment_ok (S:=unit)); try (done || lia).
      specialize (Hoff i). fold n. lia.
    + rewrite Hfst, <- list_fmap_compose.
      simpl. rewrite list_fmap_id. apply NoDup_seq.
  - intros Hnil. apply (f_equal length) in Hnil. unfold frs in Hnil.
    rewrite length_fmap, length_seq in Hnil. simpl in Hnil. lia.
  - intros j Hj. apply covered_elem_of.
    exists (range (j / pp)). split.
    + rewrite Hfst. apply list_elem_of_fmap. exists (j / pp). split; [done|].
      apply elem_of_seq.
      pose proof (Nat.div_mod_eq j pp). pose proof (Nat.mod_upper_bound j pp).
      split; [lia|]. simpl.
      destruct (decide (j / pp < cnt)) as [|Hge]; [done|].
      assert (cnt * pp ≤ (j / pp) * pp) by (apply Nat.mul_le_mono_r; lia). nia.
    + apply in_range_spec. simpl.
      pose proof (Nat.div_mod_eq j pp). pose proof (Nat.mod_upper_bound j pp).
      nia.
Qed.

(** A join response that was sent is reassembled when it arrives.  The
    messages of [send_join_response], handed in any order to the
    [handle] of a protocol object whose decoder is new, are all
    acknowledged, in the order of their arrival, and the last call of
    the decoder's [finished] signal, which is [on_join_response],
    carries the sending station, the host index, the assigned index
    and the station list that was sent. *)
Theorem join_response_delivered (p : MeshProtocol.t) to from index (a h : nat)
    (L : list (StationInfo.t C)) :
  let per_packet := ((MeshProtocol.size_limit p - 0xC) / MeshProtocol.infosize)%Z in
  0 < length L < 256 → (0 < per_packet)%Z → h < 256 → a < 256 →
  Forall (λ r, StationInfo.index r < 256) L →
  ∃ out,
    MeshProtocol.send_join_response to (Z.of_nat a) (Z.of_nat h) L p
    = (Return tt,
       MeshProtocol.mk (MeshProtocol.size_limit p) (MeshProtocol.outbox p ++ out)
         (MeshProtocol.sliding_windows p)) ∧
    ∀ (arrived : list MeshProtocol.sent) (r : receiver),
      arrived ≡ₚ out →
      MeshProtocol.join_response_decoder r = JoinResponseDecoder.init →
      ∃ d,
        deliver from index arrived r
        = (Return tt,
           MeshProtocol.set_join_response_decoder d
             (MeshProtocol.set_acks
                (MeshProtocol.acks r
                 ++ ((λ s, (from, MeshProtocol.s_payload s)) <$> arrived)) r)) ∧
        last (JoinResponseDecoder.finished d) = Some (completion from h a L).
Proof.
  intros per_packet Hn Hp Hh Ha Hidx.
  destruct (sent_fragmentation p to a h L Hn Hp Hh Ha Hidx)
    as (k & frs & Hsend & Hfrag & Hne & Hcov).
  eexists. split; [exact Hsend|].
  intros arrived r Hperm Hinit.
  change ((λ fm : fragment * list byte, MeshProtocol.mk_sent to fm.2 0 true) <$> frs)
    with (map (λ fm : fragment * list byte, MeshProtocol.mk_sent to fm.2 0 true) frs)
    in Hperm.
  apply Permutation_map_inv in Hperm as (frs' & -> & Hperm).
  assert (fragmentation L h a k frs') as Hfrag'.
  { by apply (fragmentation_Permutation L h a k frs frs'). }
  assert (frs' ≠ []) as Hne'.
  { intros ->. by apply Permutation_nil_r in Hperm. }
  assert (covers (length L) frs'.*1) as Hcov'.
  { apply (covers_subseteq _ frs.*1); [|done].
    intros x Hx. by rewrite <- Hperm. }
  destruct (feed_fragmentation from L h a k frs' Hfrag' Hne')
    as (d & e & Hfeed & Hlog & He).
  exists d. split.
  - assert (map (λ fm : fragment * list byte, MeshProtocol.mk_sent to fm.2 0 true) frs'
            = (λ m, MeshProtocol.mk_sent to m 0 true) <$> frs'.*2) as ->.
    { by rewrite <- list_fmap_compose. }
    rewrite (deliver_fragments to from index (length L) frs'.*2 r d).
    + by rewrite <- (list_fmap_compose (λ m, MeshProtocol.mk_sent to m 0 true)
                      (λ s, (from, MeshProtocol.s_payload s)) frs'.*2).
    + apply Forall_fmap. destruct Hfrag' as [Hall _].
      eapply Forall_impl; [exact Hall|]. intros [f m] [Hfm _]. simpl in *.
      split; [by eapply is_fragment_of_type|].
      by destruct (is_fragment_of_inv L h a k f m Hfm) as [? _].
    + lia.
    + by rewrite Hinit.
  - assert (0 < e) as Hpos by (by apply He).
    destruct e as [|e]; [lia|].
    by rewrite Hlog, replicate_S_end, last_snoc.
Qed.

End Handlers_facts.

Lemma handle_ports_witness :
  MeshProtocol.handle (C:=byte) (A:=MeshMgr.StationAddress) 7 0
    (MeshProtocol.mk_message 0 0x200 5 []) (MeshProtocol.init 20)
  = (Raise (NameError "packet"), MeshProtocol.init 20) ∧
  MeshProtocol.handle (C:=byte) (A:=MeshMgr.StationAddress) 7 0xFD
    (MeshProtocol.mk_message 0 0x200 1 []) (MeshProtocol.init 20)
  = (Return tt, MeshProtocol.init 20) ∧
  MeshProtocol.handle (C:=byte) (A:=MeshMgr.StationAddress) 7 3
    (MeshProtocol.mk_message 0 0x200 1 []) (MeshProtocol.init 20)
  = (Raise (AttributeError "handle"), MeshProtocol.init 20).
Proof.
  pose proof (handle_ports (C:=byte) (A:=MeshMgr.StationAddress) (MeshProtocol.init 20)
                7 0 (MeshProtocol.mk_message 0 0x200 5 [])) as (Hname & _).
  pose proof (handle_ports (C:=byte) (A:=MeshMgr.StationAddress) (MeshProtocol.init 20)
                7 0xFD (MeshProtocol.mk_message 0 0x200 1 [])) as (_ & Hdrop & _).
  pose proof (handle_ports (C:=byte) (A:=MeshMgr.StationAddress) (MeshProtocol.init 20)
                7 3 (MeshProtocol.mk_message 0 0x200 1 [])) as (_ & _ & _ & Hattr & _).
  split; [|split].
  - apply Hname; discriminate.
  - by apply Hdrop.
  - apply Hattr; [done|discriminate|done].
Defined.

Lemma handle_message_unhandled_witness :
  MeshProtocol.handle_message (C:=byte) (A:=MeshMgr.StationAddress) 7 []
    (MeshProtocol.init 20)
  = (Raise IndexError_range, MeshProtocol.init 20) ∧
  MeshProtocol.handle_message (C:=byte) (A:=MeshMgr.StationAddress) 7 [Byte.x04]
    (MeshProtocol.init 20)
  = (Raise (KeyError 4), MeshProtocol.init 20).
Proof.
  split.
  - by apply (proj1 (handle_message_unhandled (C:=byte) (A:=MeshMgr.StationAddress)
                        (MeshProtocol.init 20) 7 [])).
  - apply (proj2 (handle_message_unhandled (C:=byte) (A:=MeshMgr.StationAddress)
                    (MeshProtocol.init 20) 7 [Byte.x04]) 4); (done || lia).
Defined.

Lemma deny_join_round_trip_witness :
  ∃ out,
    MeshProtocol.send_deny_join 7 2 demo_protocol
    = (Return tt, MeshProtocol.mk 20 out (replicate 32 None)) ∧
    length out = 2 ∧
    deliver (C:=byte) (A:=MeshMgr.StationAddress) 9 0 out (MeshProtocol.init 20)
    = (Return tt,
       MeshProtocol.set_on_join_denied [(9, 2); (9, 2)] (MeshProtocol.init 20)).
Proof.
  apply (deny_join_round_trip (C:=byte) (A:=MeshMgr.StationAddress)
           demo_protocol (MeshProtocol.init 20) 7 9 0 2).
  lia.
Defined.

Lemma join_request_round_trip_witness :
  ∃ s,
    MeshProtocol.send_join_request 7 0xFD (MeshMgr.mk_address 3) demo_protocol
    = (Return tt, MeshProtocol.mk 20 [s] (replicate 32 None)) ∧
    MeshProtocol.s_station s = 7 ∧ MeshProtocol.s_ack s = true ∧
    MeshProtocol.handle (C:=byte) 9 0 (MeshProtocol.message_of s) (MeshProtocol.init 20)
    = (Return tt,
       MeshProtocol.set_on_join_request [(9, 0xFD, MeshMgr.mk_address 3)]
         (MeshProtocol.set_acks [(9, MeshProtocol.s_payload s)] (MeshProtocol.init 20))).
Proof.
  apply (join_request_round_trip (C:=byte) demo_protocol (MeshProtocol.init 20)
           7 9 0 0xFD (MeshMgr.mk_address 3)).
  lia.
Defined.

Lemma join_response_delivered_witness :
  let L := [StationInfo.mk Byte.x0a 0; StationInfo.mk Byte.x0b 1;
            StationInfo.mk Byte.x0c 2] in
  ∃ out,
    MeshProtocol.send_join_response 7 3 0 L demo_protocol
    = (Return tt, MeshProtocol.mk 20 out (replicate 32 None)) ∧
    ∃ d,
      deliver (C:=byte) (A:=MeshMgr.StationAddress) 9 0 (reverse out)
        (MeshProtocol.init 20)
      = (Return tt,
         MeshProtocol.set_join_response_decoder d
           (MeshProtocol.set_acks
              ((λ s, (9, MeshProtocol.s_payload s)) <$> reverse out)
              (MeshProtocol.init 20))) ∧
      last (JoinResponseDecoder.finished d) = Some (completion 9 0 3 L).
Proof.
  intros L.
  destruct (join_response_delivered (C:=byte) (A:=MeshMgr.StationAddress)
              demo_protocol 7 9 0 3 0 L) as (out & Hsend & Hdeliver).
  - simpl. lia.
  - vm_compute. reflexivity.
  - lia.
  - lia.
  - repeat (apply Forall_cons; split; [simpl; lia|]). by apply Forall_nil.
  - exists out. split; [exact Hsend|].
    apply (Hdeliver (reverse out) (MeshProtocol.init 20)).
    + apply reverse_Permutation.
    + reflexivity.
Defined.

(** ** MeshMgr: creating, joining, connecting *)

Section Manager_more.
Context {C : Type} `{ConnectionInfo C} `{AddressCodec MeshMgr.StationAddress}.
Import MeshMgr.

Lemma pop_pending_run (key idx : nat) (m : t C) :
  pending_connect m !! key = Some idx →
  pop_pending key m
  = (Return idx, set_pending_connect (delete key (pending_connect m)) m).
Proof.
  intros Hkey. unfold pop_pending. unfold bind at 1, gets at 1.
  unfold bind at 1. by rewrite Hkey.
Qed.

Lemma station_connected_pending (rvcid_attr : station_ref → nat) st idx (m : t C) :
  pending_connect m !! rvcid_attr st = Some idx →
  handle_station_connected rvcid_attr st m
  = (usable <- zoom stations set_stations (StationList.is_usable idx) ;;
     if usable then
       zoom stations set_stations (StationList.add st (Some idx)) ;;;
       i <- gets (λ m, StationList.index_attr (stations m) st) ;;
       zoom protocol set_protocol (MeshProtocol.assign_sliding_window st i) ;;;
       modify (λ m, set_station_joined (station_joined m ++ [st]) m)
     else ret tt)
      (set_pending_connect (delete (rvcid_attr st) (pending_connect m)) m).
Proof.
  intros Hkey. unfold handle_station_connected. unfold bind at 1, gets at 1.
  rewrite bool_decide_eq_true_2 by (by rewrite Hkey).
  unfold bind at 1. by rewrite (pop_pending_run _ idx).
Qed.

(** A station that connects while its identity is in [pending_connect]
    joins the mesh at the index that was noted for it.  When that slot
    is free and the index has a place in the table of sliding windows,
    [handle_station_connected] returns; the entry is removed from
    [pending_connect], the station sits in that slot and its [index]
    attribute is the slot number, a sliding window is bound to it at
    the same index, and [station_joined] is called with it.  Nothing is
    sent and nothing else changes. *)
Theorem station_connected_joins (rvcid_attr : station_ref → nat) st idx (m : t C) :
  pending_connect m !! rvcid_attr st = Some idx →
  StationList.stations (stations m) !! idx = Some None →
  idx < length (MeshProtocol.sliding_windows (protocol m)) →
  handle_station_connected rvcid_attr st m
  = (Return tt,
     set_station_joined (station_joined m ++ [st])
       (set_protocol
          (MeshProtocol.mk (MeshProtocol.size_limit (protocol m))
             (MeshProtocol.outbox (protocol m))
             (<[idx := Some st]> (MeshProtocol.sliding_windows (protocol m))))
          (set_stations
             (StationList.mk (<[idx := Some st]> (StationList.stations (stations m)))
                (<[st := idx]> (StationList.index_attr (stations m))))
             (set_pending_connect (delete (rvcid_attr st) (pending_connect m)) m)))).
Proof.
  intros Hkey Hslot Hwin. rewrite (station_connected_pending _ _ idx) by done.
  destruct (lookup_lt_is_Some_2 _ _ Hwin) as [w Hw].
  unfold bind at 1, zoom at 1, StationList.is_usable.
  unfold bind at 1, gets at 1. cbn [stations set_pending_connect].
  rewrite Hslot. cbn [lift_opt]. unfold bind at 1, ret at 1, ret at 1.
  rewrite bool_decide_eq_true_2 by done.
  unfold bind at 1, zoom at 1. cbn [stations set_stations].
  rewrite (add_explicit_free _ _ _ Hslot).
  unfold bind at 1, gets at 1. cbn [stations set_stations StationList.index_attr].
  rewrite fn_lookup_insert.
  unfold bind at 1, zoom at 1, MeshProtocol.assign_sliding_window.
  unfold bind at 1, gets at 1. cbn [protocol set_stations set_pending_connect].
  unfold bind at 1. rewrite Hw. reflexivity.
Qed.

(** When [handle_station_connected] does not let a station join.  A
    station whose identity is not in [pending_connect] changes nothing.
    For a pending station whose slot is occupied, the entry is removed
    and that is all: nothing is registered and [station_joined] is not
    called.  For a pending station whose index is outside the registry
    the call raises [IndexError], and the entry is removed as well. *)
Theorem station_connected_not_joined (rvcid_attr : station_ref → nat) st (m : t C) :
  let popped := set_pending_connect (delete (rvcid_attr st) (pending_connect m)) m in
  (pending_connect m !! rvcid_attr st = None →
     handle_station_connected rvcid_attr st m = (Return tt, m)) ∧
  (∀ idx o, pending_connect m !! rvcid_attr st = Some idx →
     StationList.stations (stations m) !! idx = Some (Some o) →
     handle_station_connected rvcid_attr st m = (Return tt, popped)) ∧
  (∀ idx, pending_connect m !! rvcid_attr st = Some idx →
     StationList.stations (stations m) !! idx = None →
     handle_station_connected rvcid_attr st m = (Raise IndexError_range, popped)).
Proof.
  intros popped. split; [|split].
  - intros Hkey. unfold handle_station_connected. unfold bind at 1, gets at 1.
    rewrite bool_decide_eq_false_2; [done|].
    rewrite Hkey. by intros [? ?].
  - intros idx o Hkey Hslot. rewrite (station_connected_pending _ _ idx) by done.
    unfold bind at 1, zoom at 1, StationList.is_usable.
    unfold bind at 1, gets at 1. cbn [stations set_pending_connect].
    rewrite Hslot. cbn [lift_opt]. unfold bind at 1, ret at 1, ret at 1.
    rewrite bool_decide_eq_false_2 by done. reflexivity.
  - intros idx Hkey Hslot. rewrite (station_connected_pending _ _ idx) by done.
    unfold bind at 1, zoom at 1, StationList.is_usable.
    unfold bind at 1, gets at 1. cbn [stations set_pending_connect].
    rewrite Hslot. reflexivity.
Qed.

(** [create] makes the local station the host.  With a free slot in the
    registry it puts the local station into the first free one and sets
    [host_index] to that slot, so that [is_host] answers [True]
    afterwards.  On a full registry it raises [OverflowError] and
    [host_index] is not touched. *)
Theorem create_makes_host (ss : session C) (m : t C) :
  let slots := StationList.stations (stations m) in
  (None ∈ slots →
     ∃ i m',
       first_free slots i ∧
       create ss m = (Return tt, m') ∧
       m' = set_host_index (Some i)
              (set_stations
                 (StationList.mk (<[i := Some (station ss)]> slots)
                    (<[station ss := i]> (StationList.index_attr (stations m)))) m) ∧
       is_host ss m' = (Return true, m')) ∧
  (None ∉ slots → create ss m = (Raise OverflowError_full, m)).
Proof.
  intros slots. split.
  - intros Hin.
    destruct (add_default_free (stations m) (station ss) Hin) as (i & Hfirst & Hadd).
    exists i. eexists. split; [done|].
    assert (create ss m
            = (Return tt,
               set_host_index (Some i)
                 (set_stations
                    (StationList.mk (<[i := Some (station ss)]> slots)
                       (<[station ss := i]> (StationList.index_attr (stations m)))) m)))
      as Hcreate.
    { unfold create. unfold bind at 1, zoom at 1. rewrite Hadd.
      unfold modify. cbn [stations set_stations StationList.index_attr].
      by rewrite fn_lookup_insert. }
    split; [exact Hcreate|]. split; [done|].
    unfold is_host, gets. cbn [host_index stations set_host_index set_stations
                                StationList.index_attr].
    by rewrite fn_lookup_insert, bool_decide_eq_true_2.
  - intros Hfull. unfold create. unfold bind at 1, zoom at 1.
    rewrite (add_default_full _ _ Hfull). by destruct m.
Qed.

(** A join response that does not complete the join.  When the manager
    is not expecting one, [handle_join_response] changes nothing.  When
    it is expecting one and the assigned slot is occupied or outside the
    registry, the call raises [IndexError] after the flag was cleared
    and [host_index] was set: the local station is not registered,
    nothing is entered in [pending_connect] and [join_succeeded] is not
    called, and a later response is no longer expected. *)
Theorem join_response_not_completed (ss : session C) st host_idx my_index
    (infos : list (StationInfo.t C)) (m : t C) :
  let cleared := set_host_index (Some host_idx) (set_expecting_join_response false m) in
  (expecting_join_response m = false →
     handle_join_response ss st host_idx my_index infos m = (Return tt, m)) ∧
  (∀ o, expecting_join_response m = true →
     StationList.stations (stations m) !! my_index = Some (Some o) →
     handle_join_response ss st host_idx my_index infos m
     = (Raise IndexError_occupied, cleared)) ∧
  (expecting_join_response m = true →
     StationList.stations (stations m) !! my_index = None →
     handle_join_response ss st host_idx my_index infos m
     = (Raise IndexError_range, cleared)).
Proof.
  intros cleared. split; [|split].
  - intros Hexp. unfold handle_join_response. unfold bind at 1, gets at 1.
    by rewrite Hexp.
  - intros o Hexp Hslot. unfold handle_join_response. unfold bind at 1, gets at 1.
    rewrite Hexp. cbn [negb]. unfold bind at 1, modify at 1.
    unfold bind at 1, modify at 1. unfold bind at 1, zoom at 1.
    cbn [stations set_host_index set_expecting_join_response].
    by rewrite (add_explicit_occupied _ _ _ o Hslot).
  - intros Hexp Hslot. unfold handle_join_response. unfold bind at 1, gets at 1.
    rewrite Hexp. cbn [negb]. unfold bind at 1, modify at 1.
    unfold bind at 1, modify at 1. unfold bind at 1, zoom at 1.
    cbn [stations set_host_index set_expecting_join_response].
    by rewrite (add_explicit_out_of_range _ _ _ Hslot).
Qed.

(** [join] sets [expecting_join_response] and hands one message for the
    host to the resender: the bytes 01, the local station's index, 00,
    00, and then the serialized address.  When the local station's
    index is not a byte, building the message raises [ValueError], with
    the flag already set and nothing sent. *)
Theorem join_sends_request (ss : session C) (addr : StationAddress) host (m : t C) :
  let index := StationList.index_attr (stations m) (station ss) in
  (index < 256 →
     join ss addr host m
     = (Return tt,
        set_protocol
          (MeshProtocol.mk (MeshProtocol.size_limit (protocol m))
             (MeshProtocol.outbox (protocol m) ++
              [MeshProtocol.mk_sent host
                 ((byte_of <$> [1; index; 0; 0]) ++ addr_serialize addr) 0 true])
             (MeshProtocol.sliding_windows (protocol m)))
          (set_expecting_join_response true m))) ∧
  (256 ≤ index →
     join ss addr host m
     = (Raise ValueError_byte, set_expecting_join_response true m)).
Proof.
  intros index. split; intros Hidx.
  - unfold join. unfold bind at 1, modify at 1. unfold bind at 1, gets at 1.
    unfold zoom. cbn [stations protocol set_expecting_join_response]. fold index.
    by rewrite (send_join_request_run _ _ _ _ Hidx).
  - unfold join. unfold bind at 1, modify at 1. unfold bind at 1, gets at 1.
    unfold zoom. cbn [stations protocol set_expecting_join_response]. fold index.
    unfold MeshProtocol.send_join_request. unfold bind at 1.
    rewrite (bytes_of_out_of_range _ (Z.of_nat index)); [by destruct m| |lia].
    apply list_elem_of_further, list_elem_of_here.
Qed.

Lemma denials_run (denials : list (station_ref * nat)) : ∀ m : t C,
  for_each denials (λ d, handle_join_denied d.1 d.2) m
  = (Return tt, set_join_denied (join_denied m ++ denials.*1) m).
Proof.
  induction denials as [|[st reason] denials IH]; intros m.
  - simpl. unfold ret. destruct m. unfold set_join_denied. simpl.
    by rewrite app_nil_r.
  - cbn [for_each]. unfold bind at 1, handle_join_denied at 1, modify at 1.
    rewrite IH. destruct m. unfold set_join_denied. simpl.
    by rewrite <- app_assoc.
Qed.

(** After [join], exactly one join response is taken.  Denials that
    arrive in between call [join_denied] and do not end the wait: the
    next join response for a free slot is accepted from whoever sent
    it, sets [host_index], registers the local station and calls
    [join_succeeded].  Every join response after that one is ignored
    and changes nothing. *)
Theorem join_accepts_one_response (ss : session C) (addr : StationAddress) host
    (denials : list (station_ref * nat)) st host_idx my_index
    (infos : list (StationInfo.t C)) (m : t C) :
  StationList.index_attr (stations m) (station ss) < 256 →
  StationList.stations (stations m) !! my_index = Some None →
  ∃ m1 m2 m3,
    join ss addr host m = (Return tt, m1) ∧
    for_each denials (λ d, handle_join_denied d.1 d.2) m1 = (Return tt, m2) ∧
    join_denied m2 = join_denied m ++ denials.*1 ∧
    handle_join_response ss st host_idx my_index infos m2 = (Return tt, m3) ∧
    host_index m3 = Some host_idx ∧
    StationList.stations (stations m3) !! my_index = Some (Some (station ss)) ∧
    join_succeeded m3 = join_succeeded m ++ [infos] ∧
    ∀ st' host_idx' my_index' infos',
      handle_join_response ss st' host_idx' my_index' infos' m3 = (Return tt, m3).
Proof.
  intros Hidx Hslot.
  eexists. eexists. eexists.
  split.
  { unfold join. unfold bind at 1, modify at 1. unfold bind at 1, gets at 1.
    unfold zoom. cbn [stations protocol set_expecting_join_response].
    by rewrite (send_join_request_run _ _ _ _ Hidx). }
  split; [apply denials_run|].
  split; [done|].
  split.
  { unfold handle_join_response. unfold bind at 1, gets at 1.
    cbn [expecting_join_response set_join_denied set_protocol
         set_expecting_join_response negb].
    unfold bind at 1, modify at 1. unfold bind at 1, modify at 1.
    unfold bind at 1, zoom at 1.
    cbn [stations set_host_index set_expecting_join_response].
    rewrite (add_explicit_free _ _ _ Hslot).
    unfold bind at 1. rewrite note_pending_all. reflexivity. }
  cbn [host_index stations join_succeeded expecting_join_response
       set_join_succeeded set_pending_connect set_stations set_host_index
       set_expecting_join_response StationList.stations].
  split; [done|].
  split; [by apply list_lookup_insert_eq, lookup_lt_is_Some|].
  split; [done|].
  intros st' host_idx' my_index' infos'. reflexivity.
Qed.

End Manager_more.

(** *** The host's answer to a join request *)

Lemma filtered_length_lt s :
  None ∈ StationList.stations s →
  length (StationList.filtered s) < length (StationList.stations s).
Proof.
  unfold StationList.filtered. generalize (StationList.stations s). intros l Hin.
  induction l as [|[o|] l IH].
  - by apply elem_of_nil in Hin.
  - apply elem_of_cons in Hin as [|Hin]; [done|].
    specialize (IH Hin). unfold omap in *. simpl in *. lia.
  - pose proof (filtered_length_le (StationList.mk l (λ _, 0))) as Hle.
    unfold StationList.filtered, omap in *. simpl in *. lia.
Qed.

Lemma add_default_at s st i :
  StationList.next_index s = (Return i, s) →
  StationList.stations s !! i = Some None →
  StationList.add st None s
  = (Return tt,
     StationList.mk (<[i := Some st]> (StationList.stations s))
       (<[st := i]> (StationList.index_attr s))).
Proof.
  intros Hnext Hfree. unfold StationList.add. unfold bind at 1. rewrite Hnext.
  change (StationList.add st (Some i) s
          = (Return tt,
             StationList.mk (<[i := Some st]> (StationList.stations s))
               (<[st := i]> (StationList.index_attr s)))).
  by apply add_explicit_free.
Qed.

Section Host_answers.
Context {C : Type} `{ConnectionInfoLaws C}.
Import MeshMgr.

Lemma occupants_indices (s : StationList.t) (ci : station_ref → C) :
  consistent s → length (StationList.stations s) ≤ 256 →
  Forall (λ r, StationInfo.index r < 256)
    ((λ o, StationInfo.mk (ci o) (StationList.index_attr s o))
       <$> StationList.filtered s).
Proof.
  intros Hcons Hlen. apply Forall_fmap, Forall_forall. intros o Ho.
  unfold compose. cbn [StationInfo.index].
  unfold StationList.filtered in Ho.
  apply list_elem_of_omap in Ho as (slot & Hslot & Hid).
  destruct slot as [o'|]; [|done]. simpl in Hid. injection Hid as ->.
  apply list_elem_of_lookup_1 in Hslot as [i Hi].
  rewrite (Hcons i o Hi). apply lookup_lt_Some in Hi. lia.
Qed.

(** The host's answer to a join request announces the slot the joining
    station is then given.  On a manager with a host index, a registry
    whose stations know their slots and a free slot, [send_join_response]
    returns; the packets it hands to the resender are a fragmentation of
    the list of the stations registered before the call, under the
    host's index and the first free slot as the assigned index; and
    afterwards the joining station sits in that very slot, its [index]
    attribute is the slot number and a sliding window is bound to it
    there. *)
Theorem send_join_response_assigns_first_free (ss : session C) st h (m : t C) :
  let slots := StationList.stations (stations m) in
  let attr := StationList.index_attr (stations m) in
  let windows := MeshProtocol.sliding_windows (protocol m) in
  let L := (λ o, StationInfo.mk (connection_info_of ss o) (attr o))
             <$> StationList.filtered (stations m) in
  let per_packet :=
    ((MeshProtocol.size_limit (protocol m) - 0xC) / MeshProtocol.infosize)%Z in
  host_index m = Some h → h < 256 →
  consistent (stations m) → None ∈ slots → length slots ≤ 256 →
  length windows = length slots →
  L ≠ [] → (0 < per_packet)%Z →
  ∃ i k (frs : list (fragment * list byte)),
    first_free slots i ∧
    send_join_response ss st m
    = (Return tt,
       set_protocol
         (MeshProtocol.mk (MeshProtocol.size_limit (protocol m))
            (MeshProtocol.outbox (protocol m) ++
             ((λ fm : fragment * list byte, MeshProtocol.mk_sent st fm.2 0 true)
                <$> frs))
            (<[i := Some st]> windows))
         (set_stations
            (StationList.mk (<[i := Some st]> slots) (<[st := i]> attr)) m)) ∧
    fragmentation L h i k frs ∧ frs ≠ [] ∧ covers (length L) frs.*1.
Proof.
  intros slots attr windows L per_packet Hhost Hh Hcons Hin Hlen Hwin HL Hpp.
  destruct (next_index_free (stations m) Hin) as (i & _ & Hfirst & Hnext).
  assert (i < length slots) as Hi by (destruct Hfirst as [Hfree _]; by eapply lookup_lt_Some).
  assert (0 < length L < 256) as HnL.
  { split; [destruct L; [done|simpl; lia]|].
    unfold L. rewrite length_fmap.
    pose proof (filtered_length_lt (stations m) Hin) as Hlt.
    change (StationList.stations (stations m)) with slots in Hlt. lia. }
  assert (Forall (λ r, StationInfo.index r < 256) L) as Hidx.
  { by apply occupants_indices. }
  destruct (sent_fragmentation (protocol m) st i h L HnL Hpp Hh ltac:(lia) Hidx)
    as (k & frs & Hsend & Hfrag & Hne & Hcov).
  destruct (lookup_lt_is_Some_2 windows i ltac:(lia)) as [w Hw].
  exists i, k, frs. split; [done|]. split; [|done].
  unfold send_join_response.
  unfold bind at 1, zoom at 1. rewrite Hnext.
  unfold bind at 1, gets at 1. cbn [host_index set_stations]. rewrite Hhost.
  unfold bind at 1, lift_opt at 1, ret at 1.
  unfold bind at 1, gets at 1. cbn [stations set_stations].
  unfold bind at 1, zoom at 1. cbn [protocol set_stations].
  fold attr. fold L. rewrite Hsend.
  unfold bind at 1, zoom at 1. cbn [stations set_protocol set_stations].
  rewrite (add_default_at _ st i Hnext (proj1 Hfirst)).
  unfold bind at 1, gets at 1.
  cbn [stations set_protocol set_stations StationList.index_attr].
  rewrite fn_lookup_insert.
  unfold zoom, MeshProtocol.assign_sliding_window.
  unfold bind at 1, gets at 1.
  cbn [protocol set_protocol set_stations MeshProtocol.sliding_windows].
  fold windows. unfold bind at 1. rewrite Hw.
  destruct m. reflexivity.
Qed.

End Host_answers.

(** *** Concrete runs of the manager *)

Lemma station_connected_joins_witness :
  ∃ m', MeshMgr.handle_station_connected (λ _, 42) 7 demo_waiting = (Return tt, m') ∧
    StationList.stations (MeshMgr.stations m') !! 3 = Some (Some 7) ∧
    MeshProtocol.sliding_windows (MeshMgr.protocol m') !! 3 = Some (Some 7) ∧
    MeshMgr.station_joined m' = [7] ∧
    MeshMgr.pending_connect m' !! 42 = None.
Proof.
  eexists. split.
  - apply (station_connected_joins (λ _, 42) 7 3 demo_waiting).
    + vm_compute. reflexivity.
    + reflexivity.
    + vm_compute. lia.
  - repeat split; vm_compute; reflexivity.
Defined.

Lemma station_connected_not_joined_witness :
  MeshMgr.handle_station_connected (λ _, 41) 7 demo_waiting
  = (Return tt, demo_waiting) ∧
  MeshMgr.handle_station_connected (λ _, 42) 7 demo_far
  = (Raise IndexError_range,
     MeshMgr.set_pending_connect (delete 42 (MeshMgr.pending_connect demo_far)) demo_far).
Proof.
  split.
  - apply (proj1 (station_connected_not_joined (λ _, 41) 7 demo_waiting)).
    vm_compute. reflexivity.
  - apply (proj2 (proj2 (station_connected_not_joined (λ _, 42) 7 demo_far)) 40).
    + vm_compute. reflexivity.
    + reflexivity.
Defined.

Lemma create_makes_host_witness :
  ∃ i m',
    first_free (replicate 32 None) i ∧
    MeshMgr.create demo_session (MeshMgr.init demo_protocol unassigned) = (Return tt, m') ∧
    m' = MeshMgr.set_host_index (Some i)
           (MeshMgr.set_stations
              (StationList.mk (<[i := Some 0]> (replicate 32 None)) (<[0 := i]> unassigned))
              (MeshMgr.init demo_protocol unassigned)) ∧
    MeshMgr.is_host demo_session m' = (Return true, m').
Proof.
  apply (proj1 (create_makes_host demo_session (MeshMgr.init demo_protocol unassigned))).
  apply (bool_decide_unpack _). vm_compute. exact I.
Defined.

Lemma join_response_not_completed_witness :
  MeshMgr.handle_join_response demo_session 5 0 1 [StationInfo.mk Byte.x2a 0]
    (MeshMgr.init demo_protocol unassigned)
  = (Return tt, MeshMgr.init demo_protocol unassigned) ∧
  MeshMgr.handle_join_response demo_session 5 0 40 [StationInfo.mk Byte.x2a 0] demo_client
  = (Raise IndexError_range,
     MeshMgr.set_host_index (Some 0) (MeshMgr.set_expecting_join_response false demo_client)).
Proof.
  split.
  - by apply (proj1 (join_response_not_completed demo_session 5 0 1
                       [StationInfo.mk Byte.x2a 0] (MeshMgr.init demo_protocol unassigned))).
  - by apply (proj2 (proj2 (join_response_not_completed demo_session 5 0 40
                              [StationInfo.mk Byte.x2a 0] demo_client))).
Defined.

Lemma join_sends_request_witness :
  MeshMgr.join demo_session (MeshMgr.mk_address 3) 5 (MeshMgr.init demo_protocol unassigned)
  = (Return tt,
     MeshMgr.set_protocol
       (MeshProtocol.mk 20
          [MeshProtocol.mk_sent 5
             ((byte_of <$> [1; 0xFD; 0; 0]) ++ addr_serialize (MeshMgr.mk_address 3)) 0 true]
          (replicate 32 None))
       (MeshMgr.set_expecting_join_response true (MeshMgr.init demo_protocol unassigned))).
Proof.
  apply (proj1 (join_sends_request demo_session (MeshMgr.mk_address 3) 5
                  (MeshMgr.init demo_protocol unassigned))).
  vm_compute. lia.
Defined.

Lemma join_accepts_one_response_witness :
  ∃ m1 m2 m3,
    MeshMgr.join demo_session (MeshMgr.mk_address 3) 5
      (MeshMgr.init demo_protocol unassigned) = (Return tt, m1) ∧
    for_each [(5, 1)] (λ d, MeshMgr.handle_join_denied d.1 d.2) m1 = (Return tt, m2) ∧
    MeshMgr.join_denied m2 = [5] ∧
    MeshMgr.handle_join_response demo_session 9 0 1 [StationInfo.mk Byte.x2a 0] m2
    = (Return tt, m3) ∧
    MeshMgr.host_index m3 = Some 0 ∧
    StationList.stations (MeshMgr.stations m3) !! 1 = Some (Some 0) ∧
    MeshMgr.join_succeeded m3 = [[StationInfo.mk Byte.x2a 0]] ∧
    ∀ st' host_idx' my_index' infos',
      MeshMgr.handle_join_response demo_session st' host_idx' my_index' infos' m3
      = (Return tt, m3).
Proof.
  apply (join_accepts_one_response demo_session (MeshMgr.mk_address 3) 5 [(5, 1)] 9 0 1
           [StationInfo.mk Byte.x2a 0] (MeshMgr.init demo_protocol unassigned)).
  - vm_compute. lia.
  - reflexivity.
Defined.

Lemma handle_join_request_not_host_witness :
  MeshMgr.handle_join_request demo_session 9 253 (MeshMgr.mk_address 100) demo_client
  = (Return tt,
     MeshMgr.set_protocol
       (MeshProtocol.mk 20
          [MeshProtocol.mk_sent 9 [Byte.x02; Byte.x00; Byte.xff; Byte.xff; Byte.x01] 0 false;
           MeshProtocol.mk_sent 9 [Byte.x02; Byte.x00; Byte.xff; Byte.xff; Byte.x01] 8 false]
          (replicate 32 None))
       demo_client).
Proof.
  apply (handle_join_request_not_host demo_session 9 253 (MeshMgr.mk_address 100)
           demo_client).
  discriminate.
Defined.

Lemma demo_host_consistent : consistent (MeshMgr.stations demo_host).
Proof.
  intros i st Hi.
  change (StationList.stations (MeshMgr.stations demo_host))
    with (Some 0 :: replicate 31 None) in Hi.
  destruct i as [|i].
  - injection Hi as <-. reflexivity.
  - change (replicate 31 None !! i = Some (Some st)) in Hi.
    apply lookup_replicate in Hi as [? _]. done.
Qed.

Lemma send_join_response_assigns_first_free_witness :
  ∃ i k frs m',
    first_free (StationList.stations (MeshMgr.stations demo_host)) i ∧
    MeshMgr.send_join_response demo_session 7 demo_host = (Return tt, m') ∧
    StationList.stations (MeshMgr.stations m') !! i = Some (Some 7) ∧
    fragmentation [StationInfo.mk Byte.x00 0] 0 i k frs.
Proof.
  destruct (send_join_response_assigns_first_free demo_session 7 0 demo_host)
    as (i & k & frs & Hfirst & Hrun & Hfrag & _).
  - reflexivity.
  - lia.
  - apply demo_host_consistent.
  - apply (bool_decide_unpack _). vm_compute. exact I.
  - vm_compute. lia.
  - reflexivity.
  - discriminate.
  - vm_compute. reflexivity.
  - exists i, k, frs. eexists. split; [exact Hfirst|]. split; [exact Hrun|].
    split; [|exact Hfrag].
    apply list_lookup_insert_eq. destruct Hfirst as [Hfree _].
    by eapply lookup_lt_Some.
Defined.

(** ** JoinResponseDecoder: the signal with its subscribers *)

Section Decoder_subscribed.
Context {C : Type} `{ConnectionInfoLaws C} {X : Type}.
Variable on_finished : JoinResponseDecoder.finished_call C → M X unit.
Import JoinResponseDecoder.

#[local] Arguments Nat.add : simpl never.
#[local] Arguments Nat.mul : simpl never.

Lemma own_run {A} (c : M (t C) A) (d : t C) (x : X) :
  own c (d, x) = ((c d).1, ((c d).2, x)).
Proof. unfold own, zoom. simpl. by destruct (c d). Qed.

Lemma notify_run call (d : t C) (x : X) :
  notify on_finished call (d, x)
  = ((on_finished call x).1,
     (set_finished (finished d ++ [call]) d, (on_finished call x).2)).
Proof.
  unfold notify. unfold bind at 1. rewrite own_run. unfold modify, zoom. simpl.
  by destruct (on_finished call x).
Qed.

(** *** Every step but the call is the decoder's own *)

Lemma with_subscribers_bind {A} st (p : M (t C) A) (k : A → M (t C) unit)
    (kw : A → M (t C * X) unit) :
  keeps finished p → keeps station p →
  (∀ a, with_subscribers on_finished st (k a) (kw a)) →
  with_subscribers on_finished st (bind p k) (bind (own p) kw).
Proof.
  intros Hlog Hst Hk d x. unfold bind. rewrite own_run.
  specialize (Hlog d). specialize (Hst d).
  destruct (p d) as [[a|e] d0]; simpl in *; [|by left].
  destruct (Hk a d0 x) as [[Hsame Hrun]|(h & a' & slots & d1 & Hall & Hl & Hs & Hc & Hrun)].
  - left. split; [congruence|done].
  - right. exists h, a', slots, d1. simpl. rewrite <- Hlog.
    split; [done|]. split; [done|]. split; [congruence|]. by split.
Qed.

Lemma with_subscribers_ret st :
  with_subscribers (C:=C) on_finished st (ret tt) (ret tt).
Proof. intros d x. by left. Qed.

Lemma with_subscribers_completion st :
  with_subscribers on_finished st
    (slots <- attr "infos" infos ;;
     if all_infos slots then
       h <- attr "host_index" host_index ;;
       a <- attr "assigned_index" assigned_index ;;
       slots <- attr "infos" infos ;;
       modify (λ d, set_finished (finished d ++ [mk_finished st h a slots]) d) ;;;
       reset
     else ret tt)
    (slots <- own (attr "infos" infos) ;;
     if all_infos slots then
       h <- own (attr "host_index" host_index) ;;
       a <- own (attr "assigned_index" assigned_index) ;;
       slots <- own (attr "infos" infos) ;;
       notify on_finished (mk_finished st h a slots) ;;;
       own reset
     else ret tt).
Proof.
  intros d x. unfold own, notify, attr, reset. mstep.
  destruct (infos d) as [slots|] eqn:Hinfos; simpl; [|by left].
  destruct (all_infos slots) eqn:Hall; simpl; [|by left].
  destruct (host_index d) as [h|] eqn:Hh; simpl; [|by left].
  destruct (assigned_index d) as [a|] eqn:Ha; simpl; [|by left].
  rewrite Hinfos. simpl.
  right. exists h, a, slots, d.
  split; [done|]. split; [done|]. split; [done|]. split; [reflexivity|].
  by destruct (on_finished (mk_finished st h a slots) x) as [[[]|e] x'].
Qed.

Lemma store_fragment_with_subscribers st m :
  with_subscribers on_finished st (store_fragment st m)
    (store_fragment_with on_finished st m).
Proof.
  unfold store_fragment, store_fragment_with.
  apply with_subscribers_bind; [apply keeps_byte_at..|]. intros fi.
  apply with_subscribers_bind; [apply keeps_attr..|]. intros bits.
  apply with_subscribers_bind; [apply keeps_lift_opt..|]. intros seen.
  destruct seen; simpl; [apply with_subscribers_ret|].
  apply with_subscribers_bind; [apply keeps_attr..|]. intros bits'.
  apply with_subscribers_bind; [apply keeps_lift_opt..|]. intros _.
  apply with_subscribers_bind; [by apply keeps_modify..|]. intros _.
  apply with_subscribers_bind; [apply keeps_byte_at..|]. intros fl.
  apply with_subscribers_bind; [apply keeps_byte_at..|]. intros fo.
  apply with_subscribers_bind.
  { apply keeps_for_each. intros i. by apply store_record_keeps. }
  { apply keeps_for_each. intros i. by apply store_record_keeps. }
  intros _. apply with_subscribers_completion.
Qed.

(** *** Reading a step with subscribers off the step without *)

Lemma with_subscribers_quiet st (c : M (t C) unit) cw (d : t C) (x : X) :
  with_subscribers on_finished st c cw →
  finished (c d).2 = finished d →
  cw (d, x) = ((c d).1, ((c d).2, x)).
Proof.
  intros Hc Hlog.
  destruct (Hc d x) as [[_ Hrun]|(h & a & slots & d1 & _ & _ & _ & Hrun & _)]; [done|].
  rewrite Hrun in Hlog. simpl in Hlog.
  apply (f_equal length) in Hlog. rewrite length_app in Hlog. simpl in Hlog. lia.
Qed.

Lemma with_subscribers_called st (c : M (t C) unit) cw (d d' : t C) (x : X) call :
  with_subscribers on_finished st c cw →
  c d = (Return tt, d') → finished d' = finished d ++ [call] →
  ∃ dc, finished dc = finished d ++ [call] ∧ station dc = station d ∧
        d' = set_station None dc ∧
        f_station call = st ∧ all_infos (f_infos call) = true ∧
        cw (d, x) = match on_finished call x with
                    | (Return _, x') => (Return tt, (d', x'))
                    | (Raise e, x') => (Raise e, (dc, x'))
                    end.
Proof.
  intros Hc Hrun Hlog.
  destruct (Hc d x) as [[Hsame _]|(h & a & slots & d1 & Hall & Hl & Hs & Hrun' & Hw)].
  - rewrite Hrun in Hsame. simpl in Hsame. rewrite Hlog in Hsame.
    apply (f_equal length) in Hsame. rewrite length_app in Hsame. simpl in Hsame. lia.
  - rewrite Hrun in Hrun'. injection Hrun' as ->.
    simpl in Hlog. apply app_inv_head in Hlog. injection Hlog as <-.
    exists (set_finished (finished d ++ [mk_finished st h a slots]) d1).
    split; [reflexivity|]. split; [exact Hs|]. split; [reflexivity|].
    split; [done|]. split; [done|]. exact Hw.
Qed.

(** *** [parse] with subscribers *)

Lemma update_info_station st m (d : t C) : station (update_info st m d).2 = Some st.
Proof.
  unfold update_info. unfold bind at 1, modify at 1.
  match goal with
  | |- station (?rest (set_station (Some st) d)).2 = _ =>
      assert (keeps (C:=C) station rest) as Hk
  end.
  { repeat first
      [ apply keeps_attr | apply keeps_byte_at | (apply keeps_modify; done)
      | (apply keeps_bind; [|intros ?]) ]. }
  by rewrite Hk.
Qed.

Lemma check_info_true st m (d d' : t C) :
  check_info st m d = (Return true, d') → station d = Some st.
Proof.
  unfold check_info. unfold bind at 1, gets.
  case_bool_decide as Hst; [done|]. by cbn.
Qed.

Lemma select_context_station st m (d d1 : t C) :
  select_context st m d = (Return tt, d1) → station d1 = Some st.
Proof.
  unfold select_context. unfold bind at 1, gets.
  destruct (station d) as [s0|] eqn:Hs.
  - unfold bind at 1.
    destruct (check_info st m d) as [[ok|e] d0] eqn:Hc; [|done].
    pose proof (check_info_state st m d) as Hd0. rewrite Hc in Hd0. simpl in Hd0. subst d0.
    destruct ok; simpl.
    + intros [= <-]. by eapply check_info_true.
    + unfold bind, reset, modify. intros Hu.
      pose proof (update_info_station st m (set_station None d)) as Hst.
      by rewrite Hu in Hst.
  - intros Hu. pose proof (update_info_station st m d) as Hst. by rewrite Hu in Hst.
Qed.

Lemma parse_with_after_select (d d1 : t C) (x : X) st m :
  select_context st m d = (Return tt, d1) →
  parse_with on_finished st m (d, x) = store_fragment_with on_finished st m (d1, x).
Proof. intros Hsel. unfold parse_with, bind. by rewrite own_run, Hsel. Qed.

(** What [parse] does with subscribers, read off what it does without. *)
Lemma parse_with_cases st m (d : t C) (x : X) :
  (finished (parse st m d).2 = finished d ∧
   parse_with on_finished st m (d, x) = ((parse st m d).1, ((parse st m d).2, x))) ∨
  (∃ h a slots dc,
     let call := mk_finished st h a slots in
     all_infos slots = true ∧
     finished dc = finished d ++ [call] ∧ station dc = Some st ∧
     parse st m d = (Return tt, set_station None dc) ∧
     parse_with on_finished st m (d, x)
     = match on_finished call x with
       | (Return _, x') => (Return tt, (set_station None dc, x'))
       | (Raise e, x') => (Raise e, (dc, x'))
       end).
Proof.
  pose proof (select_context_keeps_finished st m d) as Hlog.
  unfold parse, parse_with, bind. rewrite own_run.
  destruct (select_context st m d) as [[[]|e] d0] eqn:Hsel; simpl in *; [|by left].
  apply select_context_station in Hsel.
  destruct (store_fragment_with_subscribers st m d0 x)
    as [[Hsame Hrun]|(h & a & slots & d1 & Hall & Hl & Hs & Hrun & Hw)].
  - left. split; [congruence|done].
  - right. exists h, a, slots.
    exists (set_finished (finished d0 ++ [mk_finished st h a slots]) d1).
    split; [done|]. split; [by rewrite Hlog|]. split; [by rewrite <- Hsel|].
    by split.
Qed.

(** With subscribers that return and keep what they hold, [parse] is
    the decoder of the log alone. *)
Lemma parse_with_quiet st m (d : t C) (x : X) :
  (∀ call x', on_finished call x' = (Return tt, x')) →
  parse_with on_finished st m (d, x) = ((parse st m d).1, ((parse st m d).2, x)).
Proof.
  intros Hquiet.
  destruct (parse_with_cases st m d x)
    as [[_ Hrun]|(h & a & slots & dc & _ & _ & _ & Hrun & Hw)]; [done|].
  rewrite Hw, Hquiet, Hrun. reflexivity.
Qed.

(** Whatever the decoder holds, whatever the message is and whatever
    is subscribed to [finished], one call of [parse] calls the signal
    at most once and takes nothing from its log; without a call the
    subscribers' state is as it was.  When it calls the signal, the
    station is the sender of the message and no entry of the list
    handed over is [None].  When the subscribers return, [parse]
    returns and the decoder is idle; when a subscriber raises, [parse]
    raises the same exception and [reset] has not run: the decoder
    still holds the sender as its station. *)
Theorem parse_signals_at_most_once st m (d : t C) (x : X) :
  let r := parse_with on_finished st m (d, x) in
  (finished r.2.1 = finished d ∧ r.2.2 = x) ∨
  ∃ h a slots,
    let call := mk_finished st h a slots in
    finished r.2.1 = finished d ++ [call] ∧
    all_infos slots = true ∧
    r.2.2 = (on_finished call x).2 ∧
    match (on_finished call x).1 with
    | Return _ => r.1 = Return tt ∧ station r.2.1 = None
    | Raise e => r.1 = Raise e ∧ station r.2.1 = Some st
    end.
Proof.
  intros r. unfold r.
  destruct (parse_with_cases st m d x)
    as [[Hsame ->]|(h & a & slots & dc & Hall & Hl & Hs & _ & ->)].
  - by left.
  - right. exists h, a, slots. simpl.
    destruct (on_finished (mk_finished st h a slots) x) as [[[]|e] x']; simpl; done.
Qed.

End Decoder_subscribed.

(** ** JoinResponseDecoder: fragments in and out of range *)

Lemma for_each_app {S A} (xs ys : list A) (body : A → M S unit) (s : S) :
  for_each (xs ++ ys) body s = (for_each xs body ;;; for_each ys body) s.
Proof.
  revert s. induction xs as [|x xs IH]; intros s; [done|].
  simpl. unfold bind. destruct (body x s) as [[[]|e] s1]; [|done].
  rewrite IH. reflexivity.
Qed.

Section Decoder_ranges.
Context {C : Type} `{ConnectionInfoLaws C} {X : Type}.
Variable on_finished : JoinResponseDecoder.finished_call C → M X unit.
Import JoinResponseDecoder.

#[local] Arguments Nat.add : simpl never.
#[local] Arguments Nat.mul : simpl never.

(** The record loop over a range that leaves the list, when the
    records inside the list are in the message: those are stored, and
    the subscript of the first index outside raises. *)
Lemma store_loop_overflow_index m fo fl (d : t C) slots recs :
  infos d = Some slots → length recs < fl →
  (recs ≠ [] → fo + length recs ≤ length slots) →
  length slots ≤ fo + length recs →
  carries m recs →
  for_each (seq 0 fl) (store_record m fo) d
  = (Raise IndexError_range,
     set_infos (Some (list_inserts fo (Some <$> recs) slots)) d).
Proof.
  intros Hinfos Hlt Hin Hout Hrecs.
  replace fl with (length recs + S (fl - S (length recs))) by lia.
  rewrite seq_app, for_each_app. unfold bind.
  rewrite (store_loop_ok m fo recs 0 d slots);
    [|done|intros Hne; specialize (Hin Hne); lia|].
  2:{ intros j r Hj. by apply Hrecs. }
  rewrite Nat.add_0_r. cbn [seq for_each]. unfold bind.
  assert (store_record m fo (0 + length recs)
            (set_infos (Some (list_inserts fo (Some <$> recs) slots)) d)
          = (Raise IndexError_range,
             set_infos (Some (list_inserts fo (Some <$> recs) slots)) d)) as ->.
  { unfold store_record, attr. mstep.
    rewrite lookup_ge_None_2; [done|]. rewrite length_inserts. lia. }
  reflexivity.
Qed.

Lemma store_fragment_range_overflow_index (d : t C) st m bits slots fi fl fo recs :
  fragments_received d = Some bits → infos d = Some slots →
  field m 5 = Some fi → field m 6 = Some fl → field m 7 = Some fo →
  bits !! fi = Some false → length recs < fl →
  (recs ≠ [] → fo + length recs ≤ length slots) →
  length slots ≤ fo + length recs →
  carries m recs →
  store_fragment st m d
  = (Raise IndexError_range,
     set_infos (Some (list_inserts fo (Some <$> recs) slots))
       (set_fragments_received (Some (<[fi := true]> bits)) d)).
Proof.
  intros Hbits Hinfos H5 H6 H7 Hnew Hlt Hin Hout Hrecs.
  unfold store_fragment, attr. mstep.
  rewrite (byte_at_field _ _ _ _ H5). simpl. rewrite Hbits. simpl.
  rewrite Hnew. simpl. rewrite Hbits. simpl. rewrite Hnew. simpl.
  rewrite (byte_at_field _ _ _ _ H6). simpl.
  rewrite (byte_at_field _ _ _ _ H7). simpl.
  by rewrite (store_loop_overflow_index m fo fl _ slots recs).
Qed.

(** A fragment in range, stored into a collecting decoder that tracks
    its station and header. *)
Lemma store_fragment_with_in_range (d1 : t C) (x : X) st m n h a k fi fo recs :
  collecting d1 → station d1 = Some st →
  header_attrs d1 = (Some n, Some h, Some a, Some k) →
  field m 5 = Some fi → field m 6 = Some (length recs) → field m 7 = Some fo →
  fi < k → fo + length recs ≤ n → carries m recs →
  ∃ d', ready d' ∧
    ((finished d' = finished d1 ∧
      store_fragment_with on_finished st m (d1, x) = (Return tt, (d', x))) ∨
     (∃ slots dc,
        let call := mk_finished st h a slots in
        all_infos slots = true ∧
        finished dc = finished d1 ++ [call] ∧ station dc = Some st ∧
        d' = set_station None dc ∧
        store_fragment_with on_finished st m (d1, x)
        = match on_finished call x with
          | (Return _, x') => (Return tt, (d', x'))
          | (Raise e, x') => (Raise e, (dc, x'))
          end)).
Proof.
  intros Hcoll Hst Hhdr H5 H6 H7 Hfi Hrange Hrecs.
  pose proof Hcoll as (s0 & n0 & h0 & a0 & k0 & bits & slots &
                       Hs & Hn & Hh & Ha & Hk & Hbits & Hblen & Hinfos & Hilen).
  unfold header_attrs in Hhdr. rewrite Hn, Hh, Ha, Hk in Hhdr.
  injection Hhdr as -> -> -> ->.
  pose proof (store_fragment_with_subscribers on_finished st m) as Hsub.
  destruct (lookup_lt_is_Some_2 bits fi) as [seen Hseen]; [lia|].
  destruct seen.
  - pose proof (store_fragment_seen d1 st m bits fi Hbits H5 Hseen) as Hrun.
    exists d1. split; [by right|]. left. split; [done|].
    rewrite (with_subscribers_quiet on_finished st _ _ d1 x Hsub); by rewrite Hrun.
  - pose proof (store_fragment_new d1 st m bits slots h a fi fo recs
                  Hbits Hinfos Hh Ha H5 H6 H7 Hseen Hrecs ltac:(intros _; lia)) as Hrun.
    cbv zeta in Hrun.
    destruct (all_infos (list_inserts fo (Some <$> recs) slots)) eqn:Hall.
    + destruct (with_subscribers_called on_finished st _ _ d1 _ x
                  (mk_finished st h a (list_inserts fo (Some <$> recs) slots))
                  Hsub Hrun eq_refl)
        as (dc & Hlog & Hsdc & Hd' & _ & _ & Hw).
      rewrite Hd' in Hw.
      exists (set_station None dc). split; [by left|]. right.
      exists (list_inserts fo (Some <$> recs) slots), dc.
      split; [done|]. split; [done|]. split; [congruence|]. split; [done|].
      exact Hw.
    + exists (set_infos (Some (list_inserts fo (Some <$> recs) slots))
                (set_fragments_received (Some (<[fi := true]> bits)) d1)).
      split.
      * right. exists s0, n, h, a, k, (<[fi := true]> bits),
                      (list_inserts fo (Some <$> recs) slots).
        simpl. by rewrite length_insert, length_inserts.
      * left. split; [done|].
        rewrite (with_subscribers_quiet on_finished st _ _ d1 x Hsub);
          by rewrite Hrun.
Qed.

(** C1, as the code has it, with whatever is subscribed to [finished].
    On a message with its eight header bytes:
    (a) from an idle or a collecting decoder, when [fragment_index] is
    below the fragment count, the record range lies within
    [num_stations] and the records are all in the message, [parse]
    returns normally and does not touch the subscribers, unless the
    fragment completes the list; then the signal is called with the
    sender and the header's host and assigned index, and [parse] ends
    as that call ends: when the subscribers return it resets and
    returns, and when a subscriber raises, the exception leaves [parse]
    with the call made and the reset left out;
    (b) on an idle decoder a [fragment_index] at or above the count
    raises [IndexError], and the decoder is left tracking the header of
    that message;
    (c) on an idle decoder a non-empty record range that leaves
    [num_stations], with the records inside the list in the message,
    raises [IndexError] too, with the header tracked, the fragment
    marked as received and those records stored.
    Nothing in [parse] catches an exception, and nothing is undone. *)
Theorem parse_in_and_out_of_range (d : t C) (x : X) st m n h a k fi fl fo :
  field m 1 = Some n → field m 2 = Some h →
  field m 3 = Some a → field m 4 = Some k →
  field m 5 = Some fi → field m 6 = Some fl → field m 7 = Some fo →
  (ready d → fi < k → fo + fl ≤ n →
     (∃ recs, length recs = fl ∧ carries m recs) →
     ∃ d', ready d' ∧
       ((finished d' = finished d ∧
         parse_with on_finished st m (d, x) = (Return tt, (d', x))) ∨
        (∃ slots dc,
           let call := mk_finished st h a slots in
           all_infos slots = true ∧
           finished dc = finished d ++ [call] ∧ station dc = Some st ∧
           d' = set_station None dc ∧
           parse_with on_finished st m (d, x)
           = match on_finished call x with
             | (Return _, x') => (Return tt, (d', x'))
             | (Raise e, x') => (Raise e, (dc, x'))
             end))) ∧
  (station d = None → k ≤ fi →
     parse_with on_finished st m (d, x)
     = (Raise IndexError_range, (fresh_context st n h a k (finished d), x))) ∧
  (station d = None → fi < k → 0 < fl → n < fo + fl →
     ∀ recs, length recs = n - fo → carries m recs →
     parse_with on_finished st m (d, x)
     = (Raise IndexError_range,
        (set_infos (Some (list_inserts fo (Some <$> recs) (replicate n None)))
           (set_fragments_received (Some (<[fi := true]> (replicate k false)))
              (fresh_context st n h a k (finished d))), x))).
Proof.
  intros H1 H2 H3 H4 H5 H6 H7.
  pose proof (store_fragment_with_subscribers on_finished st m) as Hsub.
  assert (station d = None →
          select_context st m d = (Return tt, fresh_context st n h a k (finished d)))
    as Hidle.
  { intros Hs. rewrite select_context_idle by done. by apply update_info_header. }
  split; [|split].
  - intros Hready Hfi Hrange (recs & <- & Hrecs).
    assert (∃ d1, select_context st m d = (Return tt, d1) ∧ collecting d1 ∧
                  header_attrs d1 = (Some n, Some h, Some a, Some k))
      as (d1 & Hsel & Hcoll & Hhdr).
    { destruct Hready as [Hs|Hcoll].
      - exists (fresh_context st n h a k (finished d)).
        split; [by apply Hidle|]. split; [apply fresh_context_collecting|done].
      - pose proof Hcoll as (s0 & n0 & h0 & a0 & k0 & bits & slots &
                             Hs & Hn & Hh & Ha & Hk & _).
        rewrite (select_context_collecting d st m s0 n0 h0 a0 k0 n h a k) by done.
        case_bool_decide as Hsame.
        + destruct Hsame as (_ & -> & -> & -> & ->). exists d.
          split; [done|]. split; [done|].
          unfold header_attrs. by rewrite Hn, Hh, Ha, Hk.
        + eexists. split; [done|].
          split; [apply fresh_context_collecting|done]. }
    pose proof (select_context_keeps_finished st m d) as Hlog.
    rewrite Hsel in Hlog. simpl in Hlog.
    rewrite (parse_with_after_select on_finished d d1 x st m Hsel).
    rewrite <- Hlog.
    apply (store_fragment_with_in_range d1 x st m n h a k fi fo recs); try done.
    by eapply select_context_station.
  - intros Hs Hfi.
    rewrite (parse_with_after_select on_finished d _ x st m (Hidle Hs)).
    pose proof (store_fragment_index_overflow
                  (fresh_context st n h a k (finished d)) st m (replicate k false) fi
                  eq_refl H5 ltac:(by rewrite length_replicate)) as Hrun.
    rewrite (with_subscribers_quiet on_finished st _ _ _ x Hsub); by rewrite Hrun.
  - intros Hs Hfi Hpos Hover recs Hlen Hrecs.
    rewrite (parse_with_after_select on_finished d _ x st m (Hidle Hs)).
    pose proof (store_fragment_range_overflow_index
                  (fresh_context st n h a k (finished d)) st m
                  (replicate k false) (replicate n None) fi fl fo recs
                  eq_refl eq_refl H5 H6 H7) as Hrun.
    rewrite length_replicate in Hrun.
    specialize (Hrun ltac:(by apply lookup_replicate_2) ltac:(lia)
                     ltac:(intros Hne; assert (length recs ≠ 0) by (by destruct recs); lia)
                     ltac:(lia) Hrecs).
    rewrite (with_subscribers_quiet on_finished st _ _ _ x Hsub); by rewrite Hrun.
Qed.

End Decoder_ranges.

(** *** Concrete runs, with the manager of a joining client subscribed *)

(** C1 as stated fails: the eight bytes [02 01 00 00 01 05 00 00]
    announce one station and one fragment and carry fragment index 5.
    A new decoder adopts the header and then raises [IndexError] on
    [fragments_received[5]]; the exception leaves [parse], and the
    decoder is no longer the one it was before the message. *)
Lemma parse_fragment_index_out_of_range_raises :
  JoinResponseDecoder.parse_with (MeshMgr.on_join_response demo_session) 1
    [Byte.x02; Byte.x01; Byte.x00; Byte.x00; Byte.x01; Byte.x05; Byte.x00; Byte.x00]
    (JoinResponseDecoder.init, demo_client)
  = (Raise IndexError_range, (fresh_context 1 1 0 0 1 [], demo_client)) ∧
  fresh_context (C:=byte) 1 1 0 0 1 [] ≠ JoinResponseDecoder.init.
Proof. split; [reflexivity|discriminate]. Qed.

(** A fragment with nothing out of range that still raises: the eleven
    bytes [02 01 00 28 01 00 01 00 2a 00 00] announce one station, one
    fragment and the assigned index 40, and carry the one record.  The
    list is complete, [finished] is called, and the subscribed
    [handle_join_response] of a client that waits for its response
    raises [IndexError], because its registry has no slot 40.  The
    exception leaves [parse]: the call is in the log, the decoder was
    not reset, and the manager has cleared its flag. *)
Lemma parse_completion_subscriber_raises :
  let call := JoinResponseDecoder.mk_finished 1 0 40 [Some (StationInfo.mk Byte.x2a 0)] in
  JoinResponseDecoder.parse_with (MeshMgr.on_join_response demo_session) 1
    [Byte.x02; Byte.x01; Byte.x00; Byte.x28; Byte.x01; Byte.x00; Byte.x01; Byte.x00;
     Byte.x2a; Byte.x00; Byte.x00]
    (JoinResponseDecoder.init, demo_client)
  = (Raise IndexError_range,
     (JoinResponseDecoder.mk (Some 1) (Some 1) (Some 0) (Some 40) (Some 1)
        (Some [true]) (Some [Some (StationInfo.mk Byte.x2a 0)]) [call],
      MeshMgr.set_host_index (Some 0)
        (MeshMgr.set_expecting_join_response false demo_client))).
Proof. reflexivity. Qed.

Lemma parse_in_and_out_of_range_witness :
  let f := MeshMgr.on_join_response demo_session in
  let start := (JoinResponseDecoder.init (C:=byte), demo_client) in
  let m_in := [Byte.x02; Byte.x01; Byte.x00; Byte.x28; Byte.x01; Byte.x00; Byte.x01;
               Byte.x00; Byte.x2a; Byte.x00; Byte.x00] in
  let m_index := [Byte.x02; Byte.x01; Byte.x00; Byte.x01; Byte.x01; Byte.x05; Byte.x01;
                  Byte.x00] in
  let m_range := [Byte.x02; Byte.x01; Byte.x00; Byte.x01; Byte.x01; Byte.x00; Byte.x02;
                  Byte.x00; Byte.x2a; Byte.x00; Byte.x00] in
  (∃ d', ready d' ∧
     ((JoinResponseDecoder.finished d'
       = JoinResponseDecoder.finished (JoinResponseDecoder.init (C:=byte)) ∧
       JoinResponseDecoder.parse_with f 1 m_in start = (Return tt, (d', demo_client))) ∨
      (∃ slots dc,
         let call := JoinResponseDecoder.mk_finished 1 0 40 slots in
         JoinResponseDecoder.all_infos slots = true ∧
         JoinResponseDecoder.finished dc
         = JoinResponseDecoder.finished (JoinResponseDecoder.init (C:=byte)) ++ [call] ∧
         JoinResponseDecoder.station dc = Some 1 ∧
         d' = JoinResponseDecoder.set_station None dc ∧
         JoinResponseDecoder.parse_with f 1 m_in start
         = match f call demo_client with
           | (Return _, x') => (Return tt, (d', x'))
           | (Raise e, x') => (Raise e, (dc, x'))
           end))) ∧
  JoinResponseDecoder.parse_with f 1 m_index start
  = (Raise IndexError_range,
     (fresh_context 1 1 0 1 1
        (JoinResponseDecoder.finished (JoinResponseDecoder.init (C:=byte))),
      demo_client)) ∧
  JoinResponseDecoder.parse_with f 1 m_range start
  = (Raise IndexError_range,
     (JoinResponseDecoder.set_infos
        (Some (list_inserts 0 (Some <$> [StationInfo.mk Byte.x2a 0]) (replicate 1 None)))
        (JoinResponseDecoder.set_fragments_received
           (Some (<[0 := true]> (replicate 1 false)))
           (fresh_context 1 1 0 1 1
              (JoinResponseDecoder.finished (JoinResponseDecoder.init (C:=byte))))),
      demo_client)).
Proof.
  intros f start m_in m_index m_range.
  split; [|split].
  - apply (proj1 (parse_in_and_out_of_range f JoinResponseDecoder.init demo_client 1
                    m_in 1 0 40 1 0 1 0
                    eq_refl eq_refl eq_refl eq_refl eq_refl eq_refl eq_refl)).
    + left. reflexivity.
    + lia.
    + lia.
    + exists [StationInfo.mk Byte.x2a 0]. split; [reflexivity|].
      intros [|i] r Hr; [|discriminate Hr].
      injection Hr as <-. reflexivity.
  - apply (proj1 (proj2 (parse_in_and_out_of_range f JoinResponseDecoder.init demo_client 1
                    m_index 1 0 1 1 5 1 0
                    eq_refl eq_refl eq_refl eq_refl eq_refl eq_refl eq_refl))).
    + reflexivity.
    + lia.
  - apply (proj2 (proj2 (parse_in_and_out_of_range f JoinResponseDecoder.init demo_client 1
                    m_range 1 0 1 1 0 2 0
                    eq_refl eq_refl eq_refl eq_refl eq_refl eq_refl eq_refl))
             ltac:(reflexivity) ltac:(lia) ltac:(lia) ltac:(lia)
             [StationInfo.mk Byte.x2a 0] eq_refl).
    intros [|i] r Hr; [|discriminate Hr].
    injection Hr as <-. reflexivity.
Defined.
